(** * A generational genetic algorithm for hyperparameter tuning

    Shallow embedding of [genetic_algorithm/core.py] (class
    [GeneticAlgorithm]) and proofs about its evolution engine.

    Modelling conventions:
    - Python objects live in a store [objects : ref -> Model]; a list of
      models is a list of references, so that in-place updates of a
      [fitness] slot or of a child's hyperparameters are seen through every
      alias (population, graveyard, [bestModel]).  Membership tests such as
      [m not in keepMods] compare references, as Python does for objects
      without an [__eq__] of their own.
    - Python [int]s are [Z].  The fractions given to the constructor are
      binary64 floats, added, multiplied and compared as IEEE 754 has
      it.  Fitness values, which the engine only compares, are exact
      rationals [Q].
    - Exceptions are an error monad [result]; the only loop that need not
      terminate, the [while] of [evolve], is run with fuel.
    - [np.random] is an explicit generator state threaded through every
      call: an arbitrary stream of draws and a cursor into it.  Theorems
      hold for every stream; how likely an outcome is, is not modelled.
    - What [evolve] prints is not modelled, except that the two counters
      of its last line are part of its outcome. *)

From Stdlib Require Import ZArith QArith Lia SpecFloat.
From stdpp Require Import base tactics option numbers list.
Close Scope Q_scope.

(** ** Exceptions *)

Inductive exn : Type :=
  | AssertionError
  | ValueError
  | IndexError
  | TypeError
  | OverflowError
  | Exception.

Inductive result (A : Type) : Type :=
  | Ok (a : A)
  | Raise (e : exn).
Arguments Ok {A} a.
Arguments Raise {A} e.

Global Instance result_ret : MRet result := λ A a, Ok a.
Global Instance result_bind : MBind result := λ A B f m,
  match m with
  | Ok a => f a
  | Raise e => Raise e
  end.

Definition is_Ok {A} (r : result A) : Prop := ∃ a, r = Ok a.

(** ** Floating-point numbers

    A Python [float] is an IEEE 754 binary64 number: a value [x] of
    [spec_float] with [valid_binary 53 1024 x = true], that is, a zero,
    an infinity, NaN, or a mantissa in normal form for 53 bits of
    precision and the exponent bound 1024.  The operations are those of
    the standard library's specification of floating-point arithmetic:
    a sum or a product is the nearest float, ties going to the even
    one, and an infinity when it is too large. *)

Definition float : Type := spec_float.

Definition fadd (x y : float) : float := SFadd 53 1024 x y.
Definition fmul (x y : float) : float := SFmul 53 1024 x y.

(** [x <= y] and [x < y]: both false when [x] or [y] is NaN. *)
Definition fle (x y : float) : bool := SFleb x y.
Definition flt (x y : float) : bool := SFltb x y.

(** The float [1.0]; to compare a float with the [int] 1 is to compare
    it with [1.0]. *)
Definition f_one : float := S754_finite false 4503599627370496 (-52).

(** An [int] as operand of a float operation: the nearest float, and
    [OverflowError] when the [int] is too large to have one. *)
Definition float_of_int (n : Z) : result float :=
  match binary_normalize 53 1024 n 0 false with
  | S754_infinity _ => Raise OverflowError
  | x => Ok x
  end.

(** [int(np.floor(x))]: the greatest integer that is not above [x];
    [int] raises [OverflowError] for an infinity and [ValueError] for
    NaN. *)
Definition int_floor (x : float) : result Z :=
  match x with
  | S754_zero _ => Ok 0%Z
  | S754_finite sign m e =>
      Ok (Z.shiftl (if sign then Z.neg m else Z.pos m) e)
  | S754_infinity _ => Raise OverflowError
  | S754_nan => Raise ValueError
  end.

(** ** The random source

    [np.random] is a process-wide generator.  Its state is a stream of
    natural numbers together with the position of the next unread one; the
    Mersenne Twister behind it is not modelled, every stream is possible. *)

Record RandomState : Type := mkRandomState {
  draws : nat → nat;
  cursor : nat
}.

(** [randint n g]: an index below [n] (for [0 < n]) and the advanced state. *)
Definition randint (n : nat) (g : RandomState) : nat * RandomState :=
  (draws g (cursor g) `mod` n, mkRandomState (draws g) (S (cursor g))).

(** [k] successive draws, each removing the drawn element from the pool. *)
Fixpoint sample {A} (k : nat) (a : list A) (g : RandomState)
  : list A * RandomState :=
  match k with
  | 0 => ([], g)
  | S k' =>
      let '(i, g1) := randint (length a) g in
      match a !! i with
      | Some x =>
          let '(xs, g2) := sample k' (delete i a) g1 in (x :: xs, g2)
      | None => ([], g1)
      end
  end.

(** [np.random.choice(a, size=size, replace=False)].  It raises
    [ValueError] for a negative size, for an empty [a] unless no samples
    are taken, and for a sample larger than the population. *)
Definition choice {A} (a : list A) (size : Z) (g : RandomState)
  : result (list A * RandomState) :=
  if bool_decide (size < 0)%Z then Raise ValueError
  else if bool_decide (length a = 0 ∧ size ≠ 0%Z) then Raise ValueError
  else if bool_decide (Z.of_nat (length a) < size)%Z then Raise ValueError
  else Ok (sample (Z.to_nat size) a g).

(** [np.random.choice(a)]: one element of [a]; [ValueError] if [a] is
    empty. *)
Definition choice_one {A} (a : list A) (g : RandomState)
  : result (A * RandomState) :=
  let '(i, g1) := randint (length a) g in
  match a !! i with
  | Some x => Ok (x, g1)
  | None => Raise ValueError
  end.

(** ** Stable sort, descending in the key

    [list.sort(key=..., reverse=True)] is stable also when reversed:
    records with equal keys keep their original order.  On a total
    preorder every stable sort returns the same list, so an insertion sort
    stands for Python's. *)

Definition insert_desc {A} (x : Q * A) : list (Q * A) → list (Q * A) :=
  fix go l :=
    match l with
    | [] => [x]
    | y :: l' => if Qle_bool y.1 x.1 then x :: l else y :: go l'
    end.

Definition sort_desc {A} (l : list (Q * A)) : list (Q * A) :=
  foldr insert_desc [] l.

(** ** Data model *)

Definition ref : Type := nat.

Section Engine.

(** The hyperparameter configuration of a candidate; the engine never
    looks inside. *)
Context {hyper : Type}.

Record Model : Type := mkModel {
  hyperparams : hyper;
  fitness : option Q
}.

(** Modelled from the spec: the class [ModelMaker]
    ([genetic_algorithm/utils/model_maker.py] is not part of the
    sources).  [makeRandomModel()] and [makeChildModel(mother, father)]
    return a newly created candidate with unset fitness and do not
    change their inputs; [mutateModel(candidate)] changes the
    candidate's configuration in place and leaves its fitness slot
    alone.  Each of them may consume randomness. *)
Record ModelMaker : Type := mkModelMaker {
  makeRandomModel : RandomState → hyper * RandomState;
  makeChildModel : hyper → hyper → RandomState → hyper * RandomState;
  mutateModel : hyper → RandomState → hyper * RandomState
}.

(** Modelled from the spec: the class [ModelScorer]
    ([genetic_algorithm/utils/model_scorer.py] is not part of the
    sources).  [scoreModel(candidate)] returns a number, higher is
    better, and has no effect on the candidate; it may be noisy. *)
Record ModelScorer : Type := mkModelScorer {
  scoreModel : hyper → RandomState → Q * RandomState
}.

(** The arguments of [GeneticAlgorithm.__init__] and the counts derived
    from them; none of these attributes is assigned after construction. *)
Record Config : Type := mkConfig {
  modelMaker : ModelMaker;
  modelScorer : ModelScorer;
  popSize : Z;
  keepTopFrac : float;
  keepBtmFrac : float;
  makeChildFrac : float;
  mutateFrac : float;
  keepGraveyard : bool;
  randomState : option Z;
  keepTopN : Z;
  keepBtmN : Z;
  makeChildN : Z;
  mutateN : Z
}.

(** The mutable attributes of [self], and the process state its methods
    touch: the object store with its allocation counter, the random
    generator, and the traces of the calls made to
    [modelScorer.scoreModel] (candidate and returned score) and to
    [modelMaker.mutateModel].  [graveyard] exists as an attribute only
    when [keepGraveyard] is set; it is carried as a list that the code
    never touches otherwise. *)
Record State : Type := mkState {
  conf : Config;
  graveyard : list ref;
  population : list ref;
  bestModel : option ref;
  objects : ref → Model;
  allocated : nat;
  np_random : RandomState;
  scoreCalls : list (ref * Q);
  mutateCalls : list ref
}.

Definition set_graveyard (v : list ref) (s : State) : State :=
  mkState (conf s) v (population s) (bestModel s) (objects s)
          (allocated s) (np_random s) (scoreCalls s) (mutateCalls s).
Definition set_population (v : list ref) (s : State) : State :=
  mkState (conf s) (graveyard s) v (bestModel s) (objects s)
          (allocated s) (np_random s) (scoreCalls s) (mutateCalls s).
Definition set_bestModel (v : option ref) (s : State) : State :=
  mkState (conf s) (graveyard s) (population s) v (objects s)
          (allocated s) (np_random s) (scoreCalls s) (mutateCalls s).
Definition set_objects (v : ref → Model) (s : State) : State :=
  mkState (conf s) (graveyard s) (population s) (bestModel s) v
          (allocated s) (np_random s) (scoreCalls s) (mutateCalls s).
Definition set_allocated (v : nat) (s : State) : State :=
  mkState (conf s) (graveyard s) (population s) (bestModel s) (objects s)
          v (np_random s) (scoreCalls s) (mutateCalls s).
Definition set_np_random (v : RandomState) (s : State) : State :=
  mkState (conf s) (graveyard s) (population s) (bestModel s) (objects s)
          (allocated s) v (scoreCalls s) (mutateCalls s).
Definition set_scoreCalls (v : list (ref * Q)) (s : State) : State :=
  mkState (conf s) (graveyard s) (population s) (bestModel s) (objects s)
          (allocated s) (np_random s) v (mutateCalls s).
Definition set_mutateCalls (v : list ref) (s : State) : State :=
  mkState (conf s) (graveyard s) (population s) (bestModel s) (objects s)
          (allocated s) (np_random s) (scoreCalls s) v.

(** The store after an assignment to the object behind [r]. *)
Definition store (r : ref) (m : Model) (h : ref → Model) : ref → Model :=
  λ r', if decide (r' = r) then m else h r'.

(** Object creation: the new object gets the next unused reference. *)
Definition new_object (m : Model) (s : State) : ref * State :=
  (allocated s,
   set_allocated (S (allocated s))
     (set_objects (store (allocated s) m (objects s)) s)).

(** [m.fitness] for the object behind [r]. *)
Definition fitness_of (s : State) (r : ref) : option Q :=
  fitness (objects s r).

End Engine.

Arguments Model : clear implicits.
Arguments ModelMaker : clear implicits.
Arguments ModelScorer : clear implicits.
Arguments Config : clear implicits.
Arguments State : clear implicits.

(** ** The class [GeneticAlgorithm] *)

(** The part of the interpreter state that exists before the controller is
    built: the object store, the generator, and what [np.random.seed]
    makes of a seed. *)
Record Process {hyper : Type} : Type := mkProcess {
  proc_objects : ref → Model hyper;
  proc_allocated : nat;
  proc_random : RandomState;
  proc_seed : Z → RandomState
}.
Arguments Process : clear implicits.

Section Methods.

Context {hyper : Type}.
Implicit Types s : State hyper.

(** [int(np.floor(frac * popSize))], for a float [frac] and an [int]
    [popSize] *)
Definition count_of (frac : float) (popSize : Z) : result Z :=
  size ← float_of_int popSize;
  int_floor (fmul frac size).

(** [np.random.seed(seed)]: the seed is to be one of
    [0 .. 2**32 - 1]. *)
Definition np_random_seed (p : Process hyper) (seed : Z)
  : result RandomState :=
  if bool_decide (0 ≤ seed < 2 ^ 32)%Z then Ok (proc_seed p seed)
  else Raise ValueError.

Definition __init__ (modelMaker : ModelMaker hyper)
    (modelScorer : ModelScorer hyper) (popSize : Z)
    (keepTopFrac keepBtmFrac makeChildFrac mutateFrac : float)
    (keepGraveyard : bool) (randomState : option Z)
    (p : Process hyper) : result (State hyper) :=
  if fle (fadd (fadd keepTopFrac keepBtmFrac) makeChildFrac) f_one then
    keepTopN ← count_of keepTopFrac popSize;
    keepBtmN ← count_of keepBtmFrac popSize;
    makeChildN ← count_of makeChildFrac popSize;
    mutateN ← count_of mutateFrac popSize;
    g ← match randomState with
        | Some seed => np_random_seed p seed
        | None => Ok (proc_random p)
        end;
    Ok {| conf :=
            {| modelMaker := modelMaker;
               modelScorer := modelScorer;
               popSize := popSize;
               keepTopFrac := keepTopFrac;
               keepBtmFrac := keepBtmFrac;
               makeChildFrac := makeChildFrac;
               mutateFrac := mutateFrac;
               keepGraveyard := keepGraveyard;
               randomState := randomState;
               keepTopN := keepTopN;
               keepBtmN := keepBtmN;
               makeChildN := makeChildN;
               mutateN := mutateN |};
          graveyard := [];
          population := [];
          bestModel := None;
          objects := proc_objects p;
          allocated := proc_allocated p;
          np_random := g;
          scoreCalls := [];
          mutateCalls := [] |}
  else Raise AssertionError.

(** [self.modelMaker.makeRandomModel()] *)
Definition make_random s : ref * State hyper :=
  let '(h, g) := makeRandomModel (modelMaker (conf s)) (np_random s) in
  new_object (mkModel h None) (set_np_random g s).

(** [[self.modelMaker.makeRandomModel() for m in range(n)]] *)
Fixpoint random_models (n : nat) s : list ref * State hyper :=
  match n with
  | 0 => ([], s)
  | S n' =>
      let '(r, s1) := make_random s in
      let '(rs, s2) := random_models n' s1 in
      (r :: rs, s2)
  end.

Definition _initializePop s : result (State hyper) :=
  if bool_decide (length (population s) = 0) then
    let '(rs, s') := random_models (Z.to_nat (popSize (conf s))) s in
    Ok (set_population rs s')
  else Raise AssertionError.

(** One turn of the loop of [_scoreModelsInPop], at the model [r]. *)
Definition score_at (r : ref) s : State hyper :=
  match fitness_of s r with
  | Some _ => s
  | None =>
      let '(q, g) := scoreModel (modelScorer (conf s))
                       (hyperparams (objects s r)) (np_random s) in
      set_scoreCalls (scoreCalls s ++ [(r, q)])
        (set_np_random g
           (set_objects
              (store r (mkModel (hyperparams (objects s r)) (Some q))
                 (objects s)) s))
  end.

Definition _scoreModelsInPop s : State hyper :=
  foldl (λ s' r, score_at r s') s (population s).

(** The sort keys [m.fitness], paired with their models. *)
Definition keyed s : option (list (Q * ref)) :=
  mapM (λ r, (λ q, (q, r)) <$> fitness_of s r) (population s).

(** [self.population.sort(key=lambda m: m.fitness, reverse=True)].
    Ordering [None] against anything is a [TypeError]; a list of at
    most one model is sorted without a comparison. *)
Definition _sortPopByFitness s : result (State hyper) :=
  match keyed s with
  | Some ks => Ok (set_population (sort_desc ks).*2 s)
  | None =>
      if bool_decide (length (population s) ≤ 1) then Ok s
      else Raise TypeError
  end.

Definition _getBestModel s : result (ref * State hyper) :=
  s1 ← _sortPopByFitness s;
  match population s1 with
  | bestModel :: _ => Ok (bestModel, s1)
  | [] => Raise IndexError
  end.

(** [[pop[i] for i in inds]] *)
Definition index_all (pop : list ref) (inds : list nat)
  : result (list ref) :=
  match mapM (λ i, pop !! i) inds with
  | Some ms => Ok ms
  | None => Raise IndexError
  end.

(** [range(self.keepTopN)] *)
Definition topKeepInds s : list nat :=
  seq 0 (Z.to_nat (keepTopN (conf s))).

Definition remainingInds s : list nat :=
  filter (λ i, i ∉ topKeepInds s) (seq 0 (length (population s))).

Definition _killUnfit s : result (State hyper) :=
  s1 ← _sortPopByFitness s;
  topKeepMods ← index_all (population s1) (topKeepInds s1);
  '(btmKeepInds, g) ←
    choice (remainingInds s1) (keepBtmN (conf s1)) (np_random s1);
  btmKeepMods ← index_all (population s1) btmKeepInds;
  if bool_decide
       (length (list_intersection (topKeepInds s1) btmKeepInds) = 0)
  then
    let keepMods := topKeepMods ++ btmKeepMods in
    let unfitMods := filter (λ m, m ∉ keepMods) (population s1) in
    let s2 := set_population keepMods (set_np_random g s1) in
    Ok (if keepGraveyard (conf s2)
        then set_graveyard (graveyard s2 ++ unfitMods) s2
        else s2)
  else Raise AssertionError.

(** The [for] loop of [_makeChildren]: [n] more children after
    [children]. *)
Fixpoint make_children (n : nat) (children : list ref) s
  : result (list ref * State hyper) :=
  match n with
  | 0 => Ok (children, s)
  | S n' =>
      '(parents, g) ← choice (population s) 2 (np_random s);
      match parents with
      | [mother; father] =>
          let '(h, g') :=
            makeChildModel (modelMaker (conf s))
              (hyperparams (objects s mother))
              (hyperparams (objects s father)) g in
          let '(child, s1) :=
            new_object (mkModel h None) (set_np_random g' s) in
          make_children n' (children ++ [child]) s1
      | _ => Raise ValueError
      end
  end.

(** [self.modelMaker.mutateModel(r)] *)
Definition mutate (r : ref) s : State hyper :=
  let m := objects s r in
  let '(h, g) :=
    mutateModel (modelMaker (conf s)) (hyperparams m) (np_random s) in
  set_mutateCalls (mutateCalls s ++ [r])
    (set_np_random g
       (set_objects (store r (mkModel h (fitness m)) (objects s)) s)).

Definition _makeChildren s : result (State hyper) :=
  '(children, s1) ←
    make_children (Z.to_nat (makeChildN (conf s))) [] s;
  '(childToMutate, g) ← choice_one children (np_random s1);
  let s2 := mutate childToMutate (set_np_random g s1) in
  Ok (set_population (population s2 ++ children) s2).

(** The [while] loop of [_makeRemainingRandomModels], for at most [n]
    turns. *)
Fixpoint refill (n : nat) s : State hyper :=
  match n with
  | 0 => s
  | S n' =>
      if bool_decide (Z.of_nat (length (population s)) < popSize (conf s))%Z
      then
        let '(r, s1) := make_random s in
        refill n' (set_population (population s1 ++ [r]) s1)
      else s
  end.

(** Each turn brings the population one model closer to [popSize], so
    the loop takes no more turns than models are missing. *)
Definition _makeRemainingRandomModels s : State hyper :=
  refill (Z.to_nat (popSize (conf s) - Z.of_nat (length (population s)))) s.

(** The value of [stopCond] when the loop of [evolve] is entered.  The
    tests read the local [itersNoImprov], which was just set to 0. *)
Definition initial_stopCond (maxIters maxItersNoImprov : option Z)
  : result bool :=
  let iters : Z := 0%Z in
  let itersNoImprov : option Z := Some 0%Z in
  match maxIters, itersNoImprov with
  | Some mi, Some ni =>
      Ok (bool_decide (iters = mi)
          || bool_decide (Some ni = maxItersNoImprov))
  | Some mi, None => Ok (bool_decide (iters = mi))
  | None, Some ni => Ok (bool_decide (Some ni = maxItersNoImprov))
  | None, None => Raise Exception
  end.

(** [bestModel.fitness > self.bestModel.fitness] *)
Definition fitter s (bestModel' b : ref) : result bool :=
  match fitness_of s bestModel', fitness_of s b with
  | Some x, Some y => Ok (negb (Qle_bool x y))
  | _, _ => Raise TypeError
  end.

(** The first half of the body of the [while] loop of [evolve]: the
    models are scored, the best of them is compared with the remembered
    one, and the two counters are updated. *)
Definition track_best s (iters itersNoImprov : Z)
  : result (State hyper * Z * Z) :=
  let s1 := _scoreModelsInPop s in
  '(bestModel', s2) ← _getBestModel s1;
  improved ←
    match bestModel s2 with
    | None => Ok true
    | Some b => fitter s2 bestModel' b
    end;
  Ok (if improved : bool
      then (set_bestModel (Some bestModel') s2, (iters + 1)%Z, 0%Z)
      else (s2, (iters + 1)%Z, (itersNoImprov + 1)%Z)).

(** The body of the [while] loop of [evolve]: one generation. *)
Definition generation s (iters itersNoImprov : Z)
  : result (State hyper * Z * Z) :=
  '(s3, iters', itersNoImprov') ← track_best s iters itersNoImprov;
  s4 ← _killUnfit s3;
  s5 ← _makeChildren s4;
  Ok (_makeRemainingRandomModels s5, iters', itersNoImprov').

(** [k] turns of the loop body, one after the other. *)
Fixpoint generations (k : nat) s (iters itersNoImprov : Z)
  : result (State hyper * Z * Z) :=
  match k with
  | 0 => Ok (s, iters, itersNoImprov)
  | S k' =>
      '(s', iters', itersNoImprov') ← generation s iters itersNoImprov;
      generations k' s' iters' itersNoImprov'
  end.

(** The number of models of the population that are at neither a
    top-keep nor a bottom-keep index: all but [keepTopN] and
    [keepBtmN]. *)
Definition unfit_count s : nat :=
  length (population s)
  - (Z.to_nat (keepTopN (conf s)) + Z.to_nat (keepBtmN (conf s))).

(** The same, summed over the cullings of [k] generations. *)
Fixpoint total_unfit (k : nat) s (iters itersNoImprov : Z) : nat :=
  match k with
  | 0 => 0
  | S k' =>
      match generation s iters itersNoImprov with
      | Ok (s', iters', itersNoImprov') =>
          unfit_count s + total_unfit k' s' iters' itersNoImprov'
      | Raise _ => 0
      end
  end.

(** How a call of [evolve] ends: it returns, with the two counters that
    its last line prints; it raises; or the loop is still running when
    the fuel is used up. *)
Inductive outcome : Type :=
  | Returned (s : State hyper) (iters itersNoImprov : Z)
  | Raised (e : exn)
  | Running (s : State hyper) (iters itersNoImprov : Z).

(** The loop [while not stopCond].  No statement of the body assigns
    [stopCond]. *)
Fixpoint evolve_loop (fuel : nat) (stopCond : bool) s
    (iters itersNoImprov : Z) : outcome :=
  if stopCond then Returned s iters itersNoImprov
  else
    match fuel with
    | 0 => Running s iters itersNoImprov
    | S fuel' =>
        match generation s iters itersNoImprov with
        | Ok (s', iters', itersNoImprov') =>
            evolve_loop fuel' stopCond s' iters' itersNoImprov'
        | Raise e => Raised e
        end
    end.

Definition evolve (fuel : nat) (maxIters maxItersNoImprov : option Z) s
  : outcome :=
  if bool_decide (maxIters ≠ None ∨ maxItersNoImprov ≠ None) then
    match (if bool_decide (length (population s) = 0)
           then _initializePop s else Ok s) with
    | Raise e => Raised e
    | Ok s0 =>
        match initial_stopCond maxIters maxItersNoImprov with
        | Raise e => Raised e
        | Ok stopCond => evolve_loop fuel stopCond s0 0%Z 0%Z
        end
    end
  else Raised AssertionError.

(** The controller [s] had it been built with another [mutateFrac],
    and so another [mutateN]. *)
Definition with_mutate (frac : float) (n : Z) s : State hyper :=
  let c := conf s in
  mkState
    (mkConfig (modelMaker c) (modelScorer c) (popSize c) (keepTopFrac c)
       (keepBtmFrac c) (makeChildFrac c) frac (keepGraveyard c)
       (randomState c) (keepTopN c) (keepBtmN c) (makeChildN c) n)
    (graveyard s) (population s) (bestModel s) (objects s) (allocated s)
    (np_random s) (scoreCalls s) (mutateCalls s).

End Methods.

(** ** A small instance to run the engine on

    Hyperparameters are a single number; the factory draws it, adds the
    parents' or increments it, and the score of a model is its number. *)
Module Demo.

Definition maker : ModelMaker nat :=
  {| makeRandomModel := λ g, randint 50 g;
     makeChildModel := λ m f g, (m + f, g);
     mutateModel := λ h g, (S h, g) |}.

Definition scorer : ModelScorer nat :=
  {| scoreModel := λ h g, (inject_Z (Z.of_nat h), g) |}.

Definition process : Process nat :=
  {| proc_objects := λ _, mkModel 0 None;
     proc_allocated := 0;
     proc_random := mkRandomState (λ i, 7 * i + 3) 0;
     proc_seed := λ seed, mkRandomState (λ i, Z.to_nat seed + 5 * i) 0 |}.

(** The floats [0.0], [0.1], [0.2] and [0.3], and [0.5], [0.58] and
    [2**-60]. *)
Definition f00 : float := S754_zero false.
Definition f01 : float := S754_finite false 7205759403792794 (-56).
Definition f02 : float := S754_finite false 7205759403792794 (-55).
Definition f03 : float := S754_finite false 5404319552844595 (-54).
Definition f05 : float := S754_finite false 4503599627370496 (-53).
Definition f058 : float := S754_finite false 5224175567749775 (-53).
Definition f2m60 : float := S754_finite false 4503599627370496 (-112).

(** [GeneticAlgorithm(maker, scorer, popSize, top, btm, child, 0.1,
    keepGraveyard=True)] *)
Definition ga (popSize : Z) (top btm child : float)
  : result (State nat) :=
  __init__ maker scorer popSize top btm child f01 true None process.

(** The scenario of the specification: ten models, three kept from the
    top, two from the rest, three children. *)
Definition ga10 : result (State nat) :=
  ga 10 f03 f02 f03.

Definition blank : State nat :=
  mkState
    (mkConfig maker scorer 0 f00 f00 f00 f00 false None 0 0 0 0)
    [] [] None (proc_objects process) 0 (proc_random process) [] [].

(** The value of a computation that is known not to raise. *)
Definition force {A} (d : A) (r : result A) : A :=
  match r with
  | Ok a => a
  | Raise _ => d
  end.

(** The controller of the scenario: as constructed, with its first
    population, after the first half of the first generation, after the
    first culling, and after one and after three whole generations. *)
Definition start : State nat := force blank ga10.
Definition gen0 : State nat := force blank (_initializePop start).
Definition tracked : State nat :=
  (force (blank, 0%Z, 0%Z) (track_best gen0 0 0)).1.1.
Definition culled : State nat := force blank (_killUnfit tracked).
Definition gen1 : State nat :=
  (force (blank, 0%Z, 0%Z) (generation gen0 0 0)).1.1.
Definition gen3 : State nat :=
  (force (blank, 0%Z, 0%Z) (generations 3 gen0 0 0)).1.1.

(** A controller that is to make no children, with its first
    population. *)
Definition barren : State nat :=
  force blank (ga 10 f03 f02 f00 ≫= _initializePop).

Definition bred : State nat := force blank (_makeChildren culled).

(** A controller that is to keep a single model, before and after its
    first culling. *)
Definition lonely_tracked : State nat :=
  force blank
    (s ← ga 10 f01 f00 f01;
     s0 ← _initializePop s;
     '(s3, _, _) ← track_best s0 0 0;
     Ok s3).
Definition lonely : State nat := force blank (_killUnfit lonely_tracked).

(** The first population once scored, and then sorted. *)
Definition scored : State nat := _scoreModelsInPop gen0.
Definition sorted : State nat := force blank (_sortPopByFitness scored).

End Demo.

(** * Specification

    The predicates in which the theorems are stated. *)

(** The records whose key equals [q]; a stable sort leaves them in their
    order. *)
Definition same_key (q : Q) {A} (x : Q * A) : Prop := Qeq_bool x.1 q = true.

Global Instance same_key_dec (q : Q) {A} (x : Q * A) :
  Decision (same_key q x).
Proof. unfold same_key. apply _. Defined.

(** The models of [p] at the indices [inds], in the order of [inds]. *)
Definition models_at (p : list ref) (inds : list nat) : list ref :=
  omap (λ i, p !! i) inds.

(** The indices below [n] that are neither top-keep nor bottom-keep
    indices, in ascending order. *)
Definition unfitInds (top btm : list nat) (n : nat) : list nat :=
  filter (λ i, i ∉ top ++ btm) (seq 0 n).

(** The signed mantissa and the exponent of a float that is a number:
    its value is [mantissa * 2 ^ exponent]. *)
Definition mantissa (x : float) : Z :=
  match x with
  | S754_finite sign m _ => if sign then Z.neg m else Z.pos m
  | _ => 0%Z
  end.

Definition exponent (x : float) : Z :=
  match x with
  | S754_finite _ _ e => e
  | _ => 0%Z
  end.

(** A float that is a number: neither an infinity nor NaN. *)
Definition finite (x : float) : Prop :=
  match x with
  | S754_zero _ | S754_finite _ _ _ => True
  | S754_infinity _ | S754_nan => False
  end.

(** The keys are descending along the sorted list. *)
Definition descending {A} (l : list (Q * A)) : Prop :=
  ∀ i j x y, i < j → l !! i = Some x → l !! j = Some y → (y.1 <= x.1)%Q.

Section Predicates.

Context {hyper : Type}.
Implicit Types s : State hyper.

(** [allocates n s s']: from [s] to [s'] exactly [n] objects were created,
    all with unset fitness, and nothing else changed but the population
    and the random generator. *)
Record allocates (n : nat) s s' : Prop := {
  al_conf : conf s' = conf s;
  al_graveyard : graveyard s' = graveyard s;
  al_bestModel : bestModel s' = bestModel s;
  al_scoreCalls : scoreCalls s' = scoreCalls s;
  al_mutateCalls : mutateCalls s' = mutateCalls s;
  al_allocated : allocated s' = allocated s + n;
  al_old : ∀ r, r < allocated s → objects s' r = objects s r;
  al_new : ∀ r, allocated s ≤ r < allocated s + n → fitness_of s' r = None
}.

(** The models that are missing to reach [popSize]. *)
Definition deficit s : nat :=
  Z.to_nat (popSize (conf s) - Z.of_nat (length (population s))).

(** [scores l s s']: from [s] to [s'] the evaluator was called as the
    trace [l] tells, each call on a model whose fitness was unset, each
    result stored in that model's slot, and no other slot changed. *)
Record scores (l : list (ref * Q)) s s' : Prop := {
  sc_conf : conf s' = conf s;
  sc_graveyard : graveyard s' = graveyard s;
  sc_population : population s' = population s;
  sc_bestModel : bestModel s' = bestModel s;
  sc_allocated : allocated s' = allocated s;
  sc_mutateCalls : mutateCalls s' = mutateCalls s;
  sc_hyper : ∀ r, hyperparams (objects s' r) = hyperparams (objects s r);
  sc_calls : scoreCalls s' = scoreCalls s ++ l;
  sc_NoDup : NoDup l.*1;
  sc_stored : ∀ r q, (r, q) ∈ l →
    fitness_of s r = None ∧ fitness_of s' r = Some q ∧
    ∃ g, (scoreModel (modelScorer (conf s)) (hyperparams (objects s r)) g).1
         = q;
  sc_kept : ∀ r, r ∉ l.*1 → fitness_of s' r = fitness_of s r
}.

(** [culls top btm p s s']: [_killUnfit] took [s] to [s'], where [p] is
    the sorted population, [top] the top-keep indices and [btm] the
    bottom-keep indices that were drawn. *)
Record culls (top btm : list nat) (p : list ref) s s' : Prop := {
  cu_conf : conf s' = conf s;
  cu_bestModel : bestModel s' = bestModel s;
  cu_objects : objects s' = objects s;
  cu_allocated : allocated s' = allocated s;
  cu_scoreCalls : scoreCalls s' = scoreCalls s;
  cu_mutateCalls : mutateCalls s' = mutateCalls s;
  cu_sorted : _sortPopByFitness s = Ok (set_population p s);
  cu_top : top = seq 0 (Z.to_nat (keepTopN (conf s)));
  cu_drawn :
    choice (filter (λ i, i ∉ top) (seq 0 (length p)))
      (keepBtmN (conf s)) (np_random s) = Ok (btm, np_random s');
  cu_keep : Forall2 (λ i m, p !! i = Some m) (top ++ btm) (population s');
  cu_graveyard :
    graveyard s' =
      if keepGraveyard (conf s)
      then graveyard s ++ filter (λ m, m ∉ population s') p
      else graveyard s
}.

(** [breeds children c s1 s s']: [_makeChildren] took [s] to [s'];
    [s1] is the state after its loop, [children] the models the loop
    created and [c] the one among them that was mutated. *)
Record breeds (children : list ref) (c : ref) (s1 s s' : State hyper)
  : Prop := {
  br_loop :
    make_children (Z.to_nat (makeChildN (conf s))) [] s
      = Ok (children, s1);
  br_children :
    children = seq (allocated s) (Z.to_nat (makeChildN (conf s)));
  br_chosen :
    children !! (randint (length children) (np_random s1)).1 = Some c;
  br_population : population s' = population s ++ children;
  br_mutateCalls : mutateCalls s' = mutateCalls s ++ [c];
  br_conf : conf s' = conf s;
  br_graveyard : graveyard s' = graveyard s;
  br_bestModel : bestModel s' = bestModel s;
  br_scoreCalls : scoreCalls s' = scoreCalls s;
  br_allocated : allocated s' = allocated s + length children;
  br_old : ∀ r, r < allocated s → objects s' r = objects s r;
  br_fitness : ∀ r, r ∈ children → fitness_of s' r = None;
  br_mutated :
    hyperparams (objects s' c) =
      (mutateModel (modelMaker (conf s)) (hyperparams (objects s1 c))
         (randint (length children) (np_random s1)).2).1;
  br_others : ∀ r, r ≠ c → objects s' r = objects s1 r
}.

(** [later s s']: the configuration is the same; the objects of [s] still
    exist in [s'] and those that held a fitness hold the same; the
    evaluator's trace has only grown, and by calls on models that held no
    fitness in [s]; the graveyard has only grown. *)
Record later s s' : Prop := {
  lt_conf : conf s' = conf s;
  lt_allocated : allocated s ≤ allocated s';
  lt_fitness : ∀ r q,
    r < allocated s → fitness_of s r = Some q → fitness_of s' r = Some q;
  lt_scoreCalls : ∃ l,
    scoreCalls s' = scoreCalls s ++ l ∧
    ∀ r q, (r, q) ∈ l → r < allocated s → fitness_of s r = None;
  lt_graveyard : graveyard s `prefix_of` graveyard s'
}.

(** [wf s]: the population holds distinct, existing objects; the
    remembered best exists and has been scored; every call of the
    evaluator was on an existing object, which still holds the score
    returned; and no object was scored twice. *)
Record wf s : Prop := {
  wf_NoDup : NoDup (population s);
  wf_population : ∀ r, r ∈ population s → r < allocated s;
  wf_bestModel : ∀ b,
    bestModel s = Some b → b < allocated s ∧ is_Some (fitness_of s b);
  wf_scoreCalls : ∀ r q,
    (r, q) ∈ scoreCalls s → r < allocated s ∧ fitness_of s r = Some q;
  wf_scored : NoDup (scoreCalls s).*1
}.

(** A configuration under which every generation can be completed:
    the counts are not negative, two models at least survive to be
    parents, one child at least is made, and everything fits in the
    population. *)
Definition runnable (c : Config hyper) : Prop :=
  (0 ≤ keepTopN c)%Z ∧ (0 ≤ keepBtmN c)%Z ∧
  (2 ≤ keepTopN c + keepBtmN c)%Z ∧ (1 ≤ makeChildN c)%Z ∧
  (keepTopN c + keepBtmN c + makeChildN c ≤ popSize c)%Z.

(** The controller that [__init__] builds, given the counts and the
    generator. *)
Definition built (mk : ModelMaker hyper) (sc : ModelScorer hyper)
    (size : Z) (top btm child mut : float) (kg : bool) (rs : option Z)
    (pr : Process hyper) (nTop nBtm nChild nMut : Z) (g : RandomState)
  : State hyper :=
  mkState
    (mkConfig mk sc size top btm child mut kg rs nTop nBtm nChild nMut)
    [] [] None (proc_objects pr) (proc_allocated pr) g [] [].

(** The model behind [r] holds a fitness equal to [q]. *)
Definition has_fitness s (q : Q) (r : ref) : Prop :=
  match fitness_of s r with
  | Some x => Qeq_bool x q = true
  | None => False
  end.

Global Instance has_fitness_dec s (q : Q) (r : ref) :
  Decision (has_fitness s q r).
Proof. unfold has_fitness. destruct (fitness_of s r); apply _. Defined.

(** [buried s]: no model lies in the graveyard twice, and the models in
    the graveyard exist and are not in the population. *)
Record buried s : Prop := {
  bu_NoDup : NoDup (graveyard s);
  bu_exists : ∀ r, r ∈ graveyard s → r < allocated s;
  bu_gone : ∀ r, r ∈ graveyard s → r ∉ population s
}.

(** [champion s]: the remembered best is at least as fit as every score
    that the evaluator has returned; as long as nothing is remembered,
    nothing has been scored. *)
Definition champion s : Prop :=
  match bestModel s with
  | None => scoreCalls s = []
  | Some b =>
      ∃ x, fitness_of s b = Some x ∧
           ∀ r q, (r, q) ∈ scoreCalls s → (q <= x)%Q
  end.

End Predicates.

(** * Proofs *)

(** ** The error monad *)

Lemma bind_Ok {A B} (m : result A) (f : A → result B) (b : B) :
  m ≫= f = Ok b ↔ ∃ a, m = Ok a ∧ f a = Ok b.
Proof.
  destruct m as [a|e]; simpl; split.
  - intros H. by exists a.
  - by intros (a' & [= ->] & H).
  - done.
  - by intros (a' & ? & _).
Qed.

Lemma bind_Raise {A B} (m : result A) (f : A → result B) (e : exn) :
  m ≫= f = Raise e ↔ m = Raise e ∨ ∃ a, m = Ok a ∧ f a = Raise e.
Proof.
  destruct m as [a|e']; simpl; split.
  - intros H. right. by exists a.
  - intros [?|(a' & [= ->] & H)]; done.
  - intros [= ->]. by left.
  - intros [[= ->]|(a' & ? & _)]; done.
Qed.

(** Splits a hypothesis [m ≫= f = Ok b] into its two steps. *)
Ltac inv_bind H :=
  let a := fresh "a" in
  let Ha := fresh "Hstep" in
  apply bind_Ok in H as (a & Ha & H).

(** ** Floats *)

Lemma SFcompare_antisym (x y : float) :
  SFcompare y x = CompOpp <$> SFcompare x y.
Proof.
  destruct x as [sx|sx| |sx mx ex], y as [sy|sy| |sy my ey];
    try done; try (by destruct sx); try (by destruct sy);
    try (by destruct sx, sy).
  unfold SFcompare. destruct sx, sy; simpl; try done.
  - rewrite (Z.compare_antisym ex ey).
    destruct (ex ?= ey)%Z; simpl; [|done..].
    f_equal. f_equal. apply Pos.compare_antisym.
  - rewrite (Z.compare_antisym ex ey).
    destruct (ex ?= ey)%Z; simpl; [|done..].
    f_equal. apply Pos.compare_antisym.
Qed.

(** Between numbers, [x <= y] fails exactly when [y < x]. *)
Lemma fle_flt (x y : float) :
  x ≠ S754_nan → y ≠ S754_nan → fle x y = negb (flt y x).
Proof.
  intros Hx Hy. unfold fle, flt, SFleb, SFltb.
  rewrite (SFcompare_antisym x y).
  assert (∃ c, SFcompare x y = Some c) as [c ->].
  { destruct x as [sx|sx| |sx mx ex], y as [sy|sy| |sy my ey];
      try done; by eexists. }
  by destruct c.
Qed.

Lemma shr_1_nonneg (mrs : shr_record) :
  (0 ≤ shr_m mrs)%Z → (0 ≤ shr_m (shr_1 mrs))%Z.
Proof.
  destruct mrs as [m r t]. simpl. intros Hm.
  destruct m as [|[p|p|]|p]; simpl; lia.
Qed.

Lemma iter_pos_shr_1_nonneg (p : positive) (mrs : shr_record) :
  (0 ≤ shr_m mrs)%Z → (0 ≤ shr_m (SpecFloat.iter_pos shr_1 p mrs))%Z.
Proof.
  revert mrs. induction p as [p IH|p IH|]; intros mrs Hm; simpl.
  - by apply IH, IH, shr_1_nonneg.
  - by apply IH, IH.
  - by apply shr_1_nonneg.
Qed.

Lemma shr_fexp_nonneg (m e : Z) (l : location) :
  (0 ≤ m)%Z → (0 ≤ shr_m (shr_fexp 53 1024 m e l).1)%Z.
Proof.
  intros Hm. unfold shr_fexp, shr.
  assert (0 ≤ shr_m (shr_record_of_loc m l))%Z as Hrec
    by (by destruct l as [|[]]).
  destruct (_ - e)%Z; simpl; [done| |done].
  by apply iter_pos_shr_1_nonneg.
Qed.

Lemma binary_round_aux_not_nan (sign : bool) (m e : Z) (l : location) :
  (0 ≤ m)%Z → binary_round_aux 53 1024 sign m e l ≠ S754_nan.
Proof.
  intros Hm. unfold binary_round_aux.
  pose proof (shr_fexp_nonneg m e l Hm) as H1.
  destruct (shr_fexp 53 1024 m e l) as [mrs1 e1]. simpl in H1.
  assert (0 ≤ round_nearest_even (shr_m mrs1) (loc_of_shr_record mrs1))%Z
    as Hr.
  { unfold round_nearest_even.
    destruct (loc_of_shr_record mrs1) as [|[]]; try done;
      [destruct (Z.even _)|]; lia. }
  pose proof (shr_fexp_nonneg _ e1 loc_Exact Hr) as H2.
  destruct (shr_fexp 53 1024 _ e1 loc_Exact) as [mrs2 e2]. simpl in H2.
  destruct (shr_m mrs2); [done| |lia].
  by destruct (_ <=? _)%Z.
Qed.

(** The sum of something that is not NaN and a number is not NaN. *)
Lemma fadd_not_nan (x y : float) :
  x ≠ S754_nan → finite y → fadd x y ≠ S754_nan.
Proof.
  intros Hx Hy.
  destruct x as [sx|sx| |sx mx ex], y as [sy|sy| |sy my ey];
    try done; try (by destruct sx, sy).
  unfold fadd, SFadd, binary_normalize.
  destruct (_ + _)%Z as [|m|m]; [done|..];
    unfold binary_round; destruct (shl_align _ _ _);
    by apply binary_round_aux_not_nan.
Qed.

Lemma int_floor_Raise (x : float) e :
  int_floor x = Raise e → e = OverflowError ∨ e = ValueError.
Proof. destruct x; simpl; intros [= <-]; auto. Qed.

Lemma int_floor_is_Ok (x : float) : is_Ok (int_floor x) ↔ finite x.
Proof.
  destruct x; simpl; split; try done; try (by eexists); by intros [? ?].
Qed.

(** ** Drawing without replacement *)

Lemma randint_lt (n : nat) (g : RandomState) : n ≠ 0 → (randint n g).1 < n.
Proof. intros Hn. simpl. by apply Nat.mod_upper_bound. Qed.

Lemma sample_submseteq {A} (k : nat) (a : list A) (g : RandomState) :
  (sample k a g).1 ⊆+ a.
Proof.
  revert a g. induction k as [|k IH]; intros a g; simpl.
  - apply submseteq_nil_l.
  - destruct (a !! _) as [x|] eqn:Hx; simpl.
    + specialize (IH (delete (draws g (cursor g) `mod` length a) a)
                     (mkRandomState (draws g) (S (cursor g)))).
      destruct (sample k _ _) as [xs g2]; simpl in *.
      apply (submseteq_skip x) in IH.
      by rewrite <- (delete_Permutation a _ x Hx) in IH.
    + apply submseteq_nil_l.
Qed.

Lemma sample_length {A} (k : nat) (a : list A) (g : RandomState) :
  k ≤ length a → length (sample k a g).1 = k.
Proof.
  revert a g. induction k as [|k IH]; intros a g Hk; simpl; [done|].
  destruct (a !! _) as [x|] eqn:Hx; simpl.
  - specialize (IH (delete (draws g (cursor g) `mod` length a) a)
                   (mkRandomState (draws g) (S (cursor g)))).
    destruct (sample k _ _) as [xs g2]; simpl in *.
    f_equal. apply IH. rewrite length_delete; [lia|by eexists].
  - apply lookup_ge_None in Hx.
    pose proof (Nat.mod_upper_bound (draws g (cursor g)) (length a)). lia.
Qed.

Lemma choice_Ok {A} (a : list A) (size : Z) (g : RandomState) l g' :
  choice a size g = Ok (l, g') →
  (0 ≤ size)%Z ∧ length l = Z.to_nat size ∧ l ⊆+ a.
Proof.
  unfold choice. repeat case_bool_decide; try done.
  intros [= Hs]. split; [lia|].
  pose proof (sample_length (Z.to_nat size) a g) as Hlen.
  pose proof (sample_submseteq (Z.to_nat size) a g) as Hsub.
  rewrite Hs in Hlen, Hsub. simpl in *. split; [|done]. apply Hlen. lia.
Qed.

Lemma choice_is_Ok {A} (a : list A) (size : Z) (g : RandomState) :
  (0 ≤ size ≤ Z.of_nat (length a))%Z → is_Ok (choice a size g).
Proof.
  intros Hs. unfold choice.
  rewrite bool_decide_eq_false_2 by lia.
  rewrite bool_decide_eq_false_2 by lia.
  rewrite bool_decide_eq_false_2 by lia.
  destruct (sample _ _ _) as [l g'] eqn:E. by exists (l, g').
Qed.

Lemma choice_Raise {A} (a : list A) (size : Z) (g : RandomState) :
  ¬ (0 ≤ size ≤ Z.of_nat (length a))%Z → choice a size g = Raise ValueError.
Proof.
  intros Hs. unfold choice. repeat case_bool_decide; try done. lia.
Qed.

Lemma choice_one_Ok {A} (a : list A) (g : RandomState) x g' :
  choice_one a g = Ok (x, g') →
  a !! (randint (length a) g).1 = Some x ∧ g' = (randint (length a) g).2.
Proof.
  unfold choice_one. simpl. destruct (a !! _) eqn:E; [|done].
  by intros [= -> <-].
Qed.

Lemma choice_one_is_Ok {A} (a : list A) (g : RandomState) :
  a ≠ [] → is_Ok (choice_one a g).
Proof.
  intros Ha. unfold choice_one. simpl.
  destruct (a !! _) as [x|] eqn:E; [by eexists|].
  apply lookup_ge_None in E.
  pose proof (Nat.mod_upper_bound (draws g (cursor g)) (length a)).
  destruct a; simpl in *; [done|lia].
Qed.

Lemma choice_one_nil {A} (g : RandomState) :
  choice_one (@nil A) g = Raise ValueError.
Proof. done. Qed.

(** A sample reads the stream from the cursor on only. *)
Lemma sample_ext {A} (k : nat) (a : list A) (g g' : RandomState) :
  cursor g = cursor g' → (∀ c, cursor g ≤ c → draws g c = draws g' c) →
  (sample k a g).1 = (sample k a g').1.
Proof.
  revert a g g'. induction k as [|k IH]; intros a g g' Hc Hd; simpl; [done|].
  rewrite <- Hc, <- (Hd (cursor g)) by done.
  destruct (a !! _) as [x|]; [|done].
  specialize (IH (delete (draws g (cursor g) `mod` length a) a)
                 (mkRandomState (draws g) (S (cursor g)))
                 (mkRandomState (draws g') (S (cursor g)))).
  destruct (sample k _ (mkRandomState (draws g) _)) as [xs g2].
  destruct (sample k _ (mkRandomState (draws g') _)) as [xs' g2'].
  simpl in *. f_equal. apply IH; [done|]. intros c Hle. apply Hd. lia.
Qed.

(** Every selection without replacement, in every order, is the outcome
    of some stream of draws: the model of the generator leaves no outcome
    of [np.random.choice] out. *)
Lemma sample_complete {A} (l a : list A) (c : nat) :
  l ⊆+ a → ∃ d, (sample (length l) a (mkRandomState d c)).1 = l.
Proof.
  revert a c. induction l as [|x l IH]; intros a c Hsub.
  - by exists (λ _, 0).
  - apply submseteq_cons_l in Hsub as (k' & Ha & Hl).
    assert (x ∈ a) as [i Hi]%list_elem_of_lookup by (rewrite Ha; left).
    assert (l ⊆+ delete i a) as Hl'.
    { rewrite (delete_Permutation a i x Hi) in Ha.
      apply Permutation_cons_inv in Ha. by rewrite Ha. }
    destruct (IH (delete i a) (S c) Hl') as [d' Hd'].
    exists (λ n, if decide (n = c) then i else d' n). simpl.
    rewrite decide_True by done.
    rewrite Nat.mod_small by by eapply lookup_lt_Some.
    rewrite Hi.
    pose proof (sample_ext (length l) (delete i a)
                  (mkRandomState
                     (λ n, if decide (n = c) then i else d' n) (S c))
                  (mkRandomState d' (S c))) as Hext.
    destruct (sample (length l) _ (mkRandomState (λ n, _) _)) as [xs g2].
    simpl in *. f_equal. rewrite Hext; [done|done|].
    intros n Hn. by rewrite decide_False by lia.
Qed.

Lemma choice_complete {A} (l a : list A) (c : nat) :
  l ⊆+ a →
  ∃ d g', choice a (Z.of_nat (length l)) (mkRandomState d c) = Ok (l, g').
Proof.
  intros Hsub. destruct (sample_complete l a c Hsub) as [d Hd].
  exists d. unfold choice.
  pose proof (submseteq_length _ _ Hsub) as Hlen.
  rewrite bool_decide_eq_false_2 by lia.
  rewrite bool_decide_eq_false_2 by lia.
  rewrite bool_decide_eq_false_2 by lia.
  rewrite Nat2Z.id. destruct (sample _ _ _) as [l' g']. simpl in Hd.
  subst l'. by exists g'.
Qed.

(** ** Sorting *)

Lemma insert_desc_Permutation {A} (x : Q * A) (l : list (Q * A)) :
  insert_desc x l ≡ₚ x :: l.
Proof.
  induction l as [|y l IH]; simpl; [done|].
  destruct (Qle_bool _ _); [done|].
  rewrite IH. apply Permutation_swap.
Qed.

Lemma sort_desc_Permutation {A} (l : list (Q * A)) : sort_desc l ≡ₚ l.
Proof.
  induction l as [|x l IH]; simpl; [done|].
  by rewrite insert_desc_Permutation, IH.
Qed.

Lemma descending_cons {A} (x : Q * A) (l : list (Q * A)) :
  descending (x :: l) ↔ (∀ y, y ∈ l → (y.1 <= x.1)%Q) ∧ descending l.
Proof.
  split.
  - intros H. split.
    + intros y [j Hj]%list_elem_of_lookup.
      apply (H 0 (S j) x y); [lia|done|done].
    + intros i j a b Hij Ha Hb. apply (H (S i) (S j) a b); [lia|done|done].
  - intros [Hx Hl] [|i] [|j] a b Hij Ha Hb; simpl in *; try lia.
    + injection Ha as <-. apply Hx. by eapply list_elem_of_lookup_2.
    + apply (Hl i j a b); [lia|done|done].
Qed.

Lemma insert_desc_descending {A} (x : Q * A) (l : list (Q * A)) :
  descending l → descending (insert_desc x l).
Proof.
  induction l as [|y l IH]; intros Hl; simpl.
  - apply descending_cons. split; [by intros ? ?%elem_of_nil|].
    intros i j a b _ Ha. by rewrite lookup_nil in Ha.
  - apply descending_cons in Hl as [Hy Hl].
    destruct (Qle_bool _ _) eqn:E.
    + apply Qle_bool_iff in E.
      apply descending_cons. split.
      * intros z [->|Hz]%elem_of_cons; [done|].
        eapply Qle_trans; [by apply Hy|done].
      * by apply descending_cons.
    + assert (x.1 < y.1)%Q as Hlt.
      { apply Qnot_le_lt. intros Hle. apply Qle_bool_iff in Hle. congruence. }
      apply descending_cons. split; [|by apply IH].
      intros z Hz. rewrite insert_desc_Permutation in Hz.
      apply elem_of_cons in Hz as [->|Hz]; [by apply Qlt_le_weak|by apply Hy].
Qed.

Lemma sort_desc_descending {A} (l : list (Q * A)) : descending (sort_desc l).
Proof.
  induction l as [|x l IH]; simpl.
  - intros i j a b _ Ha. by rewrite lookup_nil in Ha.
  - by apply insert_desc_descending.
Qed.

(** The sort is stable: records with equal keys stay in their order. *)
Lemma insert_desc_stable {A} (q : Q) (x : Q * A) (l : list (Q * A)) :
  filter (same_key q) (insert_desc x l) = filter (same_key q) (x :: l).
Proof.
  induction l as [|y l IH]; simpl; [done|].
  destruct (Qle_bool y.1 x.1) eqn:E; [done|].
  rewrite !filter_cons in *. rewrite IH.
  destruct (decide (same_key q x)) as [Hx|Hx]; [|done].
  destruct (decide (same_key q y)) as [Hy|Hy]; [|done].
  exfalso. unfold same_key in *. apply Qeq_bool_iff in Hx, Hy.
  assert (Qle_bool y.1 x.1 = true); [|congruence].
  apply Qle_bool_iff. rewrite Hx, Hy. apply Qle_refl.
Qed.

Lemma sort_desc_stable {A} (q : Q) (l : list (Q * A)) :
  filter (same_key q) (sort_desc l) = filter (same_key q) l.
Proof.
  induction l as [|x l IH]; simpl; [done|].
  rewrite insert_desc_stable, !filter_cons. by rewrite IH.
Qed.

(** ** The models at given indices *)

Lemma models_at_all_aux (q p : list ref) :
  models_at (q ++ p) (seq (length q) (length p)) = p.
Proof.
  revert q. induction p as [|x p IH]; intros q; simpl; [done|].
  unfold models_at. simpl.
  rewrite lookup_app_r by lia. rewrite Nat.sub_diag. simpl. f_equal.
  specialize (IH (q ++ [x])). rewrite <- app_assoc in IH. simpl in IH.
  rewrite length_app in IH. simpl in IH.
  by rewrite Nat.add_1_r in IH.
Qed.

Lemma models_at_all (p : list ref) : models_at p (seq 0 (length p)) = p.
Proof. apply (models_at_all_aux [] p). Qed.

Lemma models_at_Forall2 (p : list ref) (inds : list nat) (ms : list ref) :
  Forall2 (λ i m, p !! i = Some m) inds ms → models_at p inds = ms.
Proof.
  induction 1 as [|i m inds ms Hi _ IH]; [done|].
  unfold models_at in *. simpl. rewrite Hi. simpl. by f_equal.
Qed.

Lemma models_at_length (p : list ref) (inds : list nat) :
  (∀ i, i ∈ inds → i < length p) →
  length (models_at p inds) = length inds.
Proof.
  induction inds as [|i inds IH]; intros Hlt; [done|].
  unfold models_at in *. simpl.
  destruct (lookup_lt_is_Some_2 p i) as [m Hm]; [apply Hlt; left|].
  rewrite Hm. simpl. f_equal. apply IH. intros j Hj. apply Hlt. by right.
Qed.

Lemma elem_of_models_at (p : list ref) (inds : list nat) m :
  m ∈ models_at p inds ↔ ∃ i, i ∈ inds ∧ p !! i = Some m.
Proof. unfold models_at. by rewrite list_elem_of_omap. Qed.

(** Among distinct models, to filter out the models at some indices is
    to take the models at the other indices. *)
Lemma filter_models_at (p : list ref) (inds l : list nat) :
  NoDup p →
  filter (λ m, m ∉ models_at p inds) (models_at p l)
    = models_at p (filter (λ i, i ∉ inds) l).
Proof.
  intros Hnd. induction l as [|i l IH]; [done|].
  unfold models_at in *. simpl. rewrite filter_cons.
  destruct (p !! i) as [m|] eqn:Hm; simpl.
  - assert (m ∈ omap (λ i, p !! i) inds ↔ i ∈ inds) as Hiff.
    { rewrite list_elem_of_omap. split.
      - intros (j & Hj & Hjm).
        by rewrite (NoDup_lookup _ _ _ _ Hnd Hm Hjm).
      - intros Hi. by exists i. }
    rewrite filter_cons.
    destruct (decide (i ∉ inds)) as [Hi|Hi];
      destruct (decide (m ∉ omap (λ i, p !! i) inds)) as [Hn|Hn];
      simpl; rewrite ?Hm; simpl; try (by f_equal); tauto.
  - destruct (decide (i ∉ inds)); simpl; rewrite ?Hm; done.
Qed.

(** ** The object store *)

Section Proofs.

Context {hyper : Type}.
Implicit Types s : State hyper.

Lemma store_eq (r : ref) (m : Model hyper) h : store r m h r = m.
Proof. unfold store. by rewrite decide_True. Qed.

Lemma store_ne (r r' : ref) (m : Model hyper) h :
  r' ≠ r → store r m h r' = h r'.
Proof. intros. unfold store. by rewrite decide_False. Qed.

Lemma allocates_refl s : allocates 0 s s.
Proof. split; try done; intros; lia. Qed.

Lemma allocates_trans n m s s1 s2 :
  allocates n s s1 → allocates m s1 s2 → allocates (n + m) s s2.
Proof.
  intros [] []. split; try congruence.
  - lia.
  - intros r Hr. rewrite <- al_old0 by done. apply al_old1. lia.
  - intros r Hr. destruct (decide (r < allocated s + n)) as [Hlt|Hge].
    + unfold fitness_of. rewrite al_old1 by lia. apply al_new0. lia.
    + apply al_new1. lia.
Qed.

Lemma allocates_set_population n s s' p :
  allocates n s s' → allocates n s (set_population p s').
Proof. intros []. by split. Qed.

Lemma make_random_spec s r s' :
  make_random s = (r, s') →
  r = allocated s ∧ population s' = population s ∧ allocates 1 s s'.
Proof.
  unfold make_random, new_object.
  destruct (makeRandomModel _ _) as [h g]. intros [= <- <-].
  split; [done|]. split; [done|]. split; simpl; try done.
  - lia.
  - intros r Hr. apply store_ne. lia.
  - intros r Hr. assert (r = allocated s) as -> by lia.
    unfold fitness_of. simpl. by rewrite store_eq.
Qed.

Lemma random_models_spec n s rs s' :
  random_models n s = (rs, s') →
  rs = seq (allocated s) n ∧ population s' = population s ∧
  allocates n s s'.
Proof.
  revert s rs s'. induction n as [|n IH]; intros s rs s'; simpl.
  - intros [= <- <-]. split; [done|]. split; [done|]. apply allocates_refl.
  - destruct (make_random s) as [r s1] eqn:E1.
    destruct (random_models n s1) as [rs' s2] eqn:E2.
    intros [= <- <-].
    apply make_random_spec in E1 as (-> & Hp1 & Ha1).
    apply IH in E2 as (-> & Hp2 & Ha2).
    rewrite (al_allocated _ _ _ Ha1), Nat.add_1_r.
    split; [done|]. split; [congruence|].
    by apply (allocates_trans 1 n s s1 s2).
Qed.

(** ** [_makeRemainingRandomModels] *)

Lemma refill_spec n s :
  deficit s ≤ n →
  population (refill n s) = population s ++ seq (allocated s) (deficit s) ∧
  allocates (deficit s) s (refill n s).
Proof.
  revert s. induction n as [|n IH]; intros s Hn; simpl.
  - assert (deficit s = 0) as -> by lia. simpl.
    rewrite app_nil_r. split; [done|]. apply allocates_refl.
  - case_bool_decide as Hlt.
    + destruct (make_random s) as [r s1] eqn:E1.
      apply make_random_spec in E1 as (-> & Hp1 & Ha1).
      match goal with
      | |- context [refill n ?x] => remember x as s2 eqn:Es2
      end.
      assert (deficit s = S (deficit s2)) as Hd.
      { unfold deficit. subst s2. simpl.
        rewrite (al_conf _ _ _ Ha1), Hp1, length_app. simpl. lia. }
      destruct (IH s2) as [Hp2 Ha2]; [lia|].
      rewrite Hp2, Hd. split.
      * subst s2. simpl.
        rewrite Hp1, (al_allocated _ _ _ Ha1), Nat.add_1_r.
        by rewrite <- app_assoc.
      * apply (allocates_trans 1 (deficit s2) s s2); [|done].
        subst s2. by apply allocates_set_population.
    + assert (deficit s = 0) as -> by (unfold deficit; lia). simpl.
      rewrite app_nil_r. split; [done|]. apply allocates_refl.
Qed.

Lemma _makeRemainingRandomModels_spec s :
  population (_makeRemainingRandomModels s)
    = population s ++ seq (allocated s) (deficit s) ∧
  allocates (deficit s) s (_makeRemainingRandomModels s).
Proof. by apply refill_spec. Qed.

(** The function is the [while] loop of the source: it satisfies the
    loop's unfolding. *)
Lemma _makeRemainingRandomModels_unfold s :
  _makeRemainingRandomModels s =
    if bool_decide (Z.of_nat (length (population s)) < popSize (conf s))%Z
    then
      let '(r, s1) := make_random s in
      _makeRemainingRandomModels (set_population (population s1 ++ [r]) s1)
    else s.
Proof.
  unfold _makeRemainingRandomModels.
  case_bool_decide as Hlt.
  - destruct (Z.to_nat _) as [|n] eqn:En; [lia|]. simpl.
    rewrite bool_decide_eq_true_2 by done.
    destruct (make_random s) as [r s1] eqn:E1.
    apply make_random_spec in E1 as (-> & Hp1 & Ha1). simpl.
    rewrite (al_conf _ _ _ Ha1), Hp1, length_app. simpl.
    f_equal. lia.
  - destruct (Z.to_nat _) as [|n] eqn:En; [done|lia].
Qed.

Lemma _makeRemainingRandomModels_length s :
  Z.of_nat (length (population (_makeRemainingRandomModels s)))
    = Z.max (Z.of_nat (length (population s))) (popSize (conf s)).
Proof.
  destruct (_makeRemainingRandomModels_spec s) as [-> _].
  rewrite length_app, length_seq. unfold deficit. lia.
Qed.

(** ** [_scoreModelsInPop] *)

Lemma scores_nil s : scores [] s s.
Proof.
  split; try done.
  - by rewrite app_nil_r.
  - constructor.
  - by intros r q ?%elem_of_nil.
Qed.

Lemma scores_trans l1 l2 s s1 s2 :
  scores l1 s s1 → scores l2 s1 s2 → scores (l1 ++ l2) s s2.
Proof.
  intros H1 H2.
  assert (∀ r, r ∈ l2.*1 → r ∉ l1.*1) as Hdisj.
  { intros r [[r' q2] [-> Hq2]]%list_elem_of_fmap
             [[r'' q1] [Heq Hq1]]%list_elem_of_fmap.
    simpl in Heq. subst r''.
    destruct (sc_stored _ _ _ H2 _ _ Hq2) as [Hnone _].
    destruct (sc_stored _ _ _ H1 _ _ Hq1) as (_ & Hsome & _).
    congruence. }
  destruct H1, H2. split; try congruence.
  - by rewrite sc_calls1, sc_calls0, app_assoc.
  - rewrite fmap_app. apply NoDup_app. split; [done|]. split; [|done].
    intros r Hr1 Hr2. by apply (Hdisj r).
  - intros r q [Hq|Hq]%elem_of_app.
    + destruct (sc_stored0 _ _ Hq) as (Hn & Hs & Hg).
      split; [done|]. split; [|done].
      rewrite sc_kept1; [done|].
      intros Hr. apply (Hdisj r Hr).
      by apply (list_elem_of_fmap_2 fst _ (r, q)).
    + destruct (sc_stored1 _ _ Hq) as (Hn & Hs & g & Hg).
      assert (r ∉ l1.*1) as Hr.
      { apply Hdisj. by apply (list_elem_of_fmap_2 fst _ (r, q)). }
      split; [by rewrite <- sc_kept0|]. split; [done|].
      exists g. by rewrite <- sc_conf0, <- sc_hyper0.
  - intros r Hr. rewrite fmap_app, not_elem_of_app in Hr.
    destruct Hr as [Hr1 Hr2]. by rewrite sc_kept1, sc_kept0.
Qed.

Lemma score_at_spec r s :
  match fitness_of s r with
  | Some _ => score_at r s = s
  | None => ∃ q, scores [(r, q)] s (score_at r s)
  end.
Proof.
  unfold score_at. destruct (fitness_of s r) as [q|] eqn:Hf; [done|].
  destruct (scoreModel _ _ _) as [q g] eqn:Hq. exists q.
  split; try done; simpl.
  - intros r'. unfold store. by case_decide; subst.
  - apply NoDup_singleton.
  - intros r' q' [= -> ->]%list_elem_of_singleton.
    split; [done|]. split.
    + unfold fitness_of. simpl. by rewrite store_eq.
    + exists (np_random s). by rewrite Hq.
  - intros r' Hr'. rewrite list_elem_of_singleton in Hr'.
    unfold fitness_of. simpl. by rewrite store_ne.
Qed.

Lemma score_all_spec (rs : list ref) s :
  ∃ l, scores l s (foldl (λ s' r, score_at r s') s rs) ∧
       (∀ r, r ∈ l.*1 ↔ r ∈ rs ∧ fitness_of s r = None) ∧
       (∀ r, r ∈ rs →
             is_Some (fitness_of (foldl (λ s' r, score_at r s') s rs) r)).
Proof.
  revert s. induction rs as [|r rs IH]; intros s; simpl.
  - exists []. split; [apply scores_nil|]. split.
    + intros r. simpl. split; [by intros ?%elem_of_nil|].
      by intros [?%elem_of_nil _].
    + by intros r ?%elem_of_nil.
  - destruct (IH (score_at r s)) as (l & Hl & Hmem & Hset).
    pose proof (score_at_spec r s) as Hr.
    destruct (fitness_of s r) as [q0|] eqn:Hf.
    + rewrite Hr in *. exists l. split; [done|]. split.
      * intros r'. rewrite Hmem, elem_of_cons.
        split; [by intros [? ?]; split; [right|]|].
        intros [[->|?] ?]; [congruence|done].
      * intros r' [->|Hr']%elem_of_cons; [|by apply Hset].
        destruct (decide (r ∈ l.*1)) as [Hin|Hnin].
        -- apply Hmem in Hin as [_ ?]. congruence.
        -- rewrite (sc_kept _ _ _ Hl) by done. by rewrite Hf.
    + destruct Hr as [q Hq]. exists ((r, q) :: l). split.
      * by apply (scores_trans [(r, q)] l s (score_at r s)).
      * destruct (sc_stored _ _ _ Hq r q) as (_ & Hsome & _);
          [by apply list_elem_of_singleton|].
        split.
        -- intros r'. simpl. rewrite elem_of_cons, Hmem, elem_of_cons.
           split.
           ++ intros [->|[Hin Hn]]; [by split; [left|]|].
              split; [by right|].
              rewrite <- (sc_kept _ _ _ Hq); [done|].
              simpl. rewrite list_elem_of_singleton. congruence.
           ++ intros [[->|Hin] Hn]; [by left|].
              destruct (decide (r' = r)) as [->|Hne]; [by left|].
              right. split; [done|].
              rewrite (sc_kept _ _ _ Hq); [done|].
              simpl. by rewrite list_elem_of_singleton.
        -- intros r' [->|Hr']%elem_of_cons; [|by apply Hset].
           destruct (decide (r ∈ l.*1)) as [Hin|Hnin].
           ++ apply Hmem in Hin as [_ ?]. congruence.
           ++ rewrite (sc_kept _ _ _ Hl) by done. by rewrite Hsome.
Qed.

Lemma _scoreModelsInPop_spec s :
  ∃ l, scores l s (_scoreModelsInPop s) ∧
       (∀ r, r ∈ l.*1 ↔ r ∈ population s ∧ fitness_of s r = None) ∧
       (∀ r, r ∈ population s →
             is_Some (fitness_of (_scoreModelsInPop s) r)).
Proof. apply score_all_spec. Qed.

(** ** [_sortPopByFitness] and [_getBestModel] *)

Lemma keyed_Some s ks :
  keyed s = Some ks →
  ks.*2 = population s ∧ ∀ q r, (q, r) ∈ ks → fitness_of s r = Some q.
Proof.
  unfold keyed. intros H%mapM_Some_1.
  induction H as [|r [q r'] rs ks' Hr _ [IH1 IH2]]; simpl.
  - split; [done|]. by intros q r ?%elem_of_nil.
  - destruct (fitness_of s r) as [q0|] eqn:Hf; [|done].
    injection Hr as <- <-. split; [by f_equal|].
    intros q r' [[= -> ->]|Hin]%elem_of_cons; [done|by apply IH2].
Qed.

Lemma keyed_is_Some s :
  (∀ r, r ∈ population s → is_Some (fitness_of s r)) → is_Some (keyed s).
Proof.
  intros H. apply mapM_is_Some_2, Forall_forall. intros r Hr. simpl.
  destruct (H r Hr) as [q ->]. by eexists.
Qed.

Lemma _sortPopByFitness_Ok s s' :
  _sortPopByFitness s = Ok s' →
  ∃ p, s' = set_population p s ∧ p ≡ₚ population s.
Proof.
  unfold _sortPopByFitness. destruct (keyed s) as [ks|] eqn:Hk.
  - intros [= <-]. eexists. split; [done|].
    apply keyed_Some in Hk as [<- _].
    by rewrite sort_desc_Permutation.
  - case_bool_decide; [|done]. intros [= <-].
    exists (population s). by destruct s.
Qed.

Lemma _sortPopByFitness_is_Ok s :
  (∀ r, r ∈ population s → is_Some (fitness_of s r)) →
  is_Ok (_sortPopByFitness s).
Proof.
  intros [ks Hk]%keyed_is_Some. unfold _sortPopByFitness. rewrite Hk.
  by eexists.
Qed.

(** After the sort the fitness values descend along the population. *)
Lemma _sortPopByFitness_descending s s' i j a b x y :
  _sortPopByFitness s = Ok s' → i < j →
  population s' !! i = Some a → population s' !! j = Some b →
  fitness_of s' a = Some x → fitness_of s' b = Some y → (y <= x)%Q.
Proof.
  unfold _sortPopByFitness. destruct (keyed s) as [ks|] eqn:Hk.
  - intros [= <-] Hij. simpl. unfold fitness_of. simpl.
    apply keyed_Some in Hk as [_ Hk].
    intros ([qa a'] & -> & Ha)%list_lookup_fmap_Some.
    intros ([qb b'] & -> & Hb)%list_lookup_fmap_Some. simpl.
    intros Hx Hy.
    assert (fitness_of s a' = Some qa) as Hqa.
    { apply Hk. rewrite <- (sort_desc_Permutation ks).
      by eapply list_elem_of_lookup_2. }
    assert (fitness_of s b' = Some qb) as Hqb.
    { apply Hk. rewrite <- (sort_desc_Permutation ks).
      by eapply list_elem_of_lookup_2. }
    unfold fitness_of in Hqa, Hqb.
    assert (x = qa) as -> by congruence.
    assert (y = qb) as -> by congruence.
    apply (sort_desc_descending ks i j (qa, a') (qb, b') Hij Ha Hb).
  - case_bool_decide as Hlen; [|done]. intros [= <-] Hij Ha Hb.
    apply lookup_lt_Some in Hb. lia.
Qed.

Lemma _getBestModel_Ok s b s' :
  _getBestModel s = Ok (b, s') →
  _sortPopByFitness s = Ok s' ∧ population s' !! 0 = Some b.
Proof.
  unfold _getBestModel. intros H. inv_bind H.
  destruct (population a) as [|b' p] eqn:Hp; [done|].
  injection H as -> ->. by rewrite Hp.
Qed.

(** The model returned by [_getBestModel] is one of the fittest. *)
Lemma _getBestModel_fittest s b s' r x y :
  _getBestModel s = Ok (b, s') → r ∈ population s →
  fitness_of s b = Some x → fitness_of s r = Some y → (y <= x)%Q.
Proof.
  intros Hbest Hr Hx Hy.
  apply _getBestModel_Ok in Hbest as [Hsort Hb].
  destruct (_sortPopByFitness_Ok _ _ Hsort) as (p & -> & Hp).
  simpl in Hb. rewrite <- Hp in Hr.
  apply list_elem_of_lookup in Hr as [j Hj].
  destruct j as [|j].
  - assert (r = b) as -> by congruence.
    assert (x = y) as -> by congruence. apply Qle_refl.
  - apply (_sortPopByFitness_descending s (set_population p s)
             0 (S j) b r x y); [done|lia|done..].
Qed.

(** ** [_killUnfit] *)

Lemma submseteq_NoDup {A} (l k : list A) : l ⊆+ k → NoDup k → NoDup l.
Proof.
  intros (l' & Hl & Hsub)%submseteq_sublist_r Hk. rewrite Hl.
  by eapply sublist_NoDup.
Qed.

Lemma index_all_Ok (pop : list ref) (inds : list nat) (ms : list ref) :
  index_all pop inds = Ok ms ↔ Forall2 (λ i m, pop !! i = Some m) inds ms.
Proof.
  unfold index_all. rewrite <- mapM_Some.
  destruct (mapM _ inds); split; intros; simplify_eq; done.
Qed.

Lemma index_all_Raise (pop : list ref) (inds : list nat) e :
  index_all pop inds = Raise e →
  e = IndexError ∧ ∃ i, i ∈ inds ∧ length pop ≤ i.
Proof.
  unfold index_all. destruct (mapM _ inds) eqn:E; [done|].
  intros [= <-]. split; [done|].
  destruct (decide (Forall (λ i, i < length pop) inds)) as [Hall|Hex].
  - assert (is_Some (mapM (λ i, pop !! i) inds)) as [? ?]; [|congruence].
    apply mapM_is_Some_2, Forall_forall. intros i Hi. simpl.
    rewrite Forall_forall in Hall. by apply lookup_lt_is_Some, Hall.
  - apply not_Forall_Exists in Hex; [|apply _].
    apply Exists_exists in Hex as (i & Hi & Hge). exists i.
    simpl in Hge. split; [done|lia].
Qed.

Lemma lookups_NoDup (pop : list ref) (inds : list nat) (ms : list ref) :
  NoDup pop → NoDup inds →
  Forall2 (λ i m, pop !! i = Some m) inds ms → NoDup ms.
Proof.
  intros Hpop Hinds H. induction H as [|i m inds ms Him H IH].
  - constructor.
  - apply NoDup_cons in Hinds as [Hi Hinds].
    apply NoDup_cons. split; [|by apply IH].
    intros [k Hk]%list_elem_of_lookup.
    destruct (Forall2_lookup_r _ _ _ _ _ H Hk) as (j & Hj & Hjm).
    assert (i = j) as -> by apply (NoDup_lookup pop i j m Hpop Him Hjm).
    apply Hi. by eapply list_elem_of_lookup_2.
Qed.

Lemma lookups_elem_of (pop : list ref) (inds : list nat) (ms : list ref) :
  Forall2 (λ i m, pop !! i = Some m) inds ms → ∀ m, m ∈ ms → m ∈ pop.
Proof.
  intros H m [k Hk]%list_elem_of_lookup.
  destruct (Forall2_lookup_r _ _ _ _ _ H Hk) as (j & Hj & Hjm).
  by eapply list_elem_of_lookup_2.
Qed.

Lemma elem_of_remaining (top : list nat) (n i : nat) :
  i ∈ filter (λ i, i ∉ top) (seq 0 n) ↔ i < n ∧ i ∉ top.
Proof.
  rewrite list_elem_of_filter, elem_of_seq.
  split; intros []; split; (done || lia).
Qed.

Lemma _killUnfit_Ok s s' :
  _killUnfit s = Ok s' → ∃ btm p, culls (topKeepInds s) btm p s s'.
Proof.
  unfold _killUnfit. intros H.
  inv_bind H. rename a into s1.
  apply _sortPopByFitness_Ok in Hstep as Hs1.
  destruct Hs1 as (p & -> & Hp).
  inv_bind H. rename a into topKeepMods.
  inv_bind H. destruct a as [btmKeepInds g].
  inv_bind H. rename a into btmKeepMods.
  case_bool_decide as Hdisj; [|done].
  apply index_all_Ok in Hstep0, Hstep2. simpl in *.
  exists btmKeepInds, p.
  assert (Forall2 (λ i m, p !! i = Some m)
            (topKeepInds s ++ btmKeepInds) (topKeepMods ++ btmKeepMods))
    as Hkeep by by apply Forall2_app.
  destruct (keepGraveyard (conf s)) eqn:Hg; injection H as <-;
    split; simpl; try done; by rewrite Hg.
Qed.

Section Culls.

Context {top btm : list nat} {p : list ref} {s s' : State hyper}.
Context (H : culls top btm p s s').

Lemma culls_perm : p ≡ₚ population s.
Proof.
  destruct (_sortPopByFitness_Ok _ _ (cu_sorted _ _ _ _ _ H))
    as (p' & Heq & Hp).
  apply (f_equal population) in Heq. simpl in Heq. by subst p'.
Qed.

Lemma culls_top_le : length top ≤ length p.
Proof.
  rewrite (cu_top _ _ _ _ _ H), length_seq.
  destruct (Z.to_nat (keepTopN (conf s))) as [|k] eqn:Hk; [lia|].
  pose proof (cu_keep _ _ _ _ _ H) as Hkeep.
  rewrite (cu_top _ _ _ _ _ H), Hk in Hkeep.
  assert (is_Some ((seq 0 (S k) ++ btm) !! k)) as [i Hi].
  { apply lookup_lt_is_Some. rewrite length_app, length_seq. lia. }
  assert (i = k) as ->.
  { rewrite lookup_app_l in Hi by (rewrite length_seq; lia).
    apply lookup_seq in Hi. lia. }
  destruct (Forall2_lookup_l _ _ _ _ _ Hkeep Hi) as (m & _ & Hm).
  apply lookup_lt_Some in Hm. lia.
Qed.

Lemma culls_btm :
  NoDup btm ∧ Z.of_nat (length btm) = keepBtmN (conf s) ∧
  ∀ i, i ∈ btm → length top ≤ i < length p.
Proof.
  destruct (choice_Ok _ _ _ _ _ (cu_drawn _ _ _ _ _ H))
    as (Hpos & Hlen & Hsub).
  split; [|split].
  - eapply submseteq_NoDup; [done|]. apply NoDup_filter, NoDup_seq.
  - lia.
  - intros i Hi. eapply elem_of_submseteq in Hi; [|done].
    apply elem_of_remaining in Hi as [Hlt Hnot]. split; [|done].
    rewrite (cu_top _ _ _ _ _ H), length_seq.
    rewrite (cu_top _ _ _ _ _ H), elem_of_seq in Hnot. lia.
Qed.

Lemma culls_disjoint i : i ∈ top → i ∉ btm.
Proof.
  intros Htop Hbtm. destruct culls_btm as (_ & _ & Hrange).
  apply Hrange in Hbtm. rewrite (cu_top _ _ _ _ _ H) in Htop, Hbtm.
  rewrite elem_of_seq in Htop. rewrite length_seq in Hbtm. lia.
Qed.

Lemma culls_inds_NoDup : NoDup (top ++ btm).
Proof.
  apply NoDup_app. split; [|split].
  - rewrite (cu_top _ _ _ _ _ H). apply NoDup_seq.
  - apply culls_disjoint.
  - apply culls_btm.
Qed.

Lemma culls_length :
  length (population s') = length top + length btm.
Proof.
  rewrite <- (Forall2_length _ _ _ (cu_keep _ _ _ _ _ H)).
  apply length_app.
Qed.

Lemma culls_elem_of m : m ∈ population s' → m ∈ population s.
Proof.
  intros Hm. rewrite <- culls_perm.
  by eapply lookups_elem_of; [apply (cu_keep _ _ _ _ _ H)|].
Qed.

Lemma culls_NoDup : NoDup (population s) → NoDup (population s').
Proof.
  intros Hs. apply (lookups_NoDup p (top ++ btm)).
  - by rewrite culls_perm.
  - apply culls_inds_NoDup.
  - apply (cu_keep _ _ _ _ _ H).
Qed.

(** Among distinct models, those that are filtered out as unfit are
    as many as the population loses. *)
Lemma culls_removed :
  NoDup (population s) →
  length (filter (λ m, m ∉ population s') p) + length (population s')
    = length (population s).
Proof.
  intros Hs.
  assert (NoDup p) as Hp by by rewrite culls_perm.
  assert (filter (λ m, m ∈ population s') p ≡ₚ population s') as Hin.
  { apply NoDup_Permutation.
    - by apply NoDup_filter.
    - by apply culls_NoDup.
    - intros m. rewrite list_elem_of_filter. split; [by intros []|].
      intros Hm. split; [done|]. rewrite culls_perm.
      by apply culls_elem_of. }
  pose proof (filter_app_complement (λ m, m ∈ population s') p) as Hc.
  apply Permutation_length in Hc, Hin.
  pose proof (Permutation_length culls_perm) as Hlen.
  rewrite length_app in Hc. lia.
Qed.

End Culls.

Lemma remaining_length (k n : nat) :
  k ≤ n → length (filter (λ i, i ∉ seq 0 k) (seq 0 n)) = n - k.
Proof.
  intros Hk.
  assert (filter (λ i, i ∉ seq 0 k) (seq 0 n) ≡ₚ seq k (n - k)) as ->.
  { apply NoDup_Permutation.
    - apply NoDup_filter, NoDup_seq.
    - apply NoDup_seq.
    - intros i. rewrite elem_of_remaining, !elem_of_seq. lia. }
  apply length_seq.
Qed.

(** Whatever is drawn from the complement of [top] has no index in
    common with [top]: the assertion of [_killUnfit] cannot fail. *)
Lemma drawn_disjoint (top : list nat) (n : nat) (size : Z) g btm g' :
  choice (filter (λ i, i ∉ top) (seq 0 n)) size g = Ok (btm, g') →
  length (list_intersection top btm) = 0.
Proof.
  intros (_ & _ & Hsub)%choice_Ok.
  destruct (list_intersection top btm) as [|i l] eqn:E; [done|].
  assert (i ∈ list_intersection top btm) as Hi by (rewrite E; left).
  apply list_elem_of_intersection in Hi as [Htop Hbtm].
  eapply elem_of_submseteq in Hbtm; [|done].
  by apply elem_of_remaining in Hbtm as [_ ?].
Qed.

Lemma _sortPopByFitness_Raise s e :
  _sortPopByFitness s = Raise e → e = TypeError.
Proof.
  unfold _sortPopByFitness. destruct (keyed s); [done|].
  case_bool_decide; [done|]. by intros [= <-].
Qed.

Lemma choice_Raise_inv {A} (a : list A) (size : Z) g e :
  choice a size g = Raise e → e = ValueError.
Proof.
  unfold choice. repeat case_bool_decide; by intros [= <-].
Qed.

Lemma _killUnfit_Raise s e :
  _killUnfit s = Raise e → e = TypeError ∨ e = IndexError ∨ e = ValueError.
Proof.
  unfold _killUnfit. intros H.
  apply bind_Raise in H as [H|(s1 & Hs1 & H)];
    [left; by eapply _sortPopByFitness_Raise|].
  apply bind_Raise in H as [H|(tops & Htops & H)];
    [right; left; by eapply index_all_Raise|].
  apply bind_Raise in H as [H|([btm g] & Hbtm & H)];
    [right; right; by eapply choice_Raise_inv|].
  apply bind_Raise in H as [H|(btms & Hbtms & H)];
    [right; left; by eapply index_all_Raise|].
  apply drawn_disjoint in Hbtm.
  rewrite bool_decide_eq_true_2 in H by done. done.
Qed.

Lemma _killUnfit_is_Ok s :
  (∀ r, r ∈ population s → is_Some (fitness_of s r)) →
  (0 ≤ keepBtmN (conf s))%Z →
  Z.to_nat (keepTopN (conf s)) + Z.to_nat (keepBtmN (conf s))
    ≤ length (population s) →
  is_Ok (_killUnfit s).
Proof.
  intros Hfit Hbtm Hlen.
  destruct (_sortPopByFitness_is_Ok s Hfit) as [s1 Hs1].
  destruct (_sortPopByFitness_Ok _ _ Hs1) as (p & -> & Hp).
  pose proof (Permutation_length Hp) as Hplen.
  unfold _killUnfit. rewrite Hs1. simpl.
  unfold remainingInds, topKeepInds. simpl.
  set (k := Z.to_nat (keepTopN (conf s))) in *.
  assert (∀ inds, (∀ i, i ∈ inds → i < length p) →
                  is_Ok (index_all p inds)) as Hidx.
  { intros inds Hinds. unfold index_all.
    destruct (mapM_is_Some_2 (λ i, p !! i) inds) as [ms ->];
      [|by eexists].
    apply Forall_forall. intros i Hi. simpl.
    by apply lookup_lt_is_Some, Hinds. }
  destruct (Hidx (seq 0 k)) as [tops ->].
  { intros i. rewrite elem_of_seq. lia. }
  simpl.
  destruct (choice_is_Ok (filter (λ i, i ∉ seq 0 k) (seq 0 (length p)))
              (keepBtmN (conf s)) (np_random s)) as [[btm g] Hdraw].
  { rewrite remaining_length by lia. lia. }
  rewrite Hdraw. simpl.
  destruct (Hidx btm) as [btms ->].
  { intros i Hi. apply choice_Ok in Hdraw as (_ & _ & Hsub).
    eapply elem_of_submseteq in Hi; [|done].
    by apply elem_of_remaining in Hi as [? _]. }
  simpl. apply drawn_disjoint in Hdraw.
  rewrite bool_decide_eq_true_2 by done. by eexists.
Qed.

(** ** [_makeChildren] *)

Lemma choice_Raise_iff {A} (a : list A) (size : Z) g e :
  choice a size g = Raise e ↔
  e = ValueError ∧ ¬ (0 ≤ size ≤ Z.of_nat (length a))%Z.
Proof.
  split.
  - intros H. split; [by eapply choice_Raise_inv|].
    intros [l Hl]%(choice_is_Ok a size g). congruence.
  - intros [-> H]. by apply choice_Raise.
Qed.

(** A draw of two from a list gives a pair. *)
Lemma choice_two {A} (a : list A) g l g' :
  choice a 2 g = Ok (l, g') →
  2 ≤ length a ∧ ∃ m f, l = [m; f] ∧ [m; f] ⊆+ a.
Proof.
  intros (_ & Hlen & Hsub)%choice_Ok.
  pose proof (submseteq_length _ _ Hsub) as Hle.
  split; [lia|].
  destruct l as [|m [|f [|? ?]]]; simpl in Hlen; try lia.
  by exists m, f.
Qed.

Lemma new_object_spec (m : Model hyper) s :
  fitness m = None →
  (new_object m s).1 = allocated s ∧
  population (new_object m s).2 = population s ∧
  np_random (new_object m s).2 = np_random s ∧
  objects (new_object m s).2 (allocated s) = m ∧
  allocates 1 s (new_object m s).2.
Proof.
  intros Hm. unfold new_object. simpl.
  split; [done|]. split; [done|]. split; [done|].
  split; [by rewrite store_eq|].
  split; simpl; try done.
  - lia.
  - intros r Hr. apply store_ne. lia.
  - intros r Hr. assert (r = allocated s) as -> by lia.
    unfold fitness_of. simpl. by rewrite store_eq.
Qed.

Lemma allocates_set_np_random n s s' g :
  allocates n (set_np_random g s) s' → allocates n s s'.
Proof. intros []. by split. Qed.

Lemma make_children_Ok n cs s cs' s' :
  make_children n cs s = Ok (cs', s') →
  cs' = cs ++ seq (allocated s) n ∧ population s' = population s ∧
  allocates n s s' ∧ (n ≠ 0 → 2 ≤ length (population s)).
Proof.
  revert cs s. induction n as [|n IH]; intros cs s; simpl.
  - intros [= <- <-]. rewrite app_nil_r.
    split; [done|]. split; [done|]. split; [apply allocates_refl|done].
  - intros H. inv_bind H. destruct a as [parents g].
    apply choice_two in Hstep as (Hlen & m & f & -> & _).
    destruct (makeChildModel _ _ _ _) as [h g'].
    destruct (new_object_spec (mkModel h None) (set_np_random g' s))
      as (_ & _ & _ & _ & Ha); [done|].
    apply allocates_set_np_random in Ha.
    apply IH in H as (-> & Hp' & Ha' & _). simpl in *.
    rewrite <- app_assoc.
    split; [done|]. split; [done|]. split; [|done].
    by apply (allocates_trans 1 n s _ s' Ha).
Qed.

Lemma make_children_is_Ok n cs s :
  2 ≤ length (population s) → is_Ok (make_children n cs s).
Proof.
  revert cs s. induction n as [|n IH]; intros cs s Hlen; simpl.
  - by eexists.
  - destruct (choice_is_Ok (population s) 2 (np_random s))
      as [[parents g] Hc]; [lia|].
    rewrite Hc. simpl.
    apply choice_two in Hc as (_ & m & f & -> & _).
    destruct (makeChildModel _ _ _ _) as [h g'].
    simpl. by apply IH.
Qed.

Lemma make_children_Raise n cs s e :
  make_children n cs s = Raise e →
  e = ValueError ∧ n ≠ 0 ∧ length (population s) < 2.
Proof.
  revert cs s. induction n as [|n IH]; intros cs s; simpl; [done|].
  intros H. apply bind_Raise in H as [H|([parents g] & Hc & H)].
  - apply choice_Raise_iff in H as [-> H]. split; [done|]. lia.
  - apply choice_two in Hc as (Hlen & m & f & -> & _).
    destruct (makeChildModel _ _ _ _) as [h g'].
    apply IH in H as (_ & _ & H). simpl in H. lia.
Qed.

Lemma _makeChildren_Ok s s' :
  _makeChildren s = Ok s' → ∃ children c s1, breeds children c s1 s s'.
Proof.
  unfold _makeChildren. intros H.
  inv_bind H. destruct a as [children s1].
  inv_bind H. destruct a as [c g].
  apply choice_one_Ok in Hstep0 as [Hc ->].
  injection H as <-.
  exists children, c, s1.
  pose proof Hstep as (Hcs & Hp & Ha & _)%make_children_Ok.
  simpl in Hcs.
  assert (allocated s ≤ c < allocated s + length children) as Hrange.
  { apply list_elem_of_lookup_2 in Hc. rewrite Hcs in Hc |- *.
    rewrite elem_of_seq in Hc. rewrite length_seq. lia. }
  unfold mutate. simpl.
  destruct (mutateModel _ _ _) as [h g] eqn:Hm. simpl.
  destruct Ha. split; simpl; try done.
  - by rewrite Hp.
  - by rewrite al_mutateCalls0.
  - rewrite al_allocated0, Hcs, length_seq. lia.
  - intros r Hr. rewrite store_ne by lia. by apply al_old0.
  - intros r Hr. unfold fitness_of. simpl. unfold store.
    rewrite Hcs, elem_of_seq in Hr.
    case_decide as Hrc; [subst r; simpl|]; apply al_new0; lia.
  - rewrite store_eq. simpl. by rewrite al_conf0 in Hm; rewrite Hm.
  - intros r Hr. by apply store_ne.
Qed.

Lemma _makeChildren_is_Ok s :
  (1 ≤ makeChildN (conf s))%Z → 2 ≤ length (population s) →
  is_Ok (_makeChildren s).
Proof.
  intros Hn Hlen. unfold _makeChildren.
  destruct (make_children_is_Ok (Z.to_nat (makeChildN (conf s))) [] s Hlen)
    as [[children s1] Hloop].
  rewrite Hloop. simpl.
  apply make_children_Ok in Hloop as (-> & _). simpl.
  match goal with
  | |- is_Ok (@choice_one ?A ?a ?g ≫= _) =>
      destruct (@choice_one_is_Ok A a g) as [[c g'] ->]; [|by eexists]
  end.
  destruct (Z.to_nat _) eqn:E; [lia|done].
Qed.

Lemma _makeChildren_Raise s e : _makeChildren s = Raise e → e = ValueError.
Proof.
  unfold _makeChildren. intros H.
  apply bind_Raise in H as [H|([children s1] & Hloop & H)];
    [by apply make_children_Raise in H as [-> _]|].
  apply bind_Raise in H as [H|([c g] & Hc & H)]; [|done].
  unfold choice_one in H. simpl in H.
  destruct (children !! _); [done|]. by injection H as <-.
Qed.

(** Without children there is nothing to choose the mutant from. *)
Lemma _makeChildren_no_children s :
  (makeChildN (conf s) ≤ 0)%Z → _makeChildren s = Raise ValueError.
Proof.
  intros Hn. unfold _makeChildren.
  assert (Z.to_nat (makeChildN (conf s)) = 0) as -> by lia.
  done.
Qed.

(** With fewer than two models to choose from, the first draw of parents
    fails. *)
Lemma _makeChildren_few_parents s :
  (1 ≤ makeChildN (conf s))%Z → length (population s) < 2 →
  _makeChildren s = Raise ValueError.
Proof.
  intros Hn Hlen. unfold _makeChildren.
  destruct (Z.to_nat (makeChildN (conf s))) as [|n] eqn:E; [lia|].
  simpl. rewrite choice_Raise; [done|lia].
Qed.

(** ** What holds from one state to every later one *)

Lemma later_refl s : later s s.
Proof.
  split; try done. exists []. split; [by rewrite app_nil_r|].
  by intros r q ?%elem_of_nil.
Qed.

Lemma later_trans s s1 s2 : later s s1 → later s1 s2 → later s s2.
Proof.
  intros [Hc1 Ha1 Hf1 (l1 & Hl1 & Hn1) Hg1] [Hc2 Ha2 Hf2 (l2 & Hl2 & Hn2) Hg2].
  split.
  - congruence.
  - lia.
  - intros r q Hr Hq. apply Hf2; [lia|]. by apply Hf1.
  - exists (l1 ++ l2). split; [by rewrite Hl2, Hl1, app_assoc|].
    intros r q [Hin|Hin]%elem_of_app Hr; [by eapply Hn1|].
    destruct (fitness_of s r) as [q0|] eqn:Hq0; [|done].
    apply Hf1 in Hq0; [|done].
    rewrite (Hn2 r q Hin) in Hq0; [done|lia].
  - by etrans.
Qed.

(** A step that leaves the existing objects and the evaluator's trace
    alone. *)
Lemma later_frame s s' :
  conf s' = conf s → allocated s ≤ allocated s' →
  (∀ r, r < allocated s → objects s' r = objects s r) →
  scoreCalls s' = scoreCalls s →
  graveyard s `prefix_of` graveyard s' →
  later s s'.
Proof.
  intros Hc Ha Ho Hs Hg. split; try done.
  - intros r q Hr Hq. unfold fitness_of. by rewrite Ho.
  - exists []. split; [by rewrite app_nil_r|].
    by intros r q ?%elem_of_nil.
Qed.

Lemma scores_later l s s' : scores l s s' → later s s'.
Proof.
  intros H. split.
  - apply (sc_conf _ _ _ H).
  - by rewrite (sc_allocated _ _ _ H).
  - intros r q _ Hq. rewrite (sc_kept _ _ _ H); [done|].
    intros [[r' q'] [Hr Hin]]%list_elem_of_fmap. simpl in Hr. subst r'.
    destruct (sc_stored _ _ _ H _ _ Hin) as [Hn _]. congruence.
  - exists l. split; [apply (sc_calls _ _ _ H)|].
    intros r q Hin _. by destruct (sc_stored _ _ _ H _ _ Hin).
  - by rewrite (sc_graveyard _ _ _ H).
Qed.

Lemma culls_later top btm p s s' : culls top btm p s s' → later s s'.
Proof.
  intros H. apply later_frame.
  - apply (cu_conf _ _ _ _ _ H).
  - by rewrite (cu_allocated _ _ _ _ _ H).
  - intros r _. by rewrite (cu_objects _ _ _ _ _ H).
  - apply (cu_scoreCalls _ _ _ _ _ H).
  - rewrite (cu_graveyard _ _ _ _ _ H).
    destruct (keepGraveyard (conf s)); [by apply prefix_app_r|done].
Qed.

Lemma breeds_later children c s1 s s' :
  breeds children c s1 s s' → later s s'.
Proof.
  intros H. apply later_frame.
  - apply (br_conf _ _ _ _ _ H).
  - rewrite (br_allocated _ _ _ _ _ H). lia.
  - apply (br_old _ _ _ _ _ H).
  - apply (br_scoreCalls _ _ _ _ _ H).
  - by rewrite (br_graveyard _ _ _ _ _ H).
Qed.

Lemma allocates_later n s s' : allocates n s s' → later s s'.
Proof.
  intros H. apply later_frame.
  - apply (al_conf _ _ _ H).
  - rewrite (al_allocated _ _ _ H). lia.
  - apply (al_old _ _ _ H).
  - apply (al_scoreCalls _ _ _ H).
  - by rewrite (al_graveyard _ _ _ H).
Qed.

(** ** The invariant of a run *)

(** A step that scores nothing and does not touch the remembered best
    keeps the invariant if it keeps the population in order. *)
Lemma wf_step s s' :
  wf s → later s s' →
  bestModel s' = bestModel s → scoreCalls s' = scoreCalls s →
  NoDup (population s') →
  (∀ r, r ∈ population s' → r < allocated s') →
  wf s'.
Proof.
  intros Hwf Hl Hb Hs Hnd Hpop. split; try done.
  - intros b Hbest. rewrite Hb in Hbest.
    destruct (wf_bestModel _ Hwf b Hbest) as [Hlt [q Hq]].
    split; [pose proof (lt_allocated _ _ Hl); lia|].
    exists q. by apply (lt_fitness _ _ Hl).
  - intros r q Hin. rewrite Hs in Hin.
    destruct (wf_scoreCalls _ Hwf r q Hin) as [Hlt Hq].
    split; [pose proof (lt_allocated _ _ Hl); lia|].
    by apply (lt_fitness _ _ Hl).
  - rewrite Hs. apply (wf_scored _ Hwf).
Qed.

Lemma wf_scoreModelsInPop s : wf s → wf (_scoreModelsInPop s).
Proof.
  intros Hwf.
  destruct (_scoreModelsInPop_spec s) as (l & Hsc & Hmem & _).
  pose proof (scores_later _ _ _ Hsc) as Hl.
  split.
  - rewrite (sc_population _ _ _ Hsc). apply (wf_NoDup _ Hwf).
  - rewrite (sc_population _ _ _ Hsc), (sc_allocated _ _ _ Hsc).
    apply (wf_population _ Hwf).
  - rewrite (sc_bestModel _ _ _ Hsc), (sc_allocated _ _ _ Hsc).
    intros b Hb. destruct (wf_bestModel _ Hwf b Hb) as [Hlt [q Hq]].
    split; [done|]. exists q. by apply (lt_fitness _ _ Hl).
  - rewrite (sc_calls _ _ _ Hsc), (sc_allocated _ _ _ Hsc).
    intros r q [Hin|Hin]%elem_of_app.
    + destruct (wf_scoreCalls _ Hwf r q Hin) as [Hlt Hq].
      split; [done|]. by apply (lt_fitness _ _ Hl).
    + split; [|by destruct (sc_stored _ _ _ Hsc _ _ Hin) as (_ & ? & _)].
      apply (wf_population _ Hwf), Hmem.
      by apply (list_elem_of_fmap_2 fst _ (r, q)).
  - rewrite (sc_calls _ _ _ Hsc), fmap_app. apply NoDup_app.
    split; [apply (wf_scored _ Hwf)|]. split; [|apply (sc_NoDup _ _ _ Hsc)].
    intros r [[r' q] [Hr Hin]]%list_elem_of_fmap Hnew.
    simpl in Hr. subst r'.
    destruct (wf_scoreCalls _ Hwf r q Hin) as [_ Hq].
    apply Hmem in Hnew as [_ Hnone]. congruence.
Qed.

Lemma wf_sorted s s' : wf s → _sortPopByFitness s = Ok s' → wf s'.
Proof.
  intros Hwf Hsort.
  apply _sortPopByFitness_Ok in Hsort as (p & -> & Hp).
  apply (wf_step s); simpl; try done.
  - by apply later_frame.
  - rewrite Hp. apply (wf_NoDup _ Hwf).
  - intros r. rewrite Hp. apply (wf_population _ Hwf).
Qed.

Lemma wf_culls top btm p s s' : wf s → culls top btm p s s' → wf s'.
Proof.
  intros Hwf H. apply (wf_step s); try done.
  - by eapply culls_later.
  - apply (cu_bestModel _ _ _ _ _ H).
  - apply (cu_scoreCalls _ _ _ _ _ H).
  - apply (culls_NoDup H), (wf_NoDup _ Hwf).
  - intros r Hr. rewrite (cu_allocated _ _ _ _ _ H).
    by apply (wf_population _ Hwf), (culls_elem_of H).
Qed.

(** Appending newly created objects to the population. *)
Lemma fresh_NoDup (pop : list ref) (a n : nat) :
  NoDup pop → (∀ r, r ∈ pop → r < a) → NoDup (pop ++ seq a n).
Proof.
  intros Hnd Hlt. apply NoDup_app. split; [done|]. split; [|apply NoDup_seq].
  intros r Hr Hs. apply Hlt in Hr. apply elem_of_seq in Hs. lia.
Qed.

Lemma fresh_bound (pop : list ref) (a n : nat) r :
  (∀ r, r ∈ pop → r < a) → r ∈ pop ++ seq a n → r < a + n.
Proof.
  intros Hlt [Hr|Hr]%elem_of_app.
  - apply Hlt in Hr. lia.
  - apply elem_of_seq in Hr. lia.
Qed.

Lemma wf_breeds children c s1 s s' :
  wf s → breeds children c s1 s s' → wf s'.
Proof.
  intros Hwf H. apply (wf_step s); try done.
  - by eapply breeds_later.
  - apply (br_bestModel _ _ _ _ _ H).
  - apply (br_scoreCalls _ _ _ _ _ H).
  - rewrite (br_population _ _ _ _ _ H), (br_children _ _ _ _ _ H).
    apply fresh_NoDup; [apply (wf_NoDup _ Hwf)|apply (wf_population _ Hwf)].
  - intros r. rewrite (br_population _ _ _ _ _ H), (br_allocated _ _ _ _ _ H).
    rewrite (br_children _ _ _ _ _ H), length_seq.
    apply fresh_bound, (wf_population _ Hwf).
Qed.

Lemma wf_makeRemainingRandomModels s :
  wf s → wf (_makeRemainingRandomModels s).
Proof.
  intros Hwf. destruct (_makeRemainingRandomModels_spec s) as [Hp Ha].
  apply (wf_step s); try done.
  - by eapply allocates_later.
  - apply (al_bestModel _ _ _ Ha).
  - apply (al_scoreCalls _ _ _ Ha).
  - rewrite Hp.
    apply fresh_NoDup; [apply (wf_NoDup _ Hwf)|apply (wf_population _ Hwf)].
  - intros r. rewrite Hp, (al_allocated _ _ _ Ha).
    apply fresh_bound, (wf_population _ Hwf).
Qed.

Lemma wf_initializePop s s' :
  wf s → _initializePop s = Ok s' → wf s'.
Proof.
  unfold _initializePop. case_bool_decide as Hlen; [|done].
  destruct (random_models _ s) as [rs s1] eqn:E. intros Hwf [= <-].
  apply random_models_spec in E as (-> & Hp & Ha).
  apply (wf_step s); simpl; try done.
  - apply later_trans with s1; [by eapply allocates_later|].
    apply later_frame; simpl; try done.
  - apply (al_bestModel _ _ _ Ha).
  - apply (al_scoreCalls _ _ _ Ha).
  - apply NoDup_seq.
  - intros r Hr. rewrite (al_allocated _ _ _ Ha).
    apply elem_of_seq in Hr. lia.
Qed.

(** ** One generation *)

Lemma fitter_Ok s (best b : ref) (improved : bool) :
  fitter s best b = Ok improved ↔
  ∃ x y, fitness_of s best = Some x ∧ fitness_of s b = Some y ∧
         improved = negb (Qle_bool x y).
Proof.
  unfold fitter.
  destruct (fitness_of s best) as [x|], (fitness_of s b) as [y|]; split;
    try done; try (by intros (? & ? & ? & ? & ?)).
  - intros [= <-]. by exists x, y.
  - intros (x' & y' & [= <-] & [= <-] & ->). done.
Qed.

(** [improved] is the outcome of the strict comparison. *)
Lemma negb_Qle_bool (x y : Q) : negb (Qle_bool x y) = true ↔ (y < x)%Q.
Proof.
  rewrite negb_true_iff, <- not_true_iff_false, Qle_bool_iff.
  split; [apply Qnot_le_lt|apply Qlt_not_le].
Qed.

Lemma track_best_Ok s i n s3 i' n' :
  track_best s i n = Ok (s3, i', n') →
  ∃ best s2 (improved : bool),
    _getBestModel (_scoreModelsInPop s) = Ok (best, s2) ∧
    match bestModel s with
    | None => improved = true
    | Some b => fitter s2 best b = Ok improved
    end ∧
    s3 = (if improved then set_bestModel (Some best) s2 else s2) ∧
    i' = (i + 1)%Z ∧ n' = (if improved then 0 else n + 1)%Z.
Proof.
  unfold track_best. intros H.
  inv_bind H. destruct a as [best s2].
  inv_bind H. rename a into improved.
  exists best, s2, improved. split; [done|].
  apply _getBestModel_Ok in Hstep as [Hsort _].
  apply _sortPopByFitness_Ok in Hsort as (p & -> & _).
  destruct (_scoreModelsInPop_spec s) as (l & Hsc & _).
  simpl in Hstep0. rewrite (sc_bestModel _ _ _ Hsc) in Hstep0.
  split.
  - destruct (bestModel s); [done|by injection Hstep0].
  - by destruct improved; injection H as <- <- <-.
Qed.

Lemma track_best_facts s i n s3 i' n' :
  track_best s i n = Ok (s3, i', n') →
  conf s3 = conf s ∧ allocated s3 = allocated s ∧
  graveyard s3 = graveyard s ∧ mutateCalls s3 = mutateCalls s ∧
  population s3 ≡ₚ population s ∧
  (∀ r, r ∈ population s3 → is_Some (fitness_of s3 r)) ∧
  later s s3 ∧ (wf s → wf s3).
Proof.
  intros (best & s2 & improved & Hbest & Himp & -> & _)%track_best_Ok.
  apply _getBestModel_Ok in Hbest as [Hsort Hb].
  destruct (_sortPopByFitness_Ok _ _ Hsort) as (p & -> & Hp).
  destruct (_scoreModelsInPop_spec s) as (l & Hsc & _ & Hset).
  rewrite (sc_population _ _ _ Hsc) in Hp.
  assert (later s (set_population p (_scoreModelsInPop s))) as Hl.
  { apply later_trans with (_scoreModelsInPop s);
      [by eapply scores_later|by apply later_frame]. }
  assert (∀ r, r ∈ p →
               is_Some (fitness_of (_scoreModelsInPop s) r)) as Hfit.
  { intros r Hr. apply Hset. by rewrite <- Hp. }
  assert (wf s → wf (set_population p (_scoreModelsInPop s))) as Hwf.
  { intros Hwf. apply (wf_sorted (_scoreModelsInPop s)); [|done].
    by apply wf_scoreModelsInPop. }
  destruct improved; simpl.
  - split; [apply (sc_conf _ _ _ Hsc)|].
    split; [apply (sc_allocated _ _ _ Hsc)|].
    split; [apply (sc_graveyard _ _ _ Hsc)|].
    split; [apply (sc_mutateCalls _ _ _ Hsc)|].
    split; [done|]. split; [done|]. split.
    + apply later_trans with (set_population p (_scoreModelsInPop s));
        [done|by apply later_frame].
    + intros Hwf0. specialize (Hwf Hwf0). destruct Hwf. split; try done.
      simpl in *. intros b [= <-].
      assert (best ∈ p) as Hin by by eapply list_elem_of_lookup_2.
      split; [by apply wf_population0|by apply Hfit].
  - split; [apply (sc_conf _ _ _ Hsc)|].
    split; [apply (sc_allocated _ _ _ Hsc)|].
    split; [apply (sc_graveyard _ _ _ Hsc)|].
    split; [apply (sc_mutateCalls _ _ _ Hsc)|].
    done.
Qed.

Lemma track_best_is_Ok s i n :
  wf s → population s ≠ [] → is_Ok (track_best s i n).
Proof.
  intros Hwf Hne. unfold track_best.
  destruct (_scoreModelsInPop_spec s) as (l & Hsc & _ & Hset).
  pose proof (wf_scoreModelsInPop s Hwf) as Hwf1.
  destruct (_sortPopByFitness_is_Ok (_scoreModelsInPop s)) as [s2 Hsort].
  { intros r. rewrite (sc_population _ _ _ Hsc). apply Hset. }
  destruct (_sortPopByFitness_Ok _ _ Hsort) as (p & -> & Hp).
  unfold _getBestModel. rewrite Hsort. simpl.
  rewrite (sc_population _ _ _ Hsc) in Hp.
  destruct p as [|best p].
  { apply Permutation_nil_l in Hp. by rewrite <- Hp in Hne. }
  simpl. destruct (bestModel (_scoreModelsInPop s)) as [b|] eqn:Hb;
    [|by eexists].
  destruct (wf_bestModel _ Hwf1 b Hb) as [_ [y Hy]].
  destruct (Hset best) as [x Hx]; [rewrite <- Hp; left|].
  unfold fitter, fitness_of in *. simpl. rewrite Hx, Hy. simpl.
  by eexists.
Qed.

Lemma generation_Ok s i n s' i' n' :
  generation s i n = Ok (s', i', n') ↔
  ∃ s3 s4 s5,
    track_best s i n = Ok (s3, i', n') ∧ _killUnfit s3 = Ok s4 ∧
    _makeChildren s4 = Ok s5 ∧ s' = _makeRemainingRandomModels s5.
Proof.
  unfold generation. split.
  - intros H. inv_bind H. destruct a as [[s3 i3] n3].
    inv_bind H. rename a into s4. inv_bind H. rename a into s5.
    injection H as <- <- <-. by exists s3, s4, s5.
  - intros (s3 & s4 & s5 & -> & H4 & H5 & ->). simpl.
    rewrite H4. simpl. by rewrite H5.
Qed.

Lemma generation_facts s i n s' i' n' :
  generation s i n = Ok (s', i', n') →
  conf s' = conf s ∧ later s s' ∧ (wf s → wf s').
Proof.
  intros (s3 & s4 & s5 & H3 & H4 & H5 & ->)%generation_Ok.
  apply track_best_facts in H3 as (Hc3 & _ & _ & _ & _ & _ & Hl3 & Hwf3).
  apply _killUnfit_Ok in H4 as (btm & p & H4).
  apply _makeChildren_Ok in H5 as (children & c & s1 & H5).
  destruct (_makeRemainingRandomModels_spec s5) as [_ H6].
  split.
  - rewrite (al_conf _ _ _ H6), (br_conf _ _ _ _ _ H5),
      (cu_conf _ _ _ _ _ H4). done.
  - split.
    + apply later_trans with s3; [done|].
      apply later_trans with s4; [by eapply culls_later|].
      apply later_trans with s5; [by eapply breeds_later|].
      by eapply allocates_later.
    + intros Hwf. apply wf_makeRemainingRandomModels.
      eapply wf_breeds; [|done]. eapply wf_culls; [|done]. by apply Hwf3.
Qed.

Lemma breeds_makeChildN children c s1 s s' :
  breeds children c s1 s s' → (1 ≤ makeChildN (conf s))%Z.
Proof.
  intros H. pose proof (br_chosen _ _ _ _ _ H) as Hc.
  apply lookup_lt_Some in Hc.
  rewrite (br_children _ _ _ _ _ H), length_seq in Hc. lia.
Qed.

Lemma generation_length s i n s' i' n' :
  generation s i n = Ok (s', i', n') →
  (0 ≤ keepTopN (conf s))%Z →
  (keepTopN (conf s) + keepBtmN (conf s) + makeChildN (conf s)
     ≤ popSize (conf s))%Z →
  Z.of_nat (length (population s')) = popSize (conf s).
Proof.
  intros (s3 & s4 & s5 & H3 & H4 & H5 & ->)%generation_Ok Htop Hsum.
  apply track_best_facts in H3 as (Hc3 & _).
  apply _killUnfit_Ok in H4 as (btm & p & H4).
  apply _makeChildren_Ok in H5 as (children & c & s1 & H5).
  pose proof (breeds_makeChildN _ _ _ _ _ H5) as Hchild.
  rewrite _makeRemainingRandomModels_length.
  rewrite (br_conf _ _ _ _ _ H5), (br_population _ _ _ _ _ H5), length_app.
  rewrite (br_children _ _ _ _ _ H5), length_seq.
  rewrite (culls_length H4).
  destruct (culls_btm H4) as (_ & Hbtm & _).
  unfold topKeepInds. rewrite length_seq.
  rewrite (cu_conf _ _ _ _ _ H4) in *. rewrite Hc3 in *. lia.
Qed.

Lemma generation_is_Ok s i n :
  wf s → (0 ≤ keepBtmN (conf s))%Z → (1 ≤ makeChildN (conf s))%Z →
  2 ≤ Z.to_nat (keepTopN (conf s)) + Z.to_nat (keepBtmN (conf s)) →
  Z.to_nat (keepTopN (conf s)) + Z.to_nat (keepBtmN (conf s))
    ≤ length (population s) →
  is_Ok (generation s i n).
Proof.
  intros Hwf Hbtm Hchild Htwo Hlen.
  destruct (track_best_is_Ok s i n Hwf) as [[[s3 i'] n'] H3].
  { intros Hnil. rewrite Hnil in Hlen. simpl in Hlen. lia. }
  pose proof (track_best_facts _ _ _ _ _ _ H3)
    as (Hc3 & _ & _ & _ & Hp3 & Hfit3 & _).
  destruct (_killUnfit_is_Ok s3) as [s4 H4]; [done|by rewrite Hc3|..].
  { rewrite Hc3, Hp3. done. }
  pose proof (_killUnfit_Ok _ _ H4) as (btm & p & Hcu).
  destruct (_makeChildren_is_Ok s4) as [s5 H5].
  { by rewrite (cu_conf _ _ _ _ _ Hcu), Hc3. }
  { rewrite (culls_length Hcu). destruct (culls_btm Hcu) as (_ & Hb & _).
    unfold topKeepInds. rewrite length_seq. rewrite Hc3 in *. lia. }
  eexists. apply generation_Ok. by exists s3, s4, s5.
Qed.

(** ** Several generations, and [evolve] *)

Lemma generations_facts k s i n s' i' n' :
  generations k s i n = Ok (s', i', n') →
  conf s' = conf s ∧ later s s' ∧ (wf s → wf s') ∧
  i' = (i + Z.of_nat k)%Z.
Proof.
  revert s i n. induction k as [|k IH]; intros s i n; simpl.
  - intros [= <- <- <-]. split; [done|]. split; [apply later_refl|].
    split; [done|lia].
  - intros H. inv_bind H. destruct a as [[s1 i1] n1].
    pose proof Hstep as (s3 & _ & _ & H3 & _)%generation_Ok.
    apply track_best_Ok in H3 as (_ & _ & _ & _ & _ & _ & Hi & _).
    apply generation_facts in Hstep as (Hc1 & Hl1 & Hwf1).
    apply IH in H as (Hc & Hl & Hwf & ->).
    split; [congruence|]. split; [by eapply later_trans|].
    split; [auto|lia].
Qed.

Lemma generations_is_Ok k s i n :
  wf s → runnable (conf s) →
  Z.of_nat (length (population s)) = popSize (conf s) →
  is_Ok (generations k s i n).
Proof.
  revert s i n. induction k as [|k IH]; intros s i n Hwf Hrun Hlen; simpl.
  - by eexists.
  - destruct Hrun as (Htop & Hbtm & Htwo & Hchild & Hsum).
    destruct (generation_is_Ok s i n) as [[[s1 i1] n1] H1];
      [done|done|done|lia|lia|].
    rewrite H1. simpl.
    pose proof (generation_length _ _ _ _ _ _ H1 Htop Hsum) as Hlen1.
    apply generation_facts in H1 as (Hc1 & _ & Hwf1).
    apply IH; [by apply Hwf1|by rewrite Hc1|by rewrite Hc1].
Qed.

(** While [stopCond] is false, the loop of [evolve] goes through one
    generation after the other; it is left only by an exception. *)
Lemma evolve_loop_false fuel s i n :
  evolve_loop fuel false s i n =
    match generations fuel s i n with
    | Ok (s', i', n') => Running s' i' n'
    | Raise e => Raised e
    end.
Proof.
  revert s i n. induction fuel as [|fuel IH]; intros s i n; simpl; [done|].
  destruct (generation s i n) as [[[s1 i1] n1]|e]; simpl; [apply IH|done].
Qed.

Lemma evolve_loop_true fuel s i n :
  evolve_loop fuel true s i n = Returned s i n.
Proof. by destruct fuel. Qed.

Lemma count_of_Raise (frac : float) (size : Z) e :
  count_of frac size = Raise e → e = OverflowError ∨ e = ValueError.
Proof.
  unfold count_of. intros [H|(fs & _ & H)]%bind_Raise.
  - left. unfold float_of_int in H.
    destruct (binary_normalize _ _ _ _ _); congruence.
  - by apply int_floor_Raise in H.
Qed.

Lemma count_of_is_Ok (frac : float) (size : Z) :
  is_Ok (count_of frac size) ↔
  ∃ fs, float_of_int size = Ok fs ∧ finite (fmul frac fs).
Proof.
  unfold count_of. split.
  - intros [n H]. inv_bind H. exists a. split; [done|].
    apply int_floor_is_Ok. by exists n.
  - intros (fs & -> & Hfin). simpl. by apply int_floor_is_Ok.
Qed.

Lemma np_random_seed_Raise (pr : Process hyper) (seed : Z) e :
  np_random_seed pr seed = Raise e ↔
  e = ValueError ∧ ¬ (0 ≤ seed < 2 ^ 32)%Z.
Proof.
  unfold np_random_seed. case_bool_decide as Hs.
  - split; [done|]. by intros [_ ?].
  - split; [by intros [= <-]|by intros [-> _]].
Qed.

Lemma init_Ok mk sc size top btm child mut kg rs pr s :
  __init__ mk sc size top btm child mut kg rs pr = Ok s ↔
  fle (fadd (fadd top btm) child) f_one = true ∧
  ∃ nTop nBtm nChild nMut g,
    count_of top size = Ok nTop ∧ count_of btm size = Ok nBtm ∧
    count_of child size = Ok nChild ∧ count_of mut size = Ok nMut ∧
    match rs with
    | Some seed => np_random_seed pr seed
    | None => Ok (proc_random pr)
    end = Ok g ∧
    s = built mk sc size top btm child mut kg rs pr nTop nBtm nChild nMut g.
Proof.
  unfold __init__. destruct (fle _ f_one); [|split; [done|by intros [? _]]].
  split.
  - intros H. split; [done|].
    inv_bind H. rename a into nTop, Hstep into Htop.
    inv_bind H. rename a into nBtm, Hstep into Hbtm.
    inv_bind H. rename a into nChild, Hstep into Hchild.
    inv_bind H. rename a into nMut, Hstep into Hmut.
    inv_bind H. rename a into g. injection H as <-.
    by exists nTop, nBtm, nChild, nMut, g.
  - intros (_ & nTop & nBtm & nChild & nMut & g
            & -> & -> & -> & -> & Hg & ->).
    simpl. by rewrite Hg.
Qed.

Lemma init_Raise (mk : ModelMaker hyper) sc size top btm child mut kg rs
    pr e :
  __init__ mk sc size top btm child mut kg rs pr = Raise e →
  fle (fadd (fadd top btm) child) f_one = true →
  e = OverflowError ∨ e = ValueError.
Proof.
  unfold __init__. intros H Hle. rewrite Hle in H.
  apply bind_Raise in H as [H|(? & _ & H)]; [by eapply count_of_Raise|].
  apply bind_Raise in H as [H|(? & _ & H)]; [by eapply count_of_Raise|].
  apply bind_Raise in H as [H|(? & _ & H)]; [by eapply count_of_Raise|].
  apply bind_Raise in H as [H|(? & _ & H)]; [by eapply count_of_Raise|].
  apply bind_Raise in H as [H|(? & _ & H)]; [|done].
  right. destruct rs as [seed|]; [|done].
  by apply np_random_seed_Raise in H as [-> _].
Qed.

Lemma wf_init mk sc popSize top btm child mut kg rs pr s :
  __init__ mk sc popSize top btm child mut kg rs pr = Ok s → wf s.
Proof.
  intros (_ & nTop & nBtm & nChild & nMut & g & _ & _ & _ & _ & _ & ->)
         %init_Ok.
  split; simpl; try done.
  - constructor.
  - by intros r ?%elem_of_nil.
  - by intros r q ?%elem_of_nil.
  - constructor.
Qed.

Lemma _initializePop_Ok s s' :
  _initializePop s = Ok s' →
  population s = [] ∧
  population s' = seq (allocated s) (Z.to_nat (popSize (conf s))) ∧
  allocates (Z.to_nat (popSize (conf s))) s s'.
Proof.
  unfold _initializePop. case_bool_decide as Hlen; [|done].
  destruct (random_models _ s) as [rs s1] eqn:E. intros [= <-].
  apply random_models_spec in E as (-> & Hp & Ha).
  split; [by apply nil_length_inv|]. split; [done|].
  by apply allocates_set_population.
Qed.

Lemma _initializePop_is_Ok s : population s = [] → is_Ok (_initializePop s).
Proof.
  intros Hp. unfold _initializePop. rewrite Hp. simpl.
  destruct (random_models _ s). by eexists.
Qed.

(** ** Construction *)

(** C8.  Construction fails with an [AssertionError] exactly when the
    test [keepTopFrac + keepBtmFrac + makeChildFrac <= 1] is false, the
    sum being the float sum taken from left to right; for fractions
    that are numbers, that is exactly when the sum is greater than 1.
    [mutateFrac] takes no part in the test: whether the assertion
    fails does not depend on it.  When the sum is at most 1, nothing
    but the conversion of a product to an [int] count or the seeding
    of the generator can make the construction fail, with an
    [OverflowError] or a [ValueError]; whatever [mutateFrac] is, if its
    product with [popSize] is a number (and the three other counts and
    the seed are in order), the controller is built, and records
    [mutateFrac] and the count derived from it. *)
Theorem init_fails_iff_fractions_exceed_one
    (mk : ModelMaker hyper) (sc : ModelScorer hyper) (size : Z)
    (top btm child mut : float) (kg : bool) (rs : option Z)
    (pr : Process hyper) :
  let sum := fadd (fadd top btm) child in
  (__init__ mk sc size top btm child mut kg rs pr = Raise AssertionError
     ↔ fle sum f_one = false) ∧
  (finite top → finite btm → finite child →
   (fle sum f_one = false ↔ flt f_one sum = true)) ∧
  (∀ mut' : float,
     __init__ mk sc size top btm child mut' kg rs pr = Raise AssertionError
     ↔ __init__ mk sc size top btm child mut kg rs pr
         = Raise AssertionError) ∧
  (fle sum f_one = true →
   (∀ e, __init__ mk sc size top btm child mut kg rs pr = Raise e →
         e = OverflowError ∨ e = ValueError) ∧
   (is_Ok (__init__ mk sc size top btm child mut kg rs pr) ↔
    is_Ok (count_of top size) ∧ is_Ok (count_of btm size) ∧
    is_Ok (count_of child size) ∧
    (∃ fs, float_of_int size = Ok fs ∧ finite (fmul mut fs)) ∧
    match rs with
    | Some seed => (0 ≤ seed < 2 ^ 32)%Z
    | None => True
    end) ∧
   (∀ s, __init__ mk sc size top btm child mut kg rs pr = Ok s →
         mutateFrac (conf s) = mut ∧
         count_of mut size = Ok (mutateN (conf s)) ∧
         count_of top size = Ok (keepTopN (conf s)) ∧
         count_of btm size = Ok (keepBtmN (conf s)) ∧
         count_of child size = Ok (makeChildN (conf s)) ∧
         population s = [] ∧ bestModel s = None)).
Proof.
  assert (∀ m : float,
            __init__ mk sc size top btm child m kg rs pr
              = Raise AssertionError
            ↔ fle (fadd (fadd top btm) child) f_one = false) as Hassert.
  { intros m. destruct (fle _ f_one) eqn:Hle.
    - split; [|done]. intros H.
      by destruct (init_Raise _ _ _ _ _ _ _ _ _ _ _ H Hle).
    - split; [done|]. intros _. unfold __init__. by rewrite Hle. }
  simpl. split; [apply Hassert|]. split; [|split].
  - intros Htop Hbtm Hchild.
    rewrite fle_flt; [by destruct (flt _ _)| |done].
    apply fadd_not_nan; [|done]. apply fadd_not_nan; [|done].
    by destruct top.
  - intros mut'. by rewrite !Hassert.
  - intros Hle. split; [|split].
    { intros e H. by eapply init_Raise. }
    2: { intros s (_ & nTop & nBtm & nChild & nMut & g & Htop & Hbtm
                   & Hchild & Hmut & _ & ->)%init_Ok.
         by simpl. }
    split.
    + intros [s (_ & nTop & nBtm & nChild & nMut & g & Htop & Hbtm
                 & Hchild & Hmut & Hg & _)%init_Ok].
      split; [by eexists|]. split; [by eexists|]. split; [by eexists|].
      split; [apply count_of_is_Ok; by eexists|].
      destruct rs as [seed|]; [|done].
      unfold np_random_seed in Hg. by case_bool_decide.
    + intros ([nTop Htop] & [nBtm Hbtm] & [nChild Hchild]
              & [nMut Hmut]%count_of_is_Ok & Hseed).
      destruct rs as [seed|].
      * eexists. apply init_Ok. split; [done|].
        exists nTop, nBtm, nChild, nMut, (proc_seed pr seed).
        do 4 (split; [done|]). split; [|done]. unfold np_random_seed.
        by rewrite bool_decide_eq_true_2.
      * eexists. apply init_Ok. split; [done|].
        exists nTop, nBtm, nChild, nMut, (proc_random pr).
        by do 4 (split; [done|]).
Qed.

(** ** Configurations under which breeding fails *)

Lemma generation_no_children s i n :
  (makeChildN (conf s) ≤ 0)%Z → ∃ e, generation s i n = Raise e.
Proof.
  intros Hn. unfold generation.
  destruct (track_best s i n) as [[[s3 i'] n']|e] eqn:H3; [|by exists e].
  simpl. destruct (_killUnfit s3) as [s4|e] eqn:H4; [|by exists e].
  simpl. apply track_best_facts in H3 as (Hc3 & _).
  apply _killUnfit_Ok in H4 as (btm & p & H4).
  rewrite _makeChildren_no_children; [by eexists|].
  by rewrite (cu_conf _ _ _ _ _ H4), Hc3.
Qed.

(** C9.  With [makeChildN = 0], [_makeChildren] raises: the list of
    children from which the model to mutate is chosen is empty.  So a
    generation that gets as far as breeding raises there, no generation
    is ever completed, and whenever [evolve] does not raise its count
    of generations is still 0. *)
Theorem no_children_no_generation s :
  makeChildN (conf s) = 0%Z →
  _makeChildren s = Raise ValueError ∧
  (∀ i n s3 i' n' s4,
     track_best s i n = Ok (s3, i', n') → _killUnfit s3 = Ok s4 →
     make_children (Z.to_nat (makeChildN (conf s4))) [] s4 = Ok ([], s4) ∧
     choice_one (@nil ref) (np_random s4) = Raise ValueError ∧
     _makeChildren s4 = Raise ValueError) ∧
  (∀ i n, ∃ e, generation s i n = Raise e) ∧
  (∀ fuel maxIters maxItersNoImprov,
     match evolve fuel maxIters maxItersNoImprov s with
     | Returned _ iters _ | Running _ iters _ => iters = 0%Z
     | Raised _ => True
     end).
Proof.
  intros Hn. split; [apply _makeChildren_no_children; lia|].
  split; [|split].
  - intros i n s3 i' n' s4 H3 H4.
    apply track_best_facts in H3 as (Hc3 & _).
    apply _killUnfit_Ok in H4 as (btm & p & H4).
    assert (makeChildN (conf s4) = 0%Z) as Hn4
      by by rewrite (cu_conf _ _ _ _ _ H4), Hc3.
    split; [by rewrite Hn4|]. split; [done|].
    apply _makeChildren_no_children. lia.
  - intros i n. apply generation_no_children. lia.
  - intros fuel maxIters maxItersNoImprov. unfold evolve.
    case_bool_decide; [|done].
    assert (∀ s0, conf s0 = conf s →
              match evolve_loop fuel
                      (bool_decide (maxIters = Some 0%Z)
                       || bool_decide (Some 0%Z = maxItersNoImprov))
                      s0 0 0
              with
              | Returned _ iters _ | Running _ iters _ => iters = 0%Z
              | Raised _ => True
              end) as Hloop.
    { intros s0 Hc. destruct (_ || _).
      - by rewrite evolve_loop_true.
      - destruct fuel as [|fuel]; simpl; [done|].
        destruct (generation_no_children s0 0 0) as [e ->];
          [rewrite Hc; lia|done]. }
    assert (∀ s0, conf s0 = conf s →
              match
                match initial_stopCond maxIters maxItersNoImprov with
                | Ok stopCond => evolve_loop fuel stopCond s0 0 0
                | Raise e => Raised e
                end
              with
              | Returned _ iters _ | Running _ iters _ => iters = 0%Z
              | Raised _ => True
              end) as Hstop.
    { intros s0 Hc. specialize (Hloop s0 Hc).
      unfold initial_stopCond. destruct maxIters as [mi|]; simpl.
      - destruct (decide (0%Z = mi)) as [<-|Hne].
        + by rewrite evolve_loop_true.
        + rewrite (bool_decide_eq_false_2 (0%Z = mi)) by done.
          rewrite (bool_decide_eq_false_2 (Some mi = Some 0%Z)) in Hloop
            by congruence.
          done.
      - done. }
    clear Hloop.
    destruct (bool_decide (length (population s) = 0)).
    + destruct (_initializePop s) as [s0|e] eqn:Hinit; [|done].
      apply Hstop. apply _initializePop_Ok in Hinit as (_ & _ & Ha).
      apply (al_conf _ _ _ Ha).
    + by apply Hstop.
Qed.

Lemma choice_two_iff {A} (a : list A) g :
  is_Ok (choice a 2 g) ↔ 2 ≤ length a.
Proof.
  split.
  - intros [[l g'] H]. by apply choice_two in H as [? _].
  - intros H. apply choice_is_Ok. lia.
Qed.

(** C10.  Drawing two parents succeeds exactly when the population has
    two models at least.  After a culling, with a non-negative
    [keepTopN]: if [keepTopN + keepBtmN < 2] and a child is to be made,
    the very first draw of parents raises [ValueError], and so does
    [_makeChildren]; if [keepTopN + keepBtmN ≥ 2] every draw of parents
    yields two models of the population, which are distinct when the
    population's models are, and the breeding loop raises nothing
    however long it runs. *)
Theorem parents_need_two_survivors s s1 :
  _killUnfit s = Ok s1 → (0 ≤ keepTopN (conf s))%Z →
  (∀ (pop : list ref) g, is_Ok (choice pop 2 g) ↔ 2 ≤ length pop) ∧
  ((1 ≤ makeChildN (conf s))%Z →
   (keepTopN (conf s) + keepBtmN (conf s) < 2)%Z →
   choice (population s1) 2 (np_random s1) = Raise ValueError ∧
   _makeChildren s1 = Raise ValueError) ∧
  ((2 ≤ keepTopN (conf s) + keepBtmN (conf s))%Z →
   (∀ g, ∃ mother father g',
      choice (population s1) 2 g = Ok ([mother; father], g') ∧
      mother ∈ population s1 ∧ father ∈ population s1 ∧
      (NoDup (population s) → mother ≠ father)) ∧
   (∀ n children, is_Ok (make_children n children s1))).
Proof.
  intros Hkill Htop.
  apply _killUnfit_Ok in Hkill as (btm & p & H).
  pose proof (culls_length H) as Hlen.
  destruct (culls_btm H) as (_ & Hbtm & _).
  unfold topKeepInds in Hlen. rewrite length_seq in Hlen.
  split; [intros pop g; apply choice_two_iff|]. split.
  - intros Hchild Hfew.
    assert (length (population s1) < 2) as Hlt by lia.
    split; [apply choice_Raise; lia|].
    apply _makeChildren_few_parents; [|done].
    by rewrite (cu_conf _ _ _ _ _ H).
  - intros Htwo.
    assert (2 ≤ length (population s1)) as Hge by lia.
    split; [|intros n children; by apply make_children_is_Ok].
    intros g.
    destruct (choice_is_Ok (population s1) 2 g) as [[l g'] Hc]; [lia|].
    pose proof Hc as (_ & mother & father & -> & Hsub)%choice_two.
    exists mother, father, g'. split; [done|].
    split; [eapply elem_of_submseteq; [|done]; left|].
    split; [eapply elem_of_submseteq; [|done]; right; left|].
    intros Hnd. apply (culls_NoDup H) in Hnd.
    apply (submseteq_NoDup _ _ Hsub) in Hnd.
    apply NoDup_cons in Hnd as [Hnot _].
    intros ->. apply Hnot. left.
Qed.

(** ** Culling *)

(** C3.  In a culling, the bottom-keep indices are drawn without
    replacement from the indices of the sorted population that are not
    top-keep indices; the two index sets have nothing in common (the
    assertion of [_killUnfit] never fails); the new population consists
    of the models at the top-keep indices followed by those at the
    bottom-keep indices; and, for a non-negative [keepTopN], it has
    [keepTopN + keepBtmN] models. *)
Theorem cull_keeps_disjoint_index_sets s :
  _killUnfit s ≠ Raise AssertionError ∧
  ∀ s', _killUnfit s = Ok s' →
    ∃ (btmKeepInds : list nat) (sorted : list ref),
      _sortPopByFitness s = Ok (set_population sorted s) ∧
      sorted ≡ₚ population s ∧
      topKeepInds s = seq 0 (Z.to_nat (keepTopN (conf s))) ∧
      (∀ i, i ∈ remainingInds (set_population sorted s) ↔
            i < length sorted ∧ i ∉ topKeepInds s) ∧
      choice (remainingInds (set_population sorted s))
        (keepBtmN (conf s)) (np_random s)
        = Ok (btmKeepInds, np_random s') ∧
      NoDup btmKeepInds ∧
      (∀ i, i ∈ btmKeepInds →
            i < length sorted ∧ i ∉ topKeepInds s) ∧
      Z.of_nat (length btmKeepInds) = keepBtmN (conf s) ∧
      (∀ i, ¬ (i ∈ topKeepInds s ∧ i ∈ btmKeepInds)) ∧
      Forall2 (λ i m, sorted !! i = Some m)
        (topKeepInds s ++ btmKeepInds) (population s') ∧
      length (population s')
        = length (topKeepInds s) + length btmKeepInds ∧
      ((0 ≤ keepTopN (conf s))%Z →
       Z.of_nat (length (population s'))
         = (keepTopN (conf s) + keepBtmN (conf s))%Z).
Proof.
  split.
  - intros H. apply _killUnfit_Raise in H as [H|[H|H]]; done.
  - intros s' Hkill. apply _killUnfit_Ok in Hkill as (btm & p & H).
    exists btm, p.
    destruct (culls_btm H) as (Hnd & Hlen & Hrange).
    split; [apply (cu_sorted _ _ _ _ _ H)|].
    split; [apply (culls_perm H)|].
    split; [done|].
    split; [intros i; apply elem_of_remaining|].
    split; [apply (cu_drawn _ _ _ _ _ H)|].
    split; [done|].
    split.
    { intros i Hi. split; [by apply Hrange|].
      intros Htop. by apply (culls_disjoint H i). }
    split; [done|].
    split; [intros i [Htop Hbtm]; by apply (culls_disjoint H i)|].
    split; [apply (cu_keep _ _ _ _ _ H)|].
    split; [apply (culls_length H)|].
    intros Htop. rewrite (culls_length H). unfold topKeepInds.
    rewrite length_seq. lia.
Qed.

(** ** Breeding *)

(** [np.random.choice(a)] returns the element whose index is the next
    draw, taken modulo the length: every element is returned for
    exactly one residue of the draw. *)
Lemma choice_one_draw {A} (a : list A) (g : RandomState) (j : nat) x :
  a !! j = Some x → draws g (cursor g) `mod` length a = j →
  choice_one a g = Ok (x, mkRandomState (draws g) (S (cursor g))).
Proof. intros Hx Hj. unfold choice_one. simpl. by rewrite Hj, Hx. Qed.

Lemma make_children_with_mutate frac k n cs s :
  make_children n cs (with_mutate frac k s) =
    match make_children n cs s with
    | Ok (cs', s') => Ok (cs', with_mutate frac k s')
    | Raise e => Raise e
    end.
Proof.
  revert cs s. induction n as [|n IH]; intros cs s; simpl; [done|].
  destruct (choice (population s) 2 (np_random s)) as [[parents g]|e];
    simpl; [|done].
  destruct parents as [|m [|f [|? ?]]]; try done.
  destruct (makeChildModel _ _ _ _) as [h g'].
  exact (IH _ (new_object (mkModel h None) (set_np_random g' s)).2).
Qed.

Lemma _makeChildren_with_mutate frac k s :
  _makeChildren (with_mutate frac k s) =
    match _makeChildren s with
    | Ok s' => Ok (with_mutate frac k s')
    | Raise e => Raise e
    end.
Proof.
  unfold _makeChildren. simpl. rewrite make_children_with_mutate.
  destruct (make_children _ _ s) as [[children s1]|e]; simpl; [|done].
  destruct (choice_one children (np_random s1)) as [[c g]|e]; simpl;
    [|done].
  unfold mutate. simpl. by destruct (mutateModel _ _ _).
Qed.

(** C6.  When [_makeChildren] completes, its loop has made [makeChildN]
    new models, one at least.  After the loop one of them is chosen, the
    one at the index drawn, and [mutateModel] is called on it, once:
    that child's hyperparameters are replaced by the mutated ones, its
    fitness stays unset, and no other object changes.  Then all the
    children are appended to the population.  The values of
    [mutateFrac] and [mutateN] have no influence on any of this.
    [_makeChildren] does complete when the population has two models
    and there is a child to make. *)
Theorem makeChildren_mutates_one_child s :
  (∀ s', _makeChildren s = Ok s' →
     ∃ (children : list ref) (childToMutate : ref) (s1 : State hyper),
       make_children (Z.to_nat (makeChildN (conf s))) [] s
         = Ok (children, s1) ∧
       children = seq (allocated s) (Z.to_nat (makeChildN (conf s))) ∧
       (1 ≤ makeChildN (conf s))%Z ∧
       Z.of_nat (length children) = makeChildN (conf s) ∧
       children !! (draws (np_random s1) (cursor (np_random s1))
                      `mod` length children) = Some childToMutate ∧
       mutateCalls s' = mutateCalls s ++ [childToMutate] ∧
       hyperparams (objects s' childToMutate) =
         (mutateModel (modelMaker (conf s))
            (hyperparams (objects s1 childToMutate))
            (randint (length children) (np_random s1)).2).1 ∧
       (∀ r, r ≠ childToMutate → objects s' r = objects s1 r) ∧
       (∀ r, r ∈ children → fitness_of s' r = None) ∧
       (∀ r, r < allocated s → objects s' r = objects s r) ∧
       population s' = population s ++ children ∧
       ∀ frac k,
         _makeChildren (with_mutate frac k s) = Ok (with_mutate frac k s')) ∧
  ((1 ≤ makeChildN (conf s))%Z → 2 ≤ length (population s) →
   is_Ok (_makeChildren s)).
Proof.
  split; [|apply _makeChildren_is_Ok].
  intros s' Hs'.
  pose proof (_makeChildren_Ok _ _ Hs') as (children & c & s1 & H).
  exists children, c, s1.
  pose proof (breeds_makeChildN _ _ _ _ _ H) as Hn.
  split; [apply (br_loop _ _ _ _ _ H)|].
  split; [apply (br_children _ _ _ _ _ H)|].
  split; [done|].
  split; [rewrite (br_children _ _ _ _ _ H), length_seq; lia|].
  split; [apply (br_chosen _ _ _ _ _ H)|].
  split; [apply (br_mutateCalls _ _ _ _ _ H)|].
  split; [apply (br_mutated _ _ _ _ _ H)|].
  split; [apply (br_others _ _ _ _ _ H)|].
  split; [apply (br_fitness _ _ _ _ _ H)|].
  split; [apply (br_old _ _ _ _ _ H)|].
  split; [apply (br_population _ _ _ _ _ H)|].
  intros frac k. by rewrite _makeChildren_with_mutate, Hs'.
Qed.

(** ** The loop of [evolve] *)

(** [stopCond] is computed once, from counters that are both 0. *)
Lemma initial_stopCond_spec (maxIters maxItersNoImprov : option Z) :
  maxIters ≠ None ∨ maxItersNoImprov ≠ None →
  initial_stopCond maxIters maxItersNoImprov =
    Ok (bool_decide (maxIters = Some 0%Z ∨ maxItersNoImprov = Some 0%Z)).
Proof.
  intros Hsome. unfold initial_stopCond.
  destruct maxIters as [mi|]; simpl; f_equal.
  - destruct (decide (0%Z = mi)) as [<-|Hmi].
    + rewrite bool_decide_eq_true_2 by done. by simpl.
    + rewrite (bool_decide_eq_false_2 (0%Z = mi)) by done. simpl.
      apply bool_decide_ext. split; [intros <-; by right|].
      intros [[= Heq]| ->]; [lia|done].
  - apply bool_decide_ext. split; [intros <-; by right|].
    by intros [?| ->].
Qed.

(** What [evolve] does: it fills an empty population, and then either
    returns at once, when one of the two thresholds is 0, or goes
    through generation after generation. *)
Lemma evolve_unfold fuel (maxIters maxItersNoImprov : option Z) s :
  maxIters ≠ None ∨ maxItersNoImprov ≠ None →
  ∃ s0,
    (if bool_decide (length (population s) = 0)
     then _initializePop s else Ok s) = Ok s0 ∧
    conf s0 = conf s ∧ (wf s → wf s0) ∧
    (population s = [] →
     length (population s0) = Z.to_nat (popSize (conf s))) ∧
    evolve fuel maxIters maxItersNoImprov s =
      if bool_decide (maxIters = Some 0%Z ∨ maxItersNoImprov = Some 0%Z)
      then Returned s0 0 0
      else
        match generations fuel s0 0 0 with
        | Ok (s', iters, itersNoImprov) => Running s' iters itersNoImprov
        | Raise e => Raised e
        end.
Proof.
  intros Hsome. unfold evolve.
  rewrite (bool_decide_eq_true_2
             (maxIters ≠ None ∨ maxItersNoImprov ≠ None)) by done.
  rewrite initial_stopCond_spec by done.
  assert (∀ s0, evolve_loop fuel
                  (bool_decide
                     (maxIters = Some 0%Z ∨ maxItersNoImprov = Some 0%Z))
                  s0 0 0 =
                if bool_decide
                     (maxIters = Some 0%Z ∨ maxItersNoImprov = Some 0%Z)
                then Returned s0 0 0
                else
                  match generations fuel s0 0 0 with
                  | Ok (s', iters, itersNoImprov) =>
                      Running s' iters itersNoImprov
                  | Raise e => Raised e
                  end) as Hloop.
  { intros s0. destruct (bool_decide _).
    - apply evolve_loop_true.
    - apply evolve_loop_false. }
  destruct (decide (length (population s) = 0)) as [Hlen|Hlen].
  - rewrite (bool_decide_eq_true_2 _ Hlen).
    apply nil_length_inv in Hlen.
    destruct (_initializePop_is_Ok s Hlen) as [s0 Hinit].
    exists s0. rewrite Hinit. split; [done|].
    pose proof (_initializePop_Ok _ _ Hinit) as (_ & Hp & Ha).
    split; [apply (al_conf _ _ _ Ha)|].
    split; [intros Hwf; by eapply wf_initializePop|].
    split; [intros _; by rewrite Hp, length_seq|].
    apply Hloop.
  - rewrite (bool_decide_eq_false_2 _ Hlen).
    exists s. split; [done|]. split; [done|]. split; [done|].
    split; [intros Hnil; by rewrite Hnil in Hlen|]. apply Hloop.
Qed.

(** Under a runnable configuration the loop, once entered, goes on for
    as many generations as it is given fuel for. *)
Lemma evolve_runs_on fuel (maxIters maxItersNoImprov : option Z) s :
  maxIters ≠ None ∨ maxItersNoImprov ≠ None →
  maxIters ≠ Some 0%Z → maxItersNoImprov ≠ Some 0%Z →
  wf s → runnable (conf s) →
  population s = [] ∨
    Z.of_nat (length (population s)) = popSize (conf s) →
  ∃ s' n,
    evolve fuel maxIters maxItersNoImprov s
      = Running s' (Z.of_nat fuel) n.
Proof.
  intros Hsome Hmi Hmn Hwf Hrun Hpop.
  destruct (evolve_unfold fuel maxIters maxItersNoImprov s Hsome)
    as (s0 & Hs0 & Hc & Hwf0 & Hlen & ->).
  rewrite bool_decide_eq_false_2 by by intros [?|?].
  destruct (generations_is_Ok fuel s0 0 0) as [[[s' i'] n'] Hgen].
  - by apply Hwf0.
  - by rewrite Hc.
  - rewrite Hc. destruct Hpop as [Hnil|Hfull].
    + rewrite (Hlen Hnil). destruct Hrun as (? & ? & ? & ? & ?). lia.
    + case_bool_decide as Hz; [|by injection Hs0 as <-].
      apply nil_length_inv in Hz. rewrite (Hlen Hz).
      destruct Hrun as (? & ? & ? & ? & ?). lia.
  - rewrite Hgen.
    apply generations_facts in Hgen as (_ & _ & _ & ->).
    by exists s', n'.
Qed.

(** ** The size of the population *)

Lemma generations_length k s i n s' i' n' :
  k ≠ 0 → generations k s i n = Ok (s', i', n') →
  (0 ≤ keepTopN (conf s))%Z →
  (keepTopN (conf s) + keepBtmN (conf s) + makeChildN (conf s)
     ≤ popSize (conf s))%Z →
  Z.of_nat (length (population s')) = popSize (conf s).
Proof.
  revert s i n. induction k as [|k IH]; intros s i n Hk; [done|].
  simpl. intros H Htop Hsum. inv_bind H. destruct a as [[s1 i1] n1].
  destruct k as [|k].
  - simpl in H. injection H as <- <- <-.
    by eapply generation_length.
  - apply generation_facts in Hstep as (Hc1 & _).
    rewrite <- Hc1. eapply (IH s1 i1 n1); [done|done|..];
      by rewrite Hc1.
Qed.

(** C2.  Under a configuration with [0 ≤ keepTopN] and
    [keepTopN + keepBtmN + makeChildN ≤ popSize], the population has
    exactly [popSize] models at the end of every completed generation,
    hence in every state that [evolve] reaches after one generation or
    more.  The refill phase appends as many newly made random models as
    are missing for [popSize], one per turn of its loop, all with unset
    fitness, and leaves a population of [popSize] models or more as it
    is. *)
Theorem generation_restores_population_size s :
  (0 ≤ keepTopN (conf s))%Z →
  (keepTopN (conf s) + keepBtmN (conf s) + makeChildN (conf s)
     ≤ popSize (conf s))%Z →
  (∀ i n s' i' n',
     generation s i n = Ok (s', i', n') →
     Z.of_nat (length (population s')) = popSize (conf s')) ∧
  (∀ k i n s' i' n',
     k ≠ 0 → generations k s i n = Ok (s', i', n') →
     Z.of_nat (length (population s')) = popSize (conf s')) ∧
  (∀ fuel maxIters maxItersNoImprov,
     match evolve fuel maxIters maxItersNoImprov s with
     | Returned s' iters _ | Running s' iters _ =>
         iters ≠ 0%Z →
         Z.of_nat (length (population s')) = popSize (conf s')
     | Raised _ => True
     end) ∧
  (∀ s5 : State hyper,
     population (_makeRemainingRandomModels s5)
       = population s5 ++ seq (allocated s5) (deficit s5) ∧
     (∀ r, r ∈ seq (allocated s5) (deficit s5) →
           fitness_of (_makeRemainingRandomModels s5) r = None) ∧
     _makeRemainingRandomModels s5 =
       (if bool_decide
             (Z.of_nat (length (population s5)) < popSize (conf s5))%Z
        then
          let '(r, s6) := make_random s5 in
          _makeRemainingRandomModels
            (set_population (population s6 ++ [r]) s6)
        else s5) ∧
     ((popSize (conf s5) ≤ Z.of_nat (length (population s5)))%Z →
      _makeRemainingRandomModels s5 = s5)).
Proof.
  intros Htop Hsum. split; [|split; [|split]].
  - intros i n s' i' n' H.
    pose proof (generation_facts _ _ _ _ _ _ H) as (-> & _).
    by eapply generation_length.
  - intros k i n s' i' n' Hk H.
    pose proof (generations_facts _ _ _ _ _ _ _ H) as (-> & _).
    by eapply generations_length.
  - intros fuel maxIters maxItersNoImprov.
    destruct (decide (maxIters ≠ None ∨ maxItersNoImprov ≠ None))
      as [Hsome|Hnone].
    + destruct (evolve_unfold fuel maxIters maxItersNoImprov s Hsome)
        as (s0 & _ & Hc & _ & _ & ->).
      case_bool_decide; [done|].
      destruct (generations fuel s0 0 0) as [[[s' i'] n']|e] eqn:Hgen;
        [|done].
      intros Hi.
      pose proof (generations_facts _ _ _ _ _ _ _ Hgen) as (-> & _ & _ & ->).
      eapply generations_length; [|done|by rewrite Hc..].
      intros ->. by apply Hi.
    + unfold evolve. by rewrite bool_decide_eq_false_2.
  - intros s5. destruct (_makeRemainingRandomModels_spec s5) as [Hp Ha].
    split; [done|]. split; [|split].
    + intros r Hr. apply (al_new _ _ _ Ha). apply elem_of_seq in Hr. lia.
    + apply _makeRemainingRandomModels_unfold.
    + intros Hfull. unfold _makeRemainingRandomModels.
      by assert (Z.to_nat
                   (popSize (conf s5)
                    - Z.of_nat (length (population s5))) = 0) as -> by lia.
Qed.

(** ** Scoring *)

(** C5.  In a scoring phase the evaluator is called exactly once on
    each model of the population whose fitness is unset and on no other
    model; what it returns is stored in the model's slot, the other
    slots and all hyperparameters stay as they are, and the whole
    population holds a fitness afterwards.  Over any number of
    generations, a model that holds a fitness is not passed to the
    evaluator again, and no model is ever passed to it twice. *)
Theorem evaluator_called_once_per_unset_candidate s :
  (∃ calls : list (ref * Q),
     scoreCalls (_scoreModelsInPop s) = scoreCalls s ++ calls ∧
     NoDup calls.*1 ∧
     (∀ r, r ∈ calls.*1 ↔ r ∈ population s ∧ fitness_of s r = None) ∧
     (∀ r q, (r, q) ∈ calls →
        fitness_of (_scoreModelsInPop s) r = Some q ∧
        ∃ g, (scoreModel (modelScorer (conf s))
                (hyperparams (objects s r)) g).1 = q) ∧
     (∀ r, r ∉ calls.*1 →
        fitness_of (_scoreModelsInPop s) r = fitness_of s r) ∧
     (∀ r, hyperparams (objects (_scoreModelsInPop s) r)
           = hyperparams (objects s r)) ∧
     (∀ r, r ∈ population s →
        is_Some (fitness_of (_scoreModelsInPop s) r)) ∧
     population (_scoreModelsInPop s) = population s) ∧
  (∀ k i n s' i' n',
     generations k s i n = Ok (s', i', n') →
     ∃ calls : list (ref * Q),
       scoreCalls s' = scoreCalls s ++ calls ∧
       (∀ r, r < allocated s → is_Some (fitness_of s r) →
             r ∉ calls.*1) ∧
       (wf s → NoDup (scoreCalls s').*1)).
Proof.
  split.
  - destruct (_scoreModelsInPop_spec s) as (l & Hsc & Hmem & Hset).
    exists l. split; [apply (sc_calls _ _ _ Hsc)|].
    split; [apply (sc_NoDup _ _ _ Hsc)|]. split; [done|].
    split.
    { intros r q Hin.
      by destruct (sc_stored _ _ _ Hsc r q Hin) as (_ & ? & ?). }
    split; [apply (sc_kept _ _ _ Hsc)|].
    split; [apply (sc_hyper _ _ _ Hsc)|].
    split; [done|apply (sc_population _ _ _ Hsc)].
  - intros k i n s' i' n' Hgen.
    apply generations_facts in Hgen as (_ & Hl & Hwf & _).
    destruct (lt_scoreCalls _ _ Hl) as (l & Hcalls & Hnone).
    exists l. split; [done|]. split.
    + intros r Hr [q Hq] [[r' q'] [Heq Hin]]%list_elem_of_fmap.
      simpl in Heq. subst r'.
      rewrite (Hnone r q' Hin Hr) in Hq. done.
    + intros Hwf0. apply (wf_scored _ (Hwf Hwf0)).
Qed.

(** ** The remembered best model *)

Lemma generation_tail s3 s4 s5 :
  _killUnfit s3 = Ok s4 → _makeChildren s4 = Ok s5 →
  later s3 (_makeRemainingRandomModels s5) ∧
  bestModel (_makeRemainingRandomModels s5) = bestModel s3 ∧
  graveyard (_makeRemainingRandomModels s5) = graveyard s4.
Proof.
  intros H4 H5.
  apply _killUnfit_Ok in H4 as (btm & p & H4).
  apply _makeChildren_Ok in H5 as (children & c & s1 & H5).
  destruct (_makeRemainingRandomModels_spec s5) as [_ H6].
  split; [|split].
  - apply later_trans with s4; [by eapply culls_later|].
    apply later_trans with s5; [by eapply breeds_later|].
    by eapply allocates_later.
  - by rewrite (al_bestModel _ _ _ H6), (br_bestModel _ _ _ _ _ H5),
      (cu_bestModel _ _ _ _ _ H4).
  - by rewrite (al_graveyard _ _ _ H6), (br_graveyard _ _ _ _ _ H5).
Qed.

Lemma generation_bestModel s i n s' i' n' :
  wf s → generation s i n = Ok (s', i', n') →
  ∃ best s2 x,
    _getBestModel (_scoreModelsInPop s) = Ok (best, s2) ∧
    fitness_of s' best = Some x ∧
    i' = (i + 1)%Z ∧
    match bestModel s with
    | None => bestModel s' = Some best ∧ n' = 0%Z
    | Some b =>
        ∃ y, fitness_of s b = Some y ∧ fitness_of s' b = Some y ∧
             ((y < x)%Q → bestModel s' = Some best ∧ n' = 0%Z) ∧
             ((x <= y)%Q → bestModel s' = Some b ∧ n' = (n + 1)%Z)
    end.
Proof.
  intros Hwf (s3 & s4 & s5 & H3 & H4 & H5 & ->)%generation_Ok.
  destruct (generation_tail _ _ _ H4 H5) as (Hl & Hb & _).
  apply track_best_Ok in H3
    as (best & s2 & improved & Hbest & Himp & -> & -> & ->).
  destruct (_getBestModel_Ok _ _ _ Hbest) as [Hsort Hhead].
  destruct (_sortPopByFitness_Ok _ _ Hsort) as (p & -> & Hp).
  destruct (_scoreModelsInPop_spec s) as (l & Hsc & _ & Hset).
  pose proof (wf_scoreModelsInPop s Hwf) as Hwf1.
  pose proof (scores_later _ _ _ Hsc) as Hl1.
  simpl in Hhead.
  assert (best ∈ population (_scoreModelsInPop s)) as Hin.
  { rewrite <- Hp. by eapply list_elem_of_lookup_2. }
  pose proof (wf_population _ Hwf1 best Hin) as Hlt.
  rewrite (sc_population _ _ _ Hsc) in Hin.
  destruct (Hset best Hin) as [x Hx].
  set (s2 := set_population p (_scoreModelsInPop s)) in *.
  assert (∀ r q, r < allocated (_scoreModelsInPop s) →
                 fitness_of (_scoreModelsInPop s) r = Some q →
                 fitness_of
                   (_makeRemainingRandomModels s5) r = Some q) as Hkeep.
  { intros r q Hr Hq. apply (lt_fitness _ _ Hl); by destruct improved. }
  exists best, s2, x. split; [done|]. split; [by apply Hkeep|].
  split; [done|].
  rewrite Hb.
  destruct (bestModel s) as [b|] eqn:Hbs.
  - destruct (wf_bestModel _ Hwf b Hbs) as [Hblt [y Hy]].
    pose proof (lt_fitness _ _ Hl1 b y Hblt Hy) as Hy1.
    exists y. split; [done|]. split.
    { apply Hkeep; [by rewrite (sc_allocated _ _ _ Hsc)|done]. }
    apply fitter_Ok in Himp as (x' & y' & Hx' & Hy' & ->).
    assert (x' = x) as -> by (unfold s2, fitness_of in *; simpl in *;
                              congruence).
    assert (y' = y) as -> by (unfold s2, fitness_of in *; simpl in *;
                              congruence).
    assert (bestModel s2 = Some b) as Hb2
      by (unfold s2; simpl; by rewrite (sc_bestModel _ _ _ Hsc)).
    split.
    + intros Hlt'. apply negb_Qle_bool in Hlt'. by rewrite Hlt'.
    + intros Hle. apply Qle_bool_iff in Hle. by rewrite Hle.
  - subst improved. done.
Qed.

(** C4.  Within a run that starts in a well-formed state: a generation
    replaces the remembered best by its own best model exactly when
    none is remembered yet or its best is strictly fitter, and then
    sets the no-improvement counter to 0; otherwise the remembered best
    stays and the counter goes up by one.  The fitness of a remembered
    model does not change.  So over any number of generations the
    fitness of the remembered best does not decrease, and if another
    model is remembered in the end, that model is strictly fitter. *)
Theorem bestModel_fitness_never_decreases s :
  wf s →
  (∀ i n s' i' n',
     generation s i n = Ok (s', i', n') →
     ∃ best s2 x,
       _getBestModel (_scoreModelsInPop s) = Ok (best, s2) ∧
       fitness_of s' best = Some x ∧
       i' = (i + 1)%Z ∧
       match bestModel s with
       | None => bestModel s' = Some best ∧ n' = 0%Z
       | Some b =>
           ∃ y, fitness_of s b = Some y ∧ fitness_of s' b = Some y ∧
                ((y < x)%Q → bestModel s' = Some best ∧ n' = 0%Z) ∧
                ((x <= y)%Q → bestModel s' = Some b ∧ n' = (n + 1)%Z)
       end) ∧
  (∀ k i n s' i' n' b y,
     generations k s i n = Ok (s', i', n') →
     bestModel s = Some b → fitness_of s b = Some y →
     ∃ b' y',
       bestModel s' = Some b' ∧ fitness_of s' b' = Some y' ∧
       (y <= y')%Q ∧ (b' ≠ b → (y < y')%Q)).
Proof.
  intros Hwf. split.
  - intros i n s' i' n'. by apply generation_bestModel.
  - intros k. revert s Hwf.
    induction k as [|k IH]; intros s Hwf i n s' i' n' b y; simpl.
    + intros [= <- <- <-] Hb Hy. exists b, y.
      split; [done|]. split; [done|]. split; [apply Qle_refl|done].
    + intros H Hb Hy. inv_bind H. destruct a as [[s1 i1] n1].
      destruct (generation_bestModel _ _ _ _ _ _ Hwf Hstep)
        as (best & s2 & x & _ & Hx & _ & Hcase).
      apply generation_facts in Hstep as (_ & _ & Hwf1).
      specialize (Hwf1 Hwf).
      rewrite Hb in Hcase. destruct Hcase as (y0 & Hy0 & Hy1 & Hup & Hkeep).
      assert (y0 = y) as -> by congruence.
      destruct (Qlt_le_dec y x) as [Hlt|Hle].
      * destruct (Hup Hlt) as [Hb1 _].
        destruct (IH s1 Hwf1 _ _ _ _ _ best x H Hb1 Hx)
          as (b' & y' & Hb' & Hy' & Hle' & _).
        exists b', y'. split; [done|]. split; [done|].
        assert (y < y')%Q by by eapply Qlt_le_trans.
        split; [by apply Qlt_le_weak|done].
      * destruct (Hkeep Hle) as [Hb1 _].
        destruct (IH s1 Hwf1 _ _ _ _ _ b y H Hb1 Hy1)
          as (b' & y' & Hb' & Hy' & Hle' & Hne').
        by exists b', y'.
Qed.

(** ** The graveyard *)

Lemma culls_models_at top btm p s s' :
  culls top btm p s s' → population s' = models_at p (top ++ btm).
Proof.
  intros H. symmetry. apply models_at_Forall2, (cu_keep _ _ _ _ _ H).
Qed.

Lemma culls_unfit top btm p s s' :
  culls top btm p s s' → NoDup (population s) →
  filter (λ m, m ∉ population s') p
    = models_at p (unfitInds top btm (length p)) ∧
  length (models_at p (unfitInds top btm (length p))) = unfit_count s.
Proof.
  intros H Hnd.
  assert (NoDup p) as Hp by by rewrite (culls_perm H).
  assert (filter (λ m, m ∉ population s') p
          = models_at p (unfitInds top btm (length p))) as Heq.
  { rewrite (culls_models_at _ _ _ _ _ H).
    pose proof (filter_models_at p (top ++ btm) (seq 0 (length p)) Hp)
      as Hf.
    by rewrite models_at_all in Hf. }
  split; [done|]. rewrite <- Heq.
  pose proof (culls_removed H Hnd) as Hrem.
  pose proof (culls_length H) as Hlen.
  destruct (culls_btm H) as (_ & Hb & _).
  rewrite (cu_top _ _ _ _ _ H), length_seq in Hlen.
  unfold unfit_count. lia.
Qed.

Lemma culls_unfit_elem_of top btm p s s' i m :
  culls top btm p s s' → NoDup (population s) → p !! i = Some m →
  (i ∈ top ++ btm →
   m ∈ population s' ∧ m ∉ models_at p (unfitInds top btm (length p))) ∧
  (i ∉ top ++ btm →
   m ∈ models_at p (unfitInds top btm (length p)) ∧ m ∉ population s').
Proof.
  intros H Hnd Hm.
  assert (NoDup p) as Hp by by rewrite (culls_perm H).
  rewrite (culls_models_at _ _ _ _ _ H), !elem_of_models_at.
  assert (∀ inds : list nat,
            (∃ j, j ∈ inds ∧ p !! j = Some m) ↔ i ∈ inds) as Hiff.
  { intros inds. split.
    - intros (j & Hj & Hjm). by rewrite (NoDup_lookup _ _ _ _ Hp Hm Hjm).
    - intros Hi. by exists i. }
  rewrite !Hiff. unfold unfitInds. rewrite list_elem_of_filter, elem_of_seq.
  apply lookup_lt_Some in Hm. split.
  - intros Hi. split; [done|]. by intros [? _].
  - intros Hi. split; [|done]. split; [done|lia].
Qed.

Lemma culls_count top btm p s s' :
  culls top btm p s s' → (0 ≤ keepTopN (conf s))%Z →
  Z.of_nat (unfit_count s)
    = (Z.of_nat (length (population s))
       - keepTopN (conf s) - keepBtmN (conf s))%Z.
Proof.
  intros H Htop. unfold unfit_count.
  pose proof (culls_length H) as Hlen.
  pose proof (culls_top_le H) as Hle.
  destruct (culls_btm H) as (_ & Hb & Hrange).
  pose proof (Permutation_length (culls_perm H)) as Hp.
  rewrite (cu_top _ _ _ _ _ H), length_seq in Hlen, Hle.
  assert (length (population s') ≤ length p) as Hkept.
  { pose proof (culls_inds_NoDup H) as Hnd.
    assert (top ++ btm ⊆+ seq 0 (length p)) as Hsub.
    { apply NoDup_submseteq; [done|]. intros i [Hi|Hi]%elem_of_app.
      - rewrite (cu_top _ _ _ _ _ H) in Hi. apply elem_of_seq in Hi.
        apply elem_of_seq. lia.
      - apply Hrange in Hi. apply elem_of_seq. lia. }
    apply submseteq_length in Hsub.
    rewrite length_seq, length_app in Hsub.
    rewrite (cu_top _ _ _ _ _ H), length_seq in Hsub. lia. }
  lia.
Qed.

Lemma generation_graveyard s i n s' i' n' :
  keepGraveyard (conf s) = true → wf s →
  generation s i n = Ok (s', i', n') →
  ∃ s3 s4,
    track_best s i n = Ok (s3, i', n') ∧ _killUnfit s3 = Ok s4 ∧
    keepGraveyard (conf s3) = true ∧ wf s3 ∧
    graveyard s3 = graveyard s ∧ graveyard s' = graveyard s4 ∧
    length (graveyard s') = length (graveyard s) + unfit_count s ∧
    ((0 ≤ keepTopN (conf s))%Z →
     Z.of_nat (unfit_count s)
       = (Z.of_nat (length (population s))
          - keepTopN (conf s) - keepBtmN (conf s))%Z).
Proof.
  intros Hkeep Hwf Hgen.
  apply generation_Ok in Hgen as (s3 & s4 & s5 & H3 & H4 & H5 & ->).
  destruct (generation_tail _ _ _ H4 H5) as (_ & _ & Hg).
  exists s3, s4.
  pose proof (track_best_facts _ _ _ _ _ _ H3)
    as (Hc3 & _ & Hg3 & _ & Hp3 & _ & _ & Hwf3).
  split; [done|]. split; [done|].
  split; [by rewrite Hc3|]. split; [by apply Hwf3|].
  split; [done|]. split; [done|].
  destruct (_killUnfit_Ok _ _ H4) as (btm & p & Hcu).
  destruct (culls_unfit _ _ _ _ _ Hcu (wf_NoDup _ (Hwf3 Hwf))) as [Heq Hlen].
  assert (unfit_count s3 = unfit_count s) as Hsame.
  { unfold unfit_count. by rewrite Hc3, (Permutation_length Hp3). }
  split.
  - rewrite Hg, (cu_graveyard _ _ _ _ _ Hcu), Hc3, Hkeep, Hg3, length_app.
    by rewrite Heq, Hlen, Hsame.
  - intros Htop. rewrite <- Hsame, <- (Permutation_length Hp3), <- Hc3.
    apply (culls_count _ _ _ _ _ Hcu). by rewrite Hc3.
Qed.

(** C7.  With [keepGraveyard] set, in a run that starts in a well-formed
    state.  A culling keeps the models at the top-keep indices and at
    the bottom-keep indices drawn from the others, and appends to the
    graveyard the models at all the other indices of the sorted
    population, in their order: every model that is at neither a
    top-keep nor a bottom-keep index leaves the population and gets
    into the graveyard, once, and no model that is kept does; they are
    [length population - keepTopN - keepBtmN] models, as many as the
    population loses.  Nothing else in a generation touches the
    graveyard.  So after any number of generations the graveyard is
    what it was followed by further entries, nothing of it having been
    removed, and it has grown by the number of models that the
    cullings did not keep; from a full population and under counts
    that fit in [popSize], that is
    [popSize - keepTopN - keepBtmN] per generation. *)
Theorem graveyard_counts_every_discard s :
  keepGraveyard (conf s) = true → wf s →
  (∀ s4, _killUnfit s = Ok s4 →
     ∃ (sorted : list ref) (btmKeepInds : list nat) (unfitMods : list ref),
       _sortPopByFitness s = Ok (set_population sorted s) ∧
       choice (filter (λ i, i ∉ topKeepInds s) (seq 0 (length sorted)))
         (keepBtmN (conf s)) (np_random s)
         = Ok (btmKeepInds, np_random s4) ∧
       population s4 = models_at sorted (topKeepInds s ++ btmKeepInds) ∧
       unfitMods
         = models_at sorted
             (unfitInds (topKeepInds s) btmKeepInds (length sorted)) ∧
       graveyard s4 = graveyard s ++ unfitMods ∧
       (∀ i m, sorted !! i = Some m →
          (i ∈ topKeepInds s ++ btmKeepInds →
           m ∈ population s4 ∧ m ∉ unfitMods) ∧
          (i ∉ topKeepInds s ++ btmKeepInds →
           m ∈ unfitMods ∧ m ∉ population s4)) ∧
       NoDup unfitMods ∧
       length unfitMods = unfit_count s ∧
       unfit_count s = length (population s) - length (population s4)) ∧
  (∀ i n s' i' n',
     generation s i n = Ok (s', i', n') →
     ∃ s3 s4,
       track_best s i n = Ok (s3, i', n') ∧ _killUnfit s3 = Ok s4 ∧
       keepGraveyard (conf s3) = true ∧ wf s3 ∧
       graveyard s3 = graveyard s ∧ graveyard s' = graveyard s4 ∧
       length (graveyard s') = length (graveyard s) + unfit_count s) ∧
  (∀ k i n s' i' n',
     generations k s i n = Ok (s', i', n') →
     graveyard s `prefix_of` graveyard s' ∧
     length (graveyard s')
       = length (graveyard s) + total_unfit k s i n) ∧
  ((0 ≤ keepTopN (conf s))%Z →
   (keepTopN (conf s) + keepBtmN (conf s) + makeChildN (conf s)
      ≤ popSize (conf s))%Z →
   Z.of_nat (length (population s)) = popSize (conf s) →
   ∀ k i n s' i' n',
     generations k s i n = Ok (s', i', n') →
     Z.of_nat (length (graveyard s'))
       = (Z.of_nat (length (graveyard s))
          + Z.of_nat k
            * (popSize (conf s) - keepTopN (conf s) - keepBtmN (conf s)))%Z).
Proof.
  intros Hkeep Hwf. split; [|split; [|split]].
  - intros s4 H4. apply _killUnfit_Ok in H4 as (btm & p & H4).
    pose proof (wf_NoDup _ Hwf) as Hnd.
    destruct (culls_unfit _ _ _ _ _ H4 Hnd) as [Heq Hlen].
    exists p, btm, (models_at p (unfitInds (topKeepInds s) btm (length p))).
    pose proof (cu_top _ _ _ _ _ H4) as Htop.
    change (seq 0 (Z.to_nat (keepTopN (conf s)))) with (topKeepInds s)
      in Htop.
    split; [apply (cu_sorted _ _ _ _ _ H4)|].
    split; [apply (cu_drawn _ _ _ _ _ H4)|].
    split; [apply (culls_models_at _ _ _ _ _ H4)|].
    split; [done|].
    split; [by rewrite (cu_graveyard _ _ _ _ _ H4), Hkeep, Heq|].
    split; [intros i m Hm; by apply (culls_unfit_elem_of _ _ _ _ _ _ _ H4)|].
    split.
    { rewrite <- Heq. apply NoDup_filter. by rewrite (culls_perm H4). }
    split; [done|].
    pose proof (culls_removed H4 Hnd) as Hrem. rewrite Heq, Hlen in Hrem.
    lia.
  - intros i n s' i' n' Hgen.
    destruct (generation_graveyard _ _ _ _ _ _ Hkeep Hwf Hgen)
      as (s3 & s4 & H3 & H4 & Hk3 & Hwf3 & Hg3 & Hg & Hlen & _).
    by exists s3, s4.
  - intros k. revert s Hkeep Hwf.
    induction k as [|k IH]; intros s Hkeep Hwf i n s' i' n'; simpl.
    + intros [= <- <- <-]. split; [done|lia].
    + intros H. inv_bind H. destruct a as [[s1 i1] n1]. rewrite Hstep.
      destruct (generation_graveyard _ _ _ _ _ _ Hkeep Hwf Hstep)
        as (_ & _ & _ & _ & _ & _ & _ & _ & Hlen1 & _).
      pose proof (generation_facts _ _ _ _ _ _ Hstep) as (Hc1 & Hl1 & Hwf1).
      assert (keepGraveyard (conf s1) = true) as Hk1 by by rewrite Hc1.
      destruct (IH s1 Hk1 (Hwf1 Hwf) _ _ _ _ _ H) as [Hpre Hlen].
      split; [etrans; [apply (lt_graveyard _ _ Hl1)|done]|lia].
  - intros Htop Hsum Hfull k. revert s Hkeep Hwf Htop Hsum Hfull.
    induction k as [|k IH]; intros s Hkeep Hwf Htop Hsum Hfull i n s' i' n';
      simpl.
    + intros [= <- <- <-]. lia.
    + intros H. inv_bind H. destruct a as [[s1 i1] n1].
      destruct (generation_graveyard _ _ _ _ _ _ Hkeep Hwf Hstep)
        as (_ & _ & _ & _ & _ & _ & _ & _ & Hlen1 & Hcount).
      pose proof (generation_length _ _ _ _ _ _ Hstep Htop Hsum) as Hfull1.
      pose proof (generation_facts _ _ _ _ _ _ Hstep) as (Hc1 & _ & Hwf1).
      assert (keepGraveyard (conf s1) = true) as Hk1 by by rewrite Hc1.
      specialize (IH s1 Hk1 (Hwf1 Hwf)). rewrite Hc1 in IH.
      rewrite (IH Htop Hsum Hfull1 _ _ _ _ _ H).
      specialize (Hcount Htop). lia.
Qed.

End Proofs.

(** ** The stopping condition of [evolve] *)

(** C1.  Called with [maxIters=5] and no [maxItersNoImprov], [evolve]
    enters its loop with [stopCond] false, and nothing in the loop sets
    it: for no amount of fuel does the call return.  The controller of the
    scenario is still in the loop after any number of generations, the
    sixth as well as the fifth. *)
Theorem evolve_maxIters_5_never_stops :
  (∀ (hyper : Type) (fuel : nat) (s s' : State hyper) (i n : Z),
     evolve fuel (Some 5%Z) None s ≠ Returned s' i n) ∧
  (∀ fuel : nat, ∃ s' n,
     evolve fuel (Some 5%Z) None Demo.start = Running s' (Z.of_nat fuel) n) ∧
  (∃ s' n, evolve 6 (Some 5%Z) None Demo.start = Running s' 6 n).
Proof.
  assert (∀ fuel : nat, ∃ s' n,
            evolve fuel (Some 5%Z) None Demo.start
              = Running s' (Z.of_nat fuel) n) as Hruns.
  { intros fuel. apply evolve_runs_on.
    - by left.
    - done.
    - done.
    - apply (wf_init Demo.maker Demo.scorer 10 Demo.f03 Demo.f02 Demo.f03
               Demo.f01 true None Demo.process).
      vm_compute. reflexivity.
    - vm_compute. repeat split; discriminate.
    - by left. }
  split; [|split].
  - intros hyper fuel s s' i n.
    destruct (evolve_unfold fuel (Some 5%Z) None s)
      as (s0 & _ & _ & _ & _ & ->); [by left|].
    rewrite bool_decide_eq_false_2 by by intros [?|?].
    by destruct (generations fuel s0 0 0) as [[[? ?] ?]|?].
  - exact Hruns.
  - exact (Hruns 6).
Qed.

(** ** The theorems at work on the scenario *)

(** The arithmetic is that of Python's floats: [0.3 * 10] is [3.0]
    although the float [0.3] is less than three tenths, [0.58 * 50] is
    less than 29, and [0.5 + 0.5 + 2**-60] is [1.0]; a seed below 0 is
    refused. *)
Lemma float_examples :
  Forall (λ x, valid_binary 53 1024 x = true)
    [f_one; Demo.f00; Demo.f01; Demo.f02; Demo.f03; Demo.f05; Demo.f058;
     Demo.f2m60] ∧
  count_of Demo.f03 10 = Ok 3%Z ∧
  count_of Demo.f058 50 = Ok 28%Z ∧
  fadd (fadd Demo.f05 Demo.f05) Demo.f2m60 = f_one ∧
  is_Ok (__init__ Demo.maker Demo.scorer 10 Demo.f05 Demo.f05 Demo.f2m60
           Demo.f01 true None Demo.process) ∧
  __init__ Demo.maker Demo.scorer 10 Demo.f03 Demo.f02 Demo.f03 Demo.f01
    true (Some (-1)%Z) Demo.process = Raise ValueError ∧
  __init__ Demo.maker Demo.scorer 10 Demo.f05 Demo.f05 Demo.f01 Demo.f01
    true None Demo.process = Raise AssertionError.
Proof.
  split; [repeat constructor|].
  split; [vm_compute; reflexivity|]. split; [vm_compute; reflexivity|].
  split; [vm_compute; reflexivity|].
  split; [eexists; vm_compute; reflexivity|].
  split; vm_compute; reflexivity.
Qed.

Lemma wf_start : wf Demo.start.
Proof.
  apply (wf_init Demo.maker Demo.scorer 10 Demo.f03 Demo.f02 Demo.f03
           Demo.f01 true None Demo.process).
  vm_compute. reflexivity.
Qed.

Lemma wf_gen0 : wf Demo.gen0.
Proof.
  apply (wf_initializePop Demo.start); [apply wf_start|].
  vm_compute. reflexivity.
Qed.

Lemma wf_gen1 : wf Demo.gen1.
Proof.
  destruct (generation_facts Demo.gen0 0 0 Demo.gen1 1 0) as (_ & _ & H).
  - vm_compute. reflexivity.
  - apply H, wf_gen0.
Qed.

Lemma wf_tracked : wf Demo.tracked.
Proof.
  destruct (track_best_facts Demo.gen0 0 0 Demo.tracked 1 0)
    as (_ & _ & _ & _ & _ & _ & _ & H).
  - vm_compute. reflexivity.
  - apply H, wf_gen0.
Qed.

Lemma init_fails_iff_fractions_exceed_one_witness :
  finite Demo.f05 ∧ finite Demo.f2m60 ∧
  flt f_one (fadd (fadd Demo.f05 Demo.f05) Demo.f2m60) = false ∧
  __init__ Demo.maker Demo.scorer 10 Demo.f05 Demo.f05 Demo.f2m60 Demo.f01
    true None Demo.process ≠ Raise AssertionError.
Proof.
  assert (flt f_one (fadd (fadd Demo.f05 Demo.f05) Demo.f2m60) = false)
    as Hlt by (vm_compute; reflexivity).
  split; [exact I|]. split; [exact I|]. split; [exact Hlt|].
  destruct (init_fails_iff_fractions_exceed_one Demo.maker Demo.scorer 10
              Demo.f05 Demo.f05 Demo.f2m60 Demo.f01 true None Demo.process)
    as (Hassert & Hsum & _).
  intros Hraise. apply Hassert in Hraise.
  apply (Hsum I I I) in Hraise. rewrite Hlt in Hraise. discriminate.
Defined.

Lemma generation_restores_population_size_witness :
  (0 ≤ keepTopN (conf Demo.gen0))%Z ∧
  (keepTopN (conf Demo.gen0) + keepBtmN (conf Demo.gen0)
   + makeChildN (conf Demo.gen0) ≤ popSize (conf Demo.gen0))%Z ∧
  generation Demo.gen0 0 0 = Ok (Demo.gen1, 1%Z, 0%Z) ∧
  Z.of_nat (length (population Demo.gen1)) = popSize (conf Demo.gen1).
Proof.
  assert (0 ≤ keepTopN (conf Demo.gen0))%Z as Htop
    by (vm_compute; discriminate).
  assert (keepTopN (conf Demo.gen0) + keepBtmN (conf Demo.gen0)
          + makeChildN (conf Demo.gen0) ≤ popSize (conf Demo.gen0))%Z
    as Hsum by (vm_compute; discriminate).
  assert (generation Demo.gen0 0 0 = Ok (Demo.gen1, 1%Z, 0%Z)) as Hgen
    by (vm_compute; reflexivity).
  split; [exact Htop|]. split; [exact Hsum|]. split; [exact Hgen|].
  destruct (generation_restores_population_size Demo.gen0 Htop Hsum)
    as [Hsize _].
  exact (Hsize 0%Z 0%Z Demo.gen1 1%Z 0%Z Hgen).
Defined.

Lemma cull_keeps_disjoint_index_sets_witness :
  _killUnfit Demo.tracked = Ok Demo.culled ∧
  (0 ≤ keepTopN (conf Demo.tracked))%Z ∧
  Z.of_nat (length (population Demo.culled)) = 5%Z.
Proof.
  assert (_killUnfit Demo.tracked = Ok Demo.culled) as Hkill
    by (vm_compute; reflexivity).
  assert (0 ≤ keepTopN (conf Demo.tracked))%Z as Htop
    by (vm_compute; discriminate).
  split; [exact Hkill|]. split; [exact Htop|].
  destruct (cull_keeps_disjoint_index_sets Demo.tracked) as [_ H].
  destruct (H Demo.culled Hkill)
    as (btm & sorted & _ & _ & _ & _ & _ & _ & _ & _ & _ & _ & _ & Hsize).
  exact (Hsize Htop).
Defined.

Lemma bestModel_fitness_never_decreases_witness :
  wf Demo.gen1 ∧
  generations 2 Demo.gen1 1 0 = Ok (Demo.gen3, 3%Z, 0%Z) ∧
  bestModel Demo.gen1 = Some 6 ∧
  fitness_of Demo.gen1 6 = Some (45 # 1)%Q ∧
  ∃ b' y', bestModel Demo.gen3 = Some b' ∧
           fitness_of Demo.gen3 b' = Some y' ∧
           (45 # 1 <= y')%Q ∧ (b' ≠ 6 → (45 # 1 < y')%Q).
Proof.
  assert (generations 2 Demo.gen1 1 0 = Ok (Demo.gen3, 3%Z, 0%Z)) as Hgen
    by (vm_compute; reflexivity).
  assert (bestModel Demo.gen1 = Some 6) as Hb by (vm_compute; reflexivity).
  assert (fitness_of Demo.gen1 6 = Some (45 # 1)%Q) as Hy
    by (vm_compute; reflexivity).
  split; [exact wf_gen1|]. split; [exact Hgen|]. split; [exact Hb|].
  split; [exact Hy|].
  destruct (bestModel_fitness_never_decreases Demo.gen1 wf_gen1) as [_ H].
  exact (H 2 1%Z 0%Z Demo.gen3 3%Z 0%Z 6 (45 # 1)%Q Hgen Hb Hy).
Defined.

Lemma evaluator_called_once_per_unset_candidate_witness :
  wf Demo.gen0 ∧
  generations 3 Demo.gen0 0 0 = Ok (Demo.gen3, 3%Z, 0%Z) ∧
  NoDup (scoreCalls Demo.gen3).*1.
Proof.
  assert (generations 3 Demo.gen0 0 0 = Ok (Demo.gen3, 3%Z, 0%Z)) as Hgen
    by (vm_compute; reflexivity).
  split; [exact wf_gen0|]. split; [exact Hgen|].
  destruct (evaluator_called_once_per_unset_candidate Demo.gen0) as [_ H].
  destruct (H 3 0%Z 0%Z Demo.gen3 3%Z 0%Z Hgen) as (calls & _ & _ & Hnd).
  exact (Hnd wf_gen0).
Defined.

Lemma makeChildren_mutates_one_child_witness :
  _makeChildren Demo.culled = Ok Demo.bred ∧
  ∃ children childToMutate,
    Z.of_nat (length children) = makeChildN (conf Demo.culled) ∧
    mutateCalls Demo.bred = mutateCalls Demo.culled ++ [childToMutate] ∧
    population Demo.bred = population Demo.culled ++ children.
Proof.
  assert (_makeChildren Demo.culled = Ok Demo.bred) as Hbred
    by (vm_compute; reflexivity).
  split; [exact Hbred|].
  destruct (makeChildren_mutates_one_child Demo.culled) as [H _].
  destruct (H Demo.bred Hbred)
    as (children & c & s1 & _ & _ & _ & Hlen & _ & Hcalls & _ & _ & _ & _
        & Hpop & _).
  exists children, c. split; [exact Hlen|]. split; [exact Hcalls|exact Hpop].
Defined.

Lemma graveyard_counts_every_discard_witness :
  keepGraveyard (conf Demo.gen0) = true ∧
  wf Demo.gen0 ∧
  (0 ≤ keepTopN (conf Demo.gen0))%Z ∧
  (keepTopN (conf Demo.gen0) + keepBtmN (conf Demo.gen0)
   + makeChildN (conf Demo.gen0) ≤ popSize (conf Demo.gen0))%Z ∧
  Z.of_nat (length (population Demo.gen0)) = popSize (conf Demo.gen0) ∧
  generations 3 Demo.gen0 0 0 = Ok (Demo.gen3, 3%Z, 0%Z) ∧
  Z.of_nat (length (graveyard Demo.gen3))
    = (Z.of_nat (length (graveyard Demo.gen0))
       + Z.of_nat 3
         * (popSize (conf Demo.gen0) - keepTopN (conf Demo.gen0)
            - keepBtmN (conf Demo.gen0)))%Z.
Proof.
  assert (keepGraveyard (conf Demo.gen0) = true) as Hkeep
    by (vm_compute; reflexivity).
  assert (0 ≤ keepTopN (conf Demo.gen0))%Z as Htop
    by (vm_compute; discriminate).
  assert (keepTopN (conf Demo.gen0) + keepBtmN (conf Demo.gen0)
          + makeChildN (conf Demo.gen0) ≤ popSize (conf Demo.gen0))%Z
    as Hsum by (vm_compute; discriminate).
  assert (Z.of_nat (length (population Demo.gen0))
          = popSize (conf Demo.gen0)) as Hfull by (vm_compute; reflexivity).
  assert (generations 3 Demo.gen0 0 0 = Ok (Demo.gen3, 3%Z, 0%Z)) as Hgen
    by (vm_compute; reflexivity).
  split; [exact Hkeep|]. split; [exact wf_gen0|]. split; [exact Htop|].
  split; [exact Hsum|]. split; [exact Hfull|]. split; [exact Hgen|].
  destruct (graveyard_counts_every_discard Demo.gen0 Hkeep wf_gen0)
    as (_ & _ & _ & H).
  exact (H Htop Hsum Hfull 3 0%Z 0%Z Demo.gen3 3%Z 0%Z Hgen).
Defined.

Lemma no_children_no_generation_witness :
  makeChildN (conf Demo.barren) = 0%Z ∧
  _makeChildren Demo.barren = Raise ValueError ∧
  ∃ e, generation Demo.barren 0 0 = Raise e.
Proof.
  assert (makeChildN (conf Demo.barren) = 0%Z) as Hn
    by (vm_compute; reflexivity).
  destruct (no_children_no_generation Demo.barren Hn) as (H1 & _ & H3 & _).
  split; [exact Hn|]. split; [exact H1|exact (H3 0%Z 0%Z)].
Defined.

Lemma parents_need_two_survivors_witness :
  (_killUnfit Demo.tracked = Ok Demo.culled ∧
   (0 ≤ keepTopN (conf Demo.tracked))%Z ∧
   ∀ n children, is_Ok (make_children n children Demo.culled)) ∧
  (_killUnfit Demo.lonely_tracked = Ok Demo.lonely ∧
   (0 ≤ keepTopN (conf Demo.lonely_tracked))%Z ∧
   _makeChildren Demo.lonely = Raise ValueError).
Proof.
  split.
  - assert (_killUnfit Demo.tracked = Ok Demo.culled) as Hkill
      by (vm_compute; reflexivity).
    assert (0 ≤ keepTopN (conf Demo.tracked))%Z as Htop
      by (vm_compute; discriminate).
    split; [exact Hkill|]. split; [exact Htop|].
    destruct (parents_need_two_survivors Demo.tracked Demo.culled Hkill Htop)
      as (_ & _ & H).
    apply H. vm_compute. discriminate.
  - assert (_killUnfit Demo.lonely_tracked = Ok Demo.lonely) as Hkill
      by (vm_compute; reflexivity).
    assert (0 ≤ keepTopN (conf Demo.lonely_tracked))%Z as Htop
      by (vm_compute; discriminate).
    split; [exact Hkill|]. split; [exact Htop|].
    destruct (parents_need_two_survivors Demo.lonely_tracked Demo.lonely
                Hkill Htop) as (_ & H & _).
    apply H; vm_compute; [discriminate|reflexivity].
Defined.

(** * Further properties of the methods

    What the methods do besides: their failures, what they leave alone,
    and what holds of the states that a run goes through. *)

Section Further.

Context {hyper : Type}.
Implicit Types s : State hyper.

(** ** [_initializePop] *)

Lemma _initializePop_Raise s e :
  _initializePop s = Raise e ↔ e = AssertionError ∧ population s ≠ [].
Proof.
  unfold _initializePop. case_bool_decide as Hlen.
  - destruct (random_models _ s). split; [done|].
    intros [_ Hne]. by apply nil_length_inv in Hlen.
  - split.
    + intros [= <-]. split; [done|]. intros Hnil. by rewrite Hnil in Hlen.
    + by intros [-> _].
Qed.

(** X1.  [_initializePop] raises [AssertionError] exactly when the
    population is not empty.  On an empty population it completes: the
    new population consists of [popSize] newly made models, distinct
    and all with unset fitness, and the objects that existed, the
    configuration, the remembered best, the graveyard and the traces
    are as before. *)
Theorem initializePop_fills_empty_population s :
  (_initializePop s = Raise AssertionError ↔ population s ≠ []) ∧
  (population s = [] ↔
   ∃ s', _initializePop s = Ok s' ∧
     population s' = seq (allocated s) (Z.to_nat (popSize (conf s))) ∧
     NoDup (population s') ∧
     (∀ r, r ∈ population s' → fitness_of s' r = None) ∧
     allocated s' = allocated s + Z.to_nat (popSize (conf s)) ∧
     (∀ r, r < allocated s → objects s' r = objects s r) ∧
     conf s' = conf s ∧ bestModel s' = bestModel s ∧
     graveyard s' = graveyard s ∧ scoreCalls s' = scoreCalls s ∧
     mutateCalls s' = mutateCalls s).
Proof.
  split.
  - rewrite _initializePop_Raise. split; [by intros []|done].
  - split.
    + intros Hnil. destruct (_initializePop_is_Ok s Hnil) as [s' Hs'].
      exists s'. split; [done|].
      apply _initializePop_Ok in Hs' as (_ & Hp & Ha).
      split; [done|]. split; [rewrite Hp; apply NoDup_seq|].
      split.
      { intros r Hr. apply (al_new _ _ _ Ha). rewrite Hp in Hr.
        apply elem_of_seq in Hr. lia. }
      split; [apply (al_allocated _ _ _ Ha)|].
      split; [apply (al_old _ _ _ Ha)|].
      split; [apply (al_conf _ _ _ Ha)|].
      split; [apply (al_bestModel _ _ _ Ha)|].
      split; [apply (al_graveyard _ _ _ Ha)|].
      split; [apply (al_scoreCalls _ _ _ Ha)|apply (al_mutateCalls _ _ _ Ha)].
    + intros (s' & Hs' & _). by apply _initializePop_Ok in Hs' as [? _].
Qed.

(** ** [_sortPopByFitness] and [_getBestModel] *)

Lemma sort_desc_sorted {A} (l : list (Q * A)) :
  descending l → sort_desc l = l.
Proof.
  induction l as [|x l IH]; intros Hl; simpl; [done|].
  apply descending_cons in Hl as [Hx Hl]. rewrite (IH Hl).
  destruct l as [|y l]; simpl; [done|].
  rewrite (proj2 (Qle_bool_iff y.1 x.1)); [done|]. apply Hx. left.
Qed.

Lemma keyed_fmap s ks :
  keyed s = Some ks → ∀ p, p ≡ₚ ks.*2 →
  (∀ r, r ∈ p → is_Some (fitness_of s r)).
Proof.
  intros [Hp Hk]%keyed_Some p Hperm r Hr. rewrite Hperm in Hr.
  apply list_elem_of_fmap in Hr as ([q r'] & -> & Hin).
  exists q. by apply Hk.
Qed.

Lemma keyed_set_population s ks ks' :
  keyed s = Some ks → ks' ≡ₚ ks →
  keyed (set_population ks'.*2 s) = Some ks'.
Proof.
  intros [Hp Hk]%keyed_Some Hperm. unfold keyed. simpl.
  apply mapM_Some_2.
  assert (∀ q r, (q, r) ∈ ks' → fitness_of s r = Some q) as Hk'.
  { intros q r Hin. apply Hk. by rewrite <- Hperm. }
  clear Hperm Hk Hp. induction ks' as [|[q r] ks' IH]; simpl; [constructor|].
  constructor.
  - unfold fitness_of in *. simpl. rewrite (Hk' q r); [done|left].
  - apply IH. intros q' r' Hin. apply Hk'. by right.
Qed.

Lemma filter_fmap_snd s (q : Q) (ks : list (Q * ref)) :
  (∀ x r, (x, r) ∈ ks → fitness_of s r = Some x) →
  filter (has_fitness s q) ks.*2 = (filter (same_key q) ks).*2.
Proof.
  intros Hk. induction ks as [|[x r] ks IH]; simpl; [done|].
  assert (filter (has_fitness s q) ks.*2 = (filter (same_key q) ks).*2)
    as IH' by (apply IH; intros; apply Hk; by right).
  assert (has_fitness s q r ↔ same_key q (x, r)) as Hiff.
  { unfold has_fitness, same_key. by rewrite (Hk x r) by left. }
  rewrite !filter_cons.
  destruct (decide (has_fitness s q r)), (decide (same_key q (x, r)));
    simpl; try tauto; by f_equal.
Qed.

Lemma filter_head_first {A} (P : A → Prop) `{∀ x, Decision (P x)}
    (l : list A) (b : A) (t : list A) :
  filter P l = b :: t →
  ∃ i, l !! i = Some b ∧ ∀ j r, j < i → l !! j = Some r → ¬ P r.
Proof.
  induction l as [|a l IH]; [done|]. rewrite filter_cons.
  destruct (decide (P a)) as [Ha|Ha].
  - intros [= -> _]. exists 0. split; [done|]. intros j r Hj. lia.
  - intros Hf. destruct (IH Hf) as (i & Hi & Hlt). exists (S i).
    split; [done|]. intros [|j] r Hj Hr.
    + by injection Hr as <-.
    + apply (Hlt j r); [lia|done].
Qed.

Lemma _sortPopByFitness_stable s s' q :
  _sortPopByFitness s = Ok s' →
  filter (has_fitness s q) (population s')
    = filter (has_fitness s q) (population s).
Proof.
  unfold _sortPopByFitness. destruct (keyed s) as [ks|] eqn:Hk.
  - intros [= <-]. simpl. pose proof (keyed_Some _ _ Hk) as [Hpop Hfit].
    rewrite <- Hpop.
    rewrite (filter_fmap_snd s q ks) by done.
    rewrite (filter_fmap_snd s q (sort_desc ks)).
    + by rewrite sort_desc_stable.
    + intros x r Hin. apply Hfit.
      by rewrite <- (sort_desc_Permutation ks).
  - case_bool_decide; [|done]. by intros [= <-].
Qed.

(** X2.  A completed [_sortPopByFitness] changes the population only,
    into a permutation of itself along which the fitness does not
    increase and in which the models of equal fitness are in the order
    they had; sorting again changes nothing. *)
Theorem sortPopByFitness_sorts_stably s s' :
  _sortPopByFitness s = Ok s' →
  s' = set_population (population s') s ∧
  population s' ≡ₚ population s ∧
  (∀ i j a b x y,
     i < j → population s' !! i = Some a → population s' !! j = Some b →
     fitness_of s a = Some x → fitness_of s b = Some y → (y <= x)%Q) ∧
  (∀ q, filter (has_fitness s q) (population s')
        = filter (has_fitness s q) (population s)) ∧
  _sortPopByFitness s' = Ok s'.
Proof.
  intros Hsort.
  pose proof (_sortPopByFitness_Ok _ _ Hsort) as (p & -> & Hp).
  split; [done|]. split; [done|]. split.
  { intros i j a b x y Hij Ha Hb Hx Hy.
    exact (_sortPopByFitness_descending s _ i j a b x y Hsort Hij Ha Hb
             Hx Hy). }
  split; [intros q; by apply _sortPopByFitness_stable|].
  unfold _sortPopByFitness in Hsort |- *.
  destruct (keyed s) as [ks|] eqn:Hk.
  - injection Hsort as Hs. subst p.
    rewrite (keyed_set_population s ks (sort_desc ks) Hk)
      by apply sort_desc_Permutation.
    simpl. by rewrite (sort_desc_sorted _ (sort_desc_descending ks)).
  - case_bool_decide as Hlen; [|done]. injection Hsort as Hs.
    apply (f_equal population) in Hs. simpl in Hs. subst p. simpl.
    assert (set_population (population s) s = s) as -> by by destruct s.
    rewrite Hk. by rewrite bool_decide_eq_true_2.
Qed.

(** X3.  [_sortPopByFitness] fails exactly when the population has two
    models or more and one of them has no fitness yet; the exception is
    then a [TypeError]. *)
Theorem sortPopByFitness_raises_on_unset_fitness s e :
  _sortPopByFitness s = Raise e ↔
  e = TypeError ∧ 2 ≤ length (population s) ∧
  ∃ r, r ∈ population s ∧ fitness_of s r = None.
Proof.
  split.
  - intros H. pose proof (_sortPopByFitness_Raise _ _ H) as ->.
    split; [done|]. unfold _sortPopByFitness in H.
    destruct (keyed s) as [ks|] eqn:Hk; [done|].
    case_bool_decide as Hlen; [done|]. split; [lia|].
    destruct (decide (Forall (λ r, is_Some (fitness_of s r)) (population s)))
      as [Hall|Hex].
    + rewrite Forall_forall in Hall.
      destruct (keyed_is_Some s Hall) as [? ?]. congruence.
    + apply not_Forall_Exists in Hex; [|apply _].
      apply Exists_exists in Hex as (r & Hr & Hn). exists r. split; [done|].
      simpl in Hn. by destruct (fitness_of s r); [destruct Hn; eexists|].
  - intros (-> & Hlen & r & Hr & Hnone). unfold _sortPopByFitness.
    destruct (keyed s) as [ks|] eqn:Hk.
    + apply keyed_Some in Hk as [Hp Hfit]. rewrite <- Hp in Hr.
      apply list_elem_of_fmap in Hr as ([q r'] & -> & Hin).
      simpl in Hnone. rewrite (Hfit q r' Hin) in Hnone. done.
    + rewrite bool_decide_eq_false_2 by lia. done.
Qed.

Lemma _getBestModel_first s best s' :
  _getBestModel s = Ok (best, s') →
  ∃ i, population s !! i = Some best ∧
       ∀ j r x y, j < i → population s !! j = Some r →
                  fitness_of s best = Some x → fitness_of s r = Some y →
                  (y < x)%Q.
Proof.
  intros Hbest.
  pose proof (_getBestModel_Ok _ _ _ Hbest) as [Hsort Hhead].
  destruct (fitness_of s best) as [x0|] eqn:Hx0.
  - assert (has_fitness s x0 best) as Hhas.
    { unfold has_fitness. rewrite Hx0. apply Qeq_bool_refl. }
    pose proof (_sortPopByFitness_stable s s' x0 Hsort) as Hst.
    destruct (population s') as [|b p] eqn:Hp; [done|].
    injection Hhead as ->.
    rewrite filter_cons_True in Hst by done. symmetry in Hst.
    apply filter_head_first in Hst as (i & Hi & Hlt).
    exists i. split; [done|]. intros j r x y Hj Hr [= <-] Hy.
    assert (y <= x0)%Q as Hle.
    { eapply (_getBestModel_fittest s best s' r); try done.
      by eapply list_elem_of_lookup_2. }
    apply Qle_lteq in Hle as [Hlt'|Heq]; [done|].
    exfalso. apply (Hlt j r Hj Hr). unfold has_fitness. rewrite Hy.
    by apply Qeq_bool_iff.
  - pose proof (_sortPopByFitness_Ok _ _ Hsort) as (p & -> & Hp).
    simpl in Hhead.
    assert (best ∈ population s) as [i Hi]%list_elem_of_lookup.
    { rewrite <- Hp. by eapply list_elem_of_lookup_2. }
    exists i. split; [done|]. by intros j r x y _ _ [=].
Qed.

Lemma _getBestModel_nil s :
  population s = [] → _getBestModel s = Raise IndexError.
Proof.
  intros Hnil. unfold _getBestModel, _sortPopByFitness, keyed.
  rewrite Hnil. simpl. done.
Qed.

Lemma _getBestModel_Raise s e :
  _getBestModel s = Raise e →
  e = TypeError ∨ e = IndexError ∧ population s = [].
Proof.
  unfold _getBestModel. intros H.
  apply bind_Raise in H as [H|(s1 & Hs1 & H)].
  - left. by eapply _sortPopByFitness_Raise.
  - right. destruct (population s1) as [|b p] eqn:Hp; [|done].
    injection H as <-. split; [done|].
    apply _sortPopByFitness_Ok in Hs1 as (p & -> & Hperm).
    simpl in Hp. subst p. by apply Permutation_nil_l in Hperm.
Qed.

(** X4.  [_getBestModel] raises [IndexError] on an empty population.
    When it completes it has sorted the population, and the model it
    returns is one of the unsorted population than which none is
    fitter, and the first such: every model before it is strictly less
    fit. *)
Theorem getBestModel_returns_first_fittest s :
  (population s = [] → _getBestModel s = Raise IndexError) ∧
  (∀ best s',
     _getBestModel s = Ok (best, s') →
     _sortPopByFitness s = Ok s' ∧
     ∃ i, population s !! i = Some best ∧
       (∀ r x y, r ∈ population s →
          fitness_of s best = Some x → fitness_of s r = Some y →
          (y <= x)%Q) ∧
       (∀ j r x y, j < i → population s !! j = Some r →
          fitness_of s best = Some x → fitness_of s r = Some y →
          (y < x)%Q)).
Proof.
  split; [apply _getBestModel_nil|].
  intros best s' Hbest.
  split; [by apply _getBestModel_Ok in Hbest as [? _]|].
  destruct (_getBestModel_first _ _ _ Hbest) as (i & Hi & Hlt).
  exists i. split; [done|]. split; [|done].
  intros r x y Hr Hx Hy. by eapply (_getBestModel_fittest s best s' r).
Qed.

(** ** [_scoreModelsInPop], once more *)

Lemma score_all_noop (rs : list ref) s :
  (∀ r, r ∈ rs → is_Some (fitness_of s r)) →
  foldl (λ s' r, score_at r s') s rs = s.
Proof.
  induction rs as [|r rs IH]; intros Hall; simpl; [done|].
  pose proof (score_at_spec r s) as Hr.
  destruct (Hall r) as [q Hq]; [left|]. rewrite Hq in Hr. rewrite Hr.
  apply IH. intros r' Hr'. apply Hall. by right.
Qed.

(** X5.  [_scoreModelsInPop] changes nothing when every model of the
    population holds a fitness; in particular scoring twice is the same
    as scoring once. *)
Theorem scoring_a_scored_population_changes_nothing s :
  ((∀ r, r ∈ population s → is_Some (fitness_of s r)) →
   _scoreModelsInPop s = s) ∧
  _scoreModelsInPop (_scoreModelsInPop s) = _scoreModelsInPop s.
Proof.
  split; [apply score_all_noop|].
  destruct (_scoreModelsInPop_spec s) as (l & Hsc & _ & Hset).
  unfold _scoreModelsInPop at 1. apply score_all_noop.
  by rewrite (sc_population _ _ _ Hsc).
Qed.

(** ** How [evolve] ends *)

(** X6.  [evolve] returns exactly when one of its two thresholds is 0.
    It has then gone through no generation: both counters are 0, a
    population that was there is untouched, and an empty one has been
    filled by [_initializePop] and nothing more.  Without any
    threshold [evolve] raises [AssertionError]. *)
Theorem evolve_returns_iff_a_threshold_is_zero fuel
    (maxIters maxItersNoImprov : option Z) s :
  ((∃ s' i n, evolve fuel maxIters maxItersNoImprov s = Returned s' i n)
     ↔ maxIters = Some 0%Z ∨ maxItersNoImprov = Some 0%Z) ∧
  (∀ s' i n,
     evolve fuel maxIters maxItersNoImprov s = Returned s' i n →
     i = 0%Z ∧ n = 0%Z ∧ conf s' = conf s ∧
     (population s ≠ [] → s' = s) ∧
     (population s = [] → _initializePop s = Ok s')) ∧
  (maxIters = None ∧ maxItersNoImprov = None →
   evolve fuel maxIters maxItersNoImprov s = Raised AssertionError).
Proof.
  destruct (decide (maxIters ≠ None ∨ maxItersNoImprov ≠ None))
    as [Hsome|Hnone].
  - destruct (evolve_unfold fuel maxIters maxItersNoImprov s Hsome)
      as (s0 & Hs0 & Hc & _ & _ & ->).
    destruct (decide (maxIters = Some 0%Z ∨ maxItersNoImprov = Some 0%Z))
      as [Hz|Hz].
    + rewrite (bool_decide_eq_true_2 _ Hz). split; [|split].
      * split; [done|]. intros _. by exists s0, 0%Z, 0%Z.
      * intros s' i n [= <- <- <-]. split; [done|]. split; [done|].
        split; [done|]. split.
        -- intros Hne.
           rewrite bool_decide_eq_false_2 in Hs0; [by injection Hs0|].
           intros Hlen. by apply nil_length_inv in Hlen.
        -- intros Hnil. rewrite bool_decide_eq_true_2 in Hs0; [done|].
           by rewrite Hnil.
      * intros [-> ->]. by destruct Hsome.
    + rewrite (bool_decide_eq_false_2 _ Hz). split; [|split].
      * split; [|done]. intros (s' & i & n & H).
        by destruct (generations fuel s0 0 0) as [[[? ?] ?]|?].
      * intros s' i n.
        by destruct (generations fuel s0 0 0) as [[[? ?] ?]|?].
      * intros [-> ->]. by destruct Hsome.
  - assert (maxIters = None ∧ maxItersNoImprov = None) as [-> ->].
    { destruct maxIters, maxItersNoImprov; try done;
        exfalso; apply Hnone; by (left + right). }
    unfold evolve. rewrite bool_decide_eq_false_2 by by intros [?|?].
    split; [|split].
    + split; [by intros (? & ? & ? & ?)|by intros [?|?]].
    + done.
    + done.
Qed.

Lemma track_best_Raise s i n e :
  track_best s i n = Raise e →
  e = TypeError ∨ e = IndexError ∧ population s = [].
Proof.
  unfold track_best. intros H.
  apply bind_Raise in H as [H|([best s2] & Hbest & H)].
  - apply _getBestModel_Raise in H as [->|[-> Hnil]]; [by left|right].
    split; [done|].
    destruct (_scoreModelsInPop_spec s) as (l & Hsc & _).
    by rewrite <- (sc_population _ _ _ Hsc).
  - apply bind_Raise in H as [H|(imp & Himp & H)]; [|done].
    left. destruct (bestModel s2); [|done].
    unfold fitter in H.
    destruct (fitness_of s2 best), (fitness_of s2 r); congruence.
Qed.

Lemma generation_Raise s i n e :
  generation s i n = Raise e →
  e = TypeError ∨ e = IndexError ∨ e = ValueError.
Proof.
  unfold generation. intros H.
  apply bind_Raise in H as [H|([[s3 i3] n3] & H3 & H)].
  - apply track_best_Raise in H as [->|[-> _]]; auto.
  - apply bind_Raise in H as [H|(s4 & H4 & H)];
      [by apply _killUnfit_Raise in H|].
    apply bind_Raise in H as [H|(s5 & H5 & H)]; [|done].
    apply _makeChildren_Raise in H. auto.
Qed.

(** From a well-formed state no [None] is ever compared. *)
Lemma generation_Raise_wf s i n e :
  wf s → generation s i n = Raise e → e = IndexError ∨ e = ValueError.
Proof.
  intros Hwf. unfold generation. intros H.
  apply bind_Raise in H as [H|([[s3 i3] n3] & H3 & H)].
  - destruct (decide (population s = [])) as [Hnil|Hne].
    + left. unfold track_best in H.
      destruct (_scoreModelsInPop_spec s) as (l & Hsc & _).
      rewrite (_getBestModel_nil (_scoreModelsInPop s)) in H
        by by rewrite (sc_population _ _ _ Hsc).
      simpl in H. by injection H.
    + destruct (track_best_is_Ok s i n Hwf Hne) as [? ?]. congruence.
  - apply track_best_facts in H3 as (_ & _ & _ & _ & _ & Hfit & _).
    apply bind_Raise in H as [H|(s4 & H4 & H)].
    + unfold _killUnfit in H.
      destruct (_sortPopByFitness_is_Ok s3 Hfit) as [s3' Hs3'].
      rewrite Hs3' in H. simpl in H.
      apply bind_Raise in H as [H|(tops & Htops & H)];
        [left; by eapply index_all_Raise|].
      apply bind_Raise in H as [H|([btm g] & Hbtm & H)];
        [right; by eapply choice_Raise_inv|].
      apply bind_Raise in H as [H|(btms & Hbtms & H)];
        [left; by eapply index_all_Raise|].
      apply drawn_disjoint in Hbtm.
      rewrite bool_decide_eq_true_2 in H by done. done.
    + apply bind_Raise in H as [H|(s5 & H5 & H)]; [|done].
      apply _makeChildren_Raise in H. auto.
Qed.

Lemma generations_Raise k s i n e :
  generations k s i n = Raise e →
  (e = TypeError ∨ e = IndexError ∨ e = ValueError) ∧
  (wf s → e = IndexError ∨ e = ValueError).
Proof.
  revert s i n. induction k as [|k IH]; intros s i n; simpl; [done|].
  intros H. apply bind_Raise in H as [H|([[s1 i1] n1] & H1 & H)].
  - split; [by eapply generation_Raise|].
    intros Hwf. by eapply generation_Raise_wf.
  - apply IH in H as [H Hwf1]. split; [done|]. intros Hwf. apply Hwf1.
    by apply generation_facts in H1 as (_ & _ & ?); auto.
Qed.

(** X7.  The exceptions of [evolve].  [AssertionError] is raised for
    missing thresholds only.  The [Exception('Invalid stopCond')] of
    the source is never raised.  Whatever else is raised is a
    [TypeError], an [IndexError] or a [ValueError], and from a
    well-formed state, where no unset fitness is ever compared, it is
    an [IndexError] or a [ValueError]. *)
Theorem evolve_never_raises_invalid_stopCond fuel
    (maxIters maxItersNoImprov : option Z) s e :
  evolve fuel maxIters maxItersNoImprov s = Raised e →
  (e = AssertionError ∧ maxIters = None ∧ maxItersNoImprov = None) ∨
  ((maxIters ≠ None ∨ maxItersNoImprov ≠ None) ∧
   (e = TypeError ∨ e = IndexError ∨ e = ValueError) ∧
   (wf s → e = IndexError ∨ e = ValueError)).
Proof.
  intros H.
  destruct (decide (maxIters ≠ None ∨ maxItersNoImprov ≠ None))
    as [Hsome|Hnone].
  - right. split; [done|].
    destruct (evolve_unfold fuel maxIters maxItersNoImprov s Hsome)
      as (s0 & _ & _ & Hwf0 & _ & Heq).
    rewrite Heq in H. destruct (bool_decide _); [done|].
    destruct (generations fuel s0 0 0) as [[[? ?] ?]|e'] eqn:Hgen; [done|].
    injection H as ->. apply generations_Raise in Hgen as [Hany Hwf].
    split; [done|]. intros Hs. by apply Hwf, Hwf0.
  - left. unfold evolve in H. rewrite bool_decide_eq_false_2 in H by done.
    injection H as <-. split; [done|].
    destruct maxIters, maxItersNoImprov; try done;
      exfalso; apply Hnone; by (left + right).
Qed.

(** X8.  Under a configuration with non-negative counts that keeps two
    models at least, makes one child at least and fits in the
    population, a generation on a full, well-formed population raises
    nothing: it leaves a full, well-formed population again and has
    counted itself. *)
Theorem runnable_generation_completes s i n :
  wf s → runnable (conf s) →
  Z.of_nat (length (population s)) = popSize (conf s) →
  ∃ s' n',
    generation s i n = Ok (s', (i + 1)%Z, n') ∧
    wf s' ∧ conf s' = conf s ∧
    Z.of_nat (length (population s')) = popSize (conf s').
Proof.
  intros Hwf (Htop & Hbtm & Htwo & Hchild & Hsum) Hlen.
  destruct (generation_is_Ok s i n) as [[[s' i'] n'] Hgen];
    [done|done|done|lia|lia|].
  exists s', n'.
  pose proof (generation_length _ _ _ _ _ _ Hgen Htop Hsum) as Hlen'.
  pose proof (generation_facts _ _ _ _ _ _ Hgen) as (Hc & _ & Hwf').
  apply generation_Ok in Hgen as Hparts.
  destruct Hparts as (s3 & _ & _ & H3 & _).
  apply track_best_Ok in H3 as (_ & _ & _ & _ & _ & _ & -> & _).
  split; [done|]. split; [by apply Hwf'|]. split; [done|]. by rewrite Hc.
Qed.

(** ** [_killUnfit]: its failures, and whom it keeps *)

Lemma index_all_is_Ok (pop : list ref) (inds : list nat) :
  (∀ i, i ∈ inds → i < length pop) → is_Ok (index_all pop inds).
Proof.
  intros Hinds. unfold index_all.
  destruct (mapM_is_Some_2 (λ i, pop !! i) inds) as [ms ->]; [|by eexists].
  apply Forall_forall. intros i Hi. simpl.
  by apply lookup_lt_is_Some, Hinds.
Qed.

Lemma index_all_out_of_range (pop : list ref) (inds : list nat) i :
  i ∈ inds → length pop ≤ i → index_all pop inds = Raise IndexError.
Proof.
  intros Hi Hge. unfold index_all.
  destruct (mapM _ inds) as [ms|] eqn:E; [|done].
  apply mapM_Some_1 in E.
  apply list_elem_of_lookup in Hi as [k Hk].
  destruct (Forall2_lookup_l _ _ _ _ _ E Hk) as (m & _ & Hm).
  apply lookup_lt_Some in Hm. lia.
Qed.

(** X9.  On a scored population, [_killUnfit] raises [IndexError] when
    [keepTopN] exceeds the size of the population; otherwise it raises
    [ValueError] when [keepBtmN] is negative or exceeds the number of
    models that are left after the top ones; otherwise it completes. *)
Theorem killUnfit_fails_when_counts_do_not_fit s :
  (∀ r, r ∈ population s → is_Some (fitness_of s r)) →
  (length (population s) < Z.to_nat (keepTopN (conf s)) →
   _killUnfit s = Raise IndexError) ∧
  (Z.to_nat (keepTopN (conf s)) ≤ length (population s) →
   (keepBtmN (conf s) < 0 ∨
    Z.of_nat (length (population s) - Z.to_nat (keepTopN (conf s)))
      < keepBtmN (conf s))%Z →
   _killUnfit s = Raise ValueError) ∧
  (Z.to_nat (keepTopN (conf s)) ≤ length (population s) →
   (0 ≤ keepBtmN (conf s)
      ≤ Z.of_nat (length (population s) - Z.to_nat (keepTopN (conf s))))%Z →
   is_Ok (_killUnfit s)).
Proof.
  intros Hfit.
  destruct (_sortPopByFitness_is_Ok s Hfit) as [s1 Hs1].
  destruct (_sortPopByFitness_Ok _ _ Hs1) as (p & -> & Hp).
  pose proof (Permutation_length Hp) as Hplen.
  split; [|split].
  - intros Hlt. unfold _killUnfit. rewrite Hs1. simpl.
    rewrite (index_all_out_of_range p _ (length p)); [done| |done].
    unfold topKeepInds. simpl. apply elem_of_seq. lia.
  - intros Hle Hbad. unfold _killUnfit. rewrite Hs1. simpl.
    destruct (index_all_is_Ok p (topKeepInds (set_population p s)))
      as [tops ->].
    { intros i. unfold topKeepInds. simpl. rewrite elem_of_seq. lia. }
    simpl. rewrite choice_Raise; [done|].
    unfold remainingInds, topKeepInds. simpl.
    rewrite remaining_length by lia. lia.
  - intros Hle Hok. apply _killUnfit_is_Ok; [done|lia|lia].
Qed.

(** X10.  The culling keeps the fittest: each of the first [keepTopN]
    models of the new population is at least as fit as every model
    that was discarded. *)
Theorem killUnfit_keeps_the_fittest s s' :
  _killUnfit s = Ok s' →
  ∀ i t u x y,
    i < Z.to_nat (keepTopN (conf s)) → population s' !! i = Some t →
    u ∈ population s → u ∉ population s' →
    fitness_of s t = Some x → fitness_of s u = Some y → (y <= x)%Q.
Proof.
  intros Hkill i t u x y Hi Ht Hu Hnot Hx Hy.
  apply _killUnfit_Ok in Hkill as (btm & p & H).
  pose proof (cu_keep _ _ _ _ _ H) as Hkeep.
  pose proof (cu_sorted _ _ _ _ _ H) as Hsort.
  (* t is p !! i *)
  destruct (Forall2_lookup_r _ _ _ _ _ Hkeep Ht) as (i' & Hi' & Hpt).
  assert (i' = i) as ->.
  { unfold topKeepInds in Hi'.
    rewrite lookup_app_l in Hi' by (rewrite length_seq; lia).
    apply lookup_seq in Hi'. lia. }
  (* u is p !! j with j not kept, so j is not a top index *)
  rewrite <- (culls_perm H) in Hu.
  apply list_elem_of_lookup in Hu as [j Hj].
  destruct (decide (j = i)) as [->|Hne].
  { exfalso. apply Hnot. assert (u = t) as -> by congruence.
    by eapply list_elem_of_lookup_2. }
  destruct (decide (j < i)) as [Hlt|Hge].
  - exfalso. apply Hnot.
    assert ((topKeepInds s ++ btm) !! j = Some j) as Hjj.
    { unfold topKeepInds.
      rewrite lookup_app_l by (rewrite length_seq; lia).
      apply lookup_seq. lia. }
    destruct (Forall2_lookup_l _ _ _ _ _ Hkeep Hjj) as (m & Hm & Hpm).
    assert (m = u) as -> by congruence.
    by eapply list_elem_of_lookup_2.
  - by apply (_sortPopByFitness_descending s (set_population p s)
                i j t u x y); [|lia|..].
Qed.

(** ** The generation's best stays in front *)

Lemma sorted_population_fixed s s' :
  (∀ i j a b x y,
     i < j → population s !! i = Some a → population s !! j = Some b →
     fitness_of s a = Some x → fitness_of s b = Some y → (y <= x)%Q) →
  _sortPopByFitness s = Ok s' → population s' = population s.
Proof.
  intros Hdesc. unfold _sortPopByFitness.
  destruct (keyed s) as [ks|] eqn:Hk.
  - intros [= <-]. simpl. pose proof (keyed_Some _ _ Hk) as [Hpop Hfit].
    rewrite sort_desc_sorted; [done|].
    intros i j [x a] [y b] Hij Ha Hb. simpl.
    apply (Hdesc i j a b x y Hij).
    + by rewrite <- Hpop, list_lookup_fmap, Ha.
    + by rewrite <- Hpop, list_lookup_fmap, Hb.
    + apply Hfit. by eapply list_elem_of_lookup_2.
    + apply Hfit. by eapply list_elem_of_lookup_2.
  - case_bool_decide; [|done]. by intros [= <-].
Qed.

Lemma track_best_sorted s i n s3 i' n' best s2 :
  track_best s i n = Ok (s3, i', n') →
  _getBestModel (_scoreModelsInPop s) = Ok (best, s2) →
  population s3 = population s2 ∧ population s3 !! 0 = Some best ∧
  ∀ s4, _sortPopByFitness s3 = Ok s4 → population s4 = population s3.
Proof.
  intros H3 Hbest.
  apply track_best_Ok in H3
    as (best' & s2' & improved & Hbest' & _ & -> & _).
  rewrite Hbest in Hbest'. injection Hbest' as <- <-.
  apply _getBestModel_Ok in Hbest as [Hsort Hhead].
  assert (∀ i j a b x y,
            i < j → population s2 !! i = Some a →
            population s2 !! j = Some b →
            fitness_of s2 a = Some x → fitness_of s2 b = Some y →
            (y <= x)%Q) as Hdesc.
  { intros i0 j a b x y Hij Ha Hb Hx Hy.
    exact (_sortPopByFitness_descending (_scoreModelsInPop s) s2 i0 j a b
             x y Hsort Hij Ha Hb Hx Hy). }
  split; [by destruct improved|]. split; [by destruct improved|].
  intros s4. apply sorted_population_fixed.
  by destruct improved.
Qed.

(** X11.  When one model at least is kept from the top, the best model
    of a generation is the first model of the population that the
    generation leaves, and the first [keepTopN] places are those of
    the sorted population. *)
Theorem generation_keeps_its_best_in_front s i n s' i' n' :
  generation s i n = Ok (s', i', n') →
  (1 ≤ keepTopN (conf s))%Z →
  ∃ best s2,
    _getBestModel (_scoreModelsInPop s) = Ok (best, s2) ∧
    population s' !! 0 = Some best ∧
    ∀ k, k < Z.to_nat (keepTopN (conf s)) →
         population s' !! k = population s2 !! k ∧
         is_Some (population s' !! k).
Proof.
  intros (s3 & s4 & s5 & H3 & H4 & H5 & ->)%generation_Ok Htop.
  pose proof (track_best_Ok _ _ _ _ _ _ H3)
    as (best & s2 & improved & Hbest & _).
  destruct (track_best_sorted _ _ _ _ _ _ _ _ H3 Hbest)
    as (Hp32 & Hhead & Hfix).
  apply track_best_facts in H3 as (Hc3 & _).
  apply _killUnfit_Ok in H4 as (btm & p & H4).
  apply _makeChildren_Ok in H5 as (children & c & s1 & H5).
  destruct (_makeRemainingRandomModels_spec s5) as [Hp6 _].
  pose proof (Hfix _ (cu_sorted _ _ _ _ _ H4)) as Hp. simpl in Hp. subst p.
  pose proof (cu_keep _ _ _ _ _ H4) as Hkeep.
  assert (∀ k, k < Z.to_nat (keepTopN (conf s)) →
            population s4 !! k = population s3 !! k ∧
            is_Some (population s4 !! k)) as Hk.
  { intros k Hlt.
    assert ((topKeepInds s3 ++ btm) !! k = Some k) as Hkk.
    { unfold topKeepInds. rewrite Hc3.
      rewrite lookup_app_l by (rewrite length_seq; lia).
      apply lookup_seq. lia. }
    destruct (Forall2_lookup_l _ _ _ _ _ Hkeep Hkk) as (m & Hm & Hpm).
    rewrite Hm, Hpm. split; [done|by eexists]. }
  assert (∀ k, k < Z.to_nat (keepTopN (conf s)) →
            population (_makeRemainingRandomModels s5) !! k
              = population s4 !! k) as Hsame.
  { intros k Hlt. destruct (Hk k Hlt) as [_ Hsome].
    apply lookup_lt_is_Some in Hsome.
    rewrite Hp6, (br_population _ _ _ _ _ H5).
    rewrite !lookup_app_l; [done|done|rewrite length_app; lia]. }
  exists best, s2. split; [done|]. split.
  - rewrite Hsame by lia. destruct (Hk 0) as [-> _]; [lia|done].
  - intros k Hlt. rewrite Hsame by done. rewrite <- Hp32. by apply Hk.
Qed.

(** ** What a generation does to the models that exist *)

Lemma generation_hyperparams s i n s' i' n' r :
  generation s i n = Ok (s', i', n') → r < allocated s →
  hyperparams (objects s' r) = hyperparams (objects s r).
Proof.
  intros (s3 & s4 & s5 & H3 & H4 & H5 & ->)%generation_Ok Hr.
  apply track_best_Ok in H3
    as (best & s2 & improved & Hbest & _ & -> & _).
  apply _getBestModel_Ok in Hbest as [Hsort _].
  apply _sortPopByFitness_Ok in Hsort as (p & -> & _).
  destruct (_scoreModelsInPop_spec s) as (l & Hsc & _).
  apply _killUnfit_Ok in H4 as (btm & p' & H4).
  apply _makeChildren_Ok in H5 as (children & c & s1 & H5).
  destruct (_makeRemainingRandomModels_spec s5) as [_ H6].
  assert (allocated s4 = allocated s) as Ha4.
  { rewrite (cu_allocated _ _ _ _ _ H4).
    destruct improved; simpl; apply (sc_allocated _ _ _ Hsc). }
  rewrite (al_old _ _ _ H6)
    by (rewrite (br_allocated _ _ _ _ _ H5); lia).
  rewrite (br_old _ _ _ _ _ H5) by lia.
  rewrite (cu_objects _ _ _ _ _ H4).
  destruct improved; simpl; apply (sc_hyper _ _ _ Hsc).
Qed.

Lemma generation_objects s i n s' i' n' r :
  generation s i n = Ok (s', i', n') → r < allocated s →
  ∃ l, scores l s (_scoreModelsInPop s) ∧
       scoreCalls s' = scoreCalls s ++ l ∧
       objects s' r = objects (_scoreModelsInPop s) r.
Proof.
  intros (s3 & s4 & s5 & H3 & H4 & H5 & ->)%generation_Ok Hr.
  apply track_best_Ok in H3
    as (best & s2 & improved & Hbest & _ & -> & _).
  apply _getBestModel_Ok in Hbest as [Hsort _].
  apply _sortPopByFitness_Ok in Hsort as (p & -> & _).
  destruct (_scoreModelsInPop_spec s) as (l & Hsc & _).
  apply _killUnfit_Ok in H4 as (btm & p' & H4).
  apply _makeChildren_Ok in H5 as (children & c & s1 & H5).
  destruct (_makeRemainingRandomModels_spec s5) as [_ H6].
  assert (allocated s4 = allocated s) as Ha4.
  { rewrite (cu_allocated _ _ _ _ _ H4).
    destruct improved; simpl; apply (sc_allocated _ _ _ Hsc). }
  exists l. split; [done|]. split.
  - rewrite (al_scoreCalls _ _ _ H6), (br_scoreCalls _ _ _ _ _ H5),
      (cu_scoreCalls _ _ _ _ _ H4).
    destruct improved; simpl; apply (sc_calls _ _ _ Hsc).
  - rewrite (al_old _ _ _ H6)
      by (rewrite (br_allocated _ _ _ _ _ H5); lia).
    rewrite (br_old _ _ _ _ _ H5) by lia.
    rewrite (cu_objects _ _ _ _ _ H4).
    by destruct improved.
Qed.

Lemma generation_fitness_source s i n s' i' n' r q :
  generation s i n = Ok (s', i', n') → r < allocated s →
  fitness_of s' r = Some q →
  fitness_of s r = Some q ∨
  fitness_of s r = None ∧ (r, q) ∈ scoreCalls s'.
Proof.
  intros Hgen Hr Hq.
  destruct (generation_objects _ _ _ _ _ _ r Hgen Hr)
    as (l & Hsc & Hcalls & Hobj).
  unfold fitness_of in Hq. rewrite Hobj in Hq.
  destruct (decide (r ∈ l.*1)) as [Hin|Hnin].
  - right. apply list_elem_of_fmap in Hin as ([r' q'] & Heq & Hin).
    simpl in Heq. subst r'.
    destruct (sc_stored _ _ _ Hsc _ _ Hin) as (Hnone & Hsome & _).
    split; [done|]. unfold fitness_of in Hsome.
    assert (q' = q) as -> by congruence.
    rewrite Hcalls. apply elem_of_app. by right.
  - left. by rewrite <- (sc_kept _ _ _ Hsc r Hnin).
Qed.

(** X12.  Over any number of generations a model that exists keeps its
    hyperparameters (the mutation touches new children only) and a
    fitness it holds; a fitness that it holds afterwards and did not
    hold before is a result of a call of the evaluator on it. *)
Theorem models_only_gain_a_fitness k s i n s' i' n' r :
  generations k s i n = Ok (s', i', n') → r < allocated s →
  hyperparams (objects s' r) = hyperparams (objects s r) ∧
  (∀ q, fitness_of s r = Some q → fitness_of s' r = Some q) ∧
  (∀ q, fitness_of s' r = Some q →
        fitness_of s r = Some q ∨
        fitness_of s r = None ∧ (r, q) ∈ scoreCalls s').
Proof.
  intros Hgen Hr. split; [|split].
  - revert s i n Hgen Hr. induction k as [|k IH]; intros s i n; simpl.
    + by intros [= <- <- <-].
    + intros H Hr. inv_bind H. destruct a as [[s1 i1] n1].
      rewrite <- (generation_hyperparams _ _ _ _ _ _ r Hstep Hr).
      apply (IH _ _ _ H).
      apply generation_facts in Hstep as (_ & Hl & _).
      pose proof (lt_allocated _ _ Hl). lia.
  - intros q Hq.
    apply generations_facts in Hgen as (_ & Hl & _).
    by apply (lt_fitness _ _ Hl).
  - revert s i n Hgen Hr. induction k as [|k IH]; intros s i n; simpl.
    + intros [= <- <- <-] _ q Hq. by left.
    + intros H Hr q Hq. inv_bind H. destruct a as [[s1 i1] n1].
      pose proof (generation_facts _ _ _ _ _ _ Hstep) as (_ & Hl & _).
      pose proof (generations_facts _ _ _ _ _ _ _ H) as (_ & Hl' & _).
      assert (r < allocated s1) as Hr1
        by (pose proof (lt_allocated _ _ Hl); lia).
      destruct (IH _ _ _ H Hr1 q Hq) as [Hq1|[Hnone Hin]].
      * destruct (generation_fitness_source _ _ _ _ _ _ r q Hstep Hr Hq1)
          as [?|[Hn Hin]]; [by left|right].
        split; [done|].
        destruct (lt_scoreCalls _ _ Hl') as (l' & -> & _).
        apply elem_of_app. by left.
      * right. split; [|done].
        destruct (fitness_of s r) as [q0|] eqn:Hq0; [|done].
        rewrite (lt_fitness _ _ Hl r q0 Hr Hq0) in Hnone. done.
Qed.

(** ** The children and their parents *)

Lemma make_children_parents n cs s cs' s' :
  make_children n cs s = Ok (cs', s') →
  (∀ r, r ∈ population s → r < allocated s) →
  ∀ c, c ∈ seq (allocated s) n →
    ∃ mother father g,
      [mother; father] ⊆+ population s ∧
      objects s' c =
        mkModel
          (makeChildModel (modelMaker (conf s))
             (hyperparams (objects s mother))
             (hyperparams (objects s father)) g).1
          None.
Proof.
  revert cs s. induction n as [|n IH]; intros cs s; simpl.
  - intros _ _ c Hc. by apply elem_of_nil in Hc.
  - intros H Hpop c Hc. inv_bind H. destruct a as [parents g].
    apply choice_two in Hstep as (_ & m & f & -> & Hsub).
    destruct (makeChildModel _ _ _ _) as [h g'] eqn:Hmk.
    pose proof (make_children_Ok _ _ _ _ _ H) as (_ & _ & Ha & _).
    simpl in H, Ha.
    apply elem_of_cons in Hc as [->|Hc].
    + exists m, f, g. split; [done|].
      rewrite (al_old _ _ _ Ha) by (simpl; lia). simpl.
      by rewrite store_eq, Hmk.
    + destruct (IH _ _ H) with (c := c) as (m' & f' & g0 & Hsub' & Hobj).
      * simpl. intros r Hr. apply Hpop in Hr. lia.
      * done.
      * simpl in Hsub', Hobj. exists m', f', g0. split; [done|].
        rewrite Hobj.
        assert (m' < allocated s ∧ f' < allocated s) as [Hm' Hf'].
        { split; apply Hpop; (eapply elem_of_submseteq; [|exact Hsub']).
          - left.
          - right. left. }
        by rewrite !store_ne by lia.
Qed.

(** X13.  In a completed [_makeChildren], every new object is a child in
    the new population, with unset fitness, crossed from two models of
    the old population (two different ones, when the population has no
    duplicates), which are left as they were.  The child chosen for
    mutation carries the mutated hyperparameters of its crossing, every
    other child those of its crossing. *)
Theorem children_are_bred_from_two_parents s s' :
  _makeChildren s = Ok s' →
  (∀ r, r ∈ population s → r < allocated s) →
  ∃ childToMutate,
    mutateCalls s' = mutateCalls s ++ [childToMutate] ∧
    ∀ c, allocated s ≤ c < allocated s' →
      c ∈ population s' ∧ fitness_of s' c = None ∧
      ∃ mother father g,
        mother ∈ population s ∧ father ∈ population s ∧
        (NoDup (population s) → mother ≠ father) ∧
        objects s' mother = objects s mother ∧
        objects s' father = objects s father ∧
        let crossed :=
          (makeChildModel (modelMaker (conf s))
             (hyperparams (objects s mother))
             (hyperparams (objects s father)) g).1 in
        (c ≠ childToMutate → hyperparams (objects s' c) = crossed) ∧
        (c = childToMutate →
         ∃ g', hyperparams (objects s' c)
               = (mutateModel (modelMaker (conf s)) crossed g').1).
Proof.
  intros Hs' Hpop.
  apply _makeChildren_Ok in Hs' as (children & mutant & s1 & H).
  exists mutant. split; [apply (br_mutateCalls _ _ _ _ _ H)|].
  intros c Hc.
  rewrite (br_allocated _ _ _ _ _ H), (br_children _ _ _ _ _ H),
    length_seq in Hc.
  assert (c ∈ children) as Hin.
  { rewrite (br_children _ _ _ _ _ H). apply elem_of_seq. lia. }
  split.
  { rewrite (br_population _ _ _ _ _ H). apply elem_of_app. by right. }
  split; [by apply (br_fitness _ _ _ _ _ H)|].
  destruct (make_children_parents _ _ _ _ _ (br_loop _ _ _ _ _ H) Hpop c)
    as (m & f & g & Hsub & Hobj).
  { apply elem_of_seq. lia. }
  assert (m ∈ population s) as Hm
    by (eapply elem_of_submseteq; [|exact Hsub]; left).
  assert (f ∈ population s) as Hf
    by (eapply elem_of_submseteq; [|exact Hsub]; right; left).
  exists m, f, g. split; [done|]. split; [done|]. split.
  { intros Hnd. apply (submseteq_NoDup _ _ Hsub) in Hnd.
    apply NoDup_cons in Hnd as [Hnot _]. intros ->. apply Hnot. left. }
  split; [by apply (br_old _ _ _ _ _ H), Hpop|].
  split; [by apply (br_old _ _ _ _ _ H), Hpop|].
  simpl. split.
  - intros Hne. by rewrite (br_others _ _ _ _ _ H c Hne), Hobj.
  - intros ->. eexists. rewrite (br_mutated _ _ _ _ _ H), Hobj. done.
Qed.

(** ** The graveyard *)

Lemma buried_culls top btm p s s' :
  wf s → buried s → culls top btm p s s' → buried s'.
Proof.
  intros Hwf [Hnd Hex Hgone] H.
  pose proof (culls_perm H) as Hp.
  destruct (keepGraveyard (conf s)) eqn:Hk.
  - split; rewrite (cu_graveyard _ _ _ _ _ H), Hk.
    + apply NoDup_app. split; [done|]. split.
      * intros r Hr [_ Hin]%list_elem_of_filter.
        rewrite Hp in Hin. by apply (Hgone r).
      * apply NoDup_filter. rewrite Hp. apply (wf_NoDup _ Hwf).
    + rewrite (cu_allocated _ _ _ _ _ H).
      intros r [Hr|[_ Hr]%list_elem_of_filter]%elem_of_app;
        [by apply Hex|].
      rewrite Hp in Hr. by apply (wf_population _ Hwf).
    + intros r [Hr|[Hr _]%list_elem_of_filter]%elem_of_app; [|done].
      intros Hin. apply (Hgone r Hr). by apply (culls_elem_of H).
  - split; rewrite (cu_graveyard _ _ _ _ _ H), Hk; [done|..].
    + by rewrite (cu_allocated _ _ _ _ _ H).
    + intros r Hr Hin. apply (Hgone r Hr). by apply (culls_elem_of H).
Qed.

Lemma buried_fresh s s' n :
  buried s → graveyard s' = graveyard s →
  allocated s' = allocated s + n →
  population s' = population s ++ seq (allocated s) n →
  buried s'.
Proof.
  intros [Hnd Hex Hgone] Hg Ha Hp. split; rewrite Hg; [done|..].
  - intros r Hr. apply Hex in Hr. lia.
  - intros r Hr. rewrite Hp. intros [Hin|Hin]%elem_of_app.
    + by apply (Hgone r).
    + apply Hex in Hr. apply elem_of_seq in Hin. lia.
Qed.

Lemma buried_generation s i n s' i' n' :
  wf s → buried s → generation s i n = Ok (s', i', n') → buried s'.
Proof.
  intros Hwf Hb (s3 & s4 & s5 & H3 & H4 & H5 & ->)%generation_Ok.
  apply track_best_facts in H3 as (_ & Ha3 & Hg3 & _ & Hp3 & _ & _ & Hwf3).
  assert (buried s3) as Hb3.
  { destruct Hb as [Hnd Hex Hgone]. split; rewrite Hg3; [done|..].
    - intros r Hr. rewrite Ha3. by apply Hex.
    - intros r Hr. rewrite Hp3. by apply Hgone. }
  apply _killUnfit_Ok in H4 as (btm & p & H4).
  pose proof (buried_culls _ _ _ _ _ (Hwf3 Hwf) Hb3 H4) as Hb4.
  apply _makeChildren_Ok in H5 as (children & c & s1 & H5).
  assert (buried s5) as Hb5.
  { apply (buried_fresh s4 s5 (length children)); [done|..].
    - apply (br_graveyard _ _ _ _ _ H5).
    - apply (br_allocated _ _ _ _ _ H5).
    - rewrite (br_population _ _ _ _ _ H5).
      by rewrite (br_children _ _ _ _ _ H5) at 1 2; rewrite length_seq. }
  destruct (_makeRemainingRandomModels_spec s5) as [Hp6 H6].
  apply (buried_fresh s5 _ (deficit s5)); [done|..].
  - apply (al_graveyard _ _ _ H6).
  - apply (al_allocated _ _ _ H6).
  - done.
Qed.

Lemma buried_generations k s i n s' i' n' :
  wf s → buried s → generations k s i n = Ok (s', i', n') → buried s'.
Proof.
  revert s i n. induction k as [|k IH]; intros s i n Hwf Hb; simpl.
  - by intros [= <- <- <-].
  - intros H. inv_bind H. destruct a as [[s1 i1] n1].
    pose proof (buried_generation _ _ _ _ _ _ Hwf Hb Hstep) as Hb1.
    apply generation_facts in Hstep as (_ & _ & Hwf1).
    exact (IH s1 _ _ (Hwf1 Hwf) Hb1 H).
Qed.

Lemma generations_no_graveyard k s i n s' i' n' :
  keepGraveyard (conf s) = false →
  generations k s i n = Ok (s', i', n') → graveyard s' = graveyard s.
Proof.
  revert s i n. induction k as [|k IH]; intros s i n Hoff; simpl.
  - by intros [= <- <- <-].
  - intros H. inv_bind H. destruct a as [[s1 i1] n1].
    pose proof (generation_facts _ _ _ _ _ _ Hstep) as (Hc1 & _).
    rewrite (IH s1 i1 n1) by (by rewrite ?Hc1).
    apply generation_Ok in Hstep as (s3 & s4 & s5 & H3 & H4 & H5 & ->).
    destruct (generation_tail _ _ _ H4 H5) as (_ & _ & ->).
    apply track_best_facts in H3 as (Hc3 & _ & Hg3 & _).
    apply _killUnfit_Ok in H4 as (btm & p & H4).
    by rewrite (cu_graveyard _ _ _ _ _ H4), Hc3, Hoff.
Qed.

(** X14.  Along any number of generations no model gets into the
    graveyard twice, no model of the graveyard is in the population,
    and every model of the graveyard is an object that exists; with
    [keepGraveyard] off the graveyard stays as it is. *)
Theorem graveyard_holds_each_discard_once k s i n s' i' n' :
  wf s → buried s → generations k s i n = Ok (s', i', n') →
  NoDup (graveyard s') ∧
  (∀ r, r ∈ graveyard s' → r ∉ population s') ∧
  (∀ r, r ∈ graveyard s' → r < allocated s') ∧
  (keepGraveyard (conf s) = false → graveyard s' = graveyard s).
Proof.
  intros Hwf Hb Hgen.
  destruct (buried_generations _ _ _ _ _ _ _ Hwf Hb Hgen) as [Hnd Hex Hgone].
  split; [done|]. split; [done|]. split; [done|].
  intros Hoff. by eapply generations_no_graveyard.
Qed.

(** ** Survivors and newcomers *)

Lemma generation_population s i n s' i' n' :
  wf s → generation s i n = Ok (s', i', n') →
  ∃ survivors newcomers,
    population s' = survivors ++ newcomers ∧
    length survivors
      = Z.to_nat (keepTopN (conf s)) + Z.to_nat (keepBtmN (conf s)) ∧
    (∀ r, r ∈ survivors →
          r ∈ population s ∧ is_Some (fitness_of s' r)) ∧
    (∀ r, r ∈ newcomers → allocated s ≤ r ∧ fitness_of s' r = None).
Proof.
  intros Hwf (s3 & s4 & s5 & H3 & H4 & H5 & ->)%generation_Ok.
  destruct (generation_tail _ _ _ H4 H5) as (Hl & _).
  apply track_best_facts in H3
    as (Hc3 & Ha3 & _ & _ & Hp3 & Hfit3 & _ & Hwf3).
  specialize (Hwf3 Hwf).
  apply _killUnfit_Ok in H4 as (btm & p & H4).
  apply _makeChildren_Ok in H5 as (children & c & s1 & H5).
  destruct (_makeRemainingRandomModels_spec s5) as [Hp6 H6].
  exists (population s4), (children ++ seq (allocated s5) (deficit s5)).
  split; [by rewrite Hp6, (br_population _ _ _ _ _ H5), app_assoc|].
  split.
  { rewrite (culls_length H4). destruct (culls_btm H4) as (_ & Hb & _).
    unfold topKeepInds. rewrite length_seq. rewrite Hc3 in *. lia. }
  split.
  - intros r Hr. apply (culls_elem_of H4) in Hr.
    split; [by rewrite <- Hp3|].
    destruct (Hfit3 r Hr) as [q Hq]. exists q.
    apply (lt_fitness _ _ Hl); [by apply (wf_population _ Hwf3)|done].
  - intros r [Hr|Hr]%elem_of_app.
    + split.
      * rewrite (br_children _ _ _ _ _ H5) in Hr. apply elem_of_seq in Hr.
        rewrite (cu_allocated _ _ _ _ _ H4), Ha3 in Hr. lia.
      * unfold fitness_of. rewrite (al_old _ _ _ H6).
        -- by apply (br_fitness _ _ _ _ _ H5).
        -- rewrite (br_children _ _ _ _ _ H5) in Hr.
           apply elem_of_seq in Hr.
           rewrite (br_allocated _ _ _ _ _ H5),
             (br_children _ _ _ _ _ H5), length_seq. lia.
    + apply elem_of_seq in Hr. split.
      * rewrite (br_allocated _ _ _ _ _ H5),
          (cu_allocated _ _ _ _ _ H4), Ha3 in Hr. lia.
      * apply (al_new _ _ _ H6). lia.
Qed.

(** X15.  The population that a generation leaves is the
    [keepTopN + keepBtmN] survivors, models of the old population that
    hold a fitness, followed by the newcomers, objects made in this
    generation; and the next scoring calls the evaluator on the
    newcomers, each once, and on nothing else. *)
Theorem next_scoring_evaluates_only_newcomers s i n s' i' n' :
  wf s → generation s i n = Ok (s', i', n') →
  ∃ (survivors newcomers : list ref) (calls : list (ref * Q)),
    population s' = survivors ++ newcomers ∧
    length survivors
      = Z.to_nat (keepTopN (conf s)) + Z.to_nat (keepBtmN (conf s)) ∧
    (∀ r, r ∈ survivors →
          r ∈ population s ∧ is_Some (fitness_of s' r)) ∧
    (∀ r, r ∈ newcomers → allocated s ≤ r) ∧
    scoreCalls (_scoreModelsInPop s') = scoreCalls s' ++ calls ∧
    calls.*1 ≡ₚ newcomers.
Proof.
  intros Hwf Hgen.
  destruct (generation_population _ _ _ _ _ _ Hwf Hgen)
    as (survivors & newcomers & Hp & Hlen & Hsurv & Hnew).
  apply generation_facts in Hgen as (_ & _ & Hwf').
  specialize (Hwf' Hwf).
  destruct (_scoreModelsInPop_spec s') as (l & Hsc & Hmem & _).
  exists survivors, newcomers, l.
  split; [done|]. split; [done|]. split; [done|].
  split; [intros r Hr; by apply Hnew|].
  split; [apply (sc_calls _ _ _ Hsc)|].
  pose proof (wf_NoDup _ Hwf') as Hnd. rewrite Hp in Hnd.
  apply NoDup_app in Hnd as (_ & _ & Hnd).
  apply NoDup_Permutation; [apply (sc_NoDup _ _ _ Hsc)|done|].
  intros r. rewrite Hmem, Hp, elem_of_app. split.
  - intros [[Hr|Hr] Hnone]; [|done].
    destruct (Hsurv r Hr) as [_ [q Hq]]. congruence.
  - intros Hr. split; [by right|by apply Hnew].
Qed.

(** ** The remembered best and the scores *)

Lemma champion_generation s i n s' i' n' :
  wf s → champion s → generation s i n = Ok (s', i', n') →
  champion s' ∧ is_Some (bestModel s').
Proof.
  intros Hwf Hch Hgen.
  destruct (generation_bestModel _ _ _ _ _ _ Hwf Hgen)
    as (best & s2 & x & Hbest & Hx & _ & Hcase).
  pose proof (wf_scoreModelsInPop s Hwf) as Hwf1.
  destruct (_scoreModelsInPop_spec s) as (l0 & Hsc0 & Hmem & _).
  pose proof (_getBestModel_Ok _ _ _ Hbest) as [Hsort Hhead].
  destruct (_sortPopByFitness_Ok _ _ Hsort) as (p & Hs2 & Hp).
  assert (best ∈ population (_scoreModelsInPop s)) as Hin.
  { rewrite <- Hp. rewrite Hs2 in Hhead. simpl in Hhead.
    by eapply list_elem_of_lookup_2. }
  assert (best < allocated s) as Hlt.
  { rewrite <- (sc_allocated _ _ _ Hsc0). by apply (wf_population _ Hwf1). }
  destruct (generation_objects _ _ _ _ _ _ best Hgen Hlt)
    as (l & Hsc & Hcalls & Hobj).
  assert (fitness_of (_scoreModelsInPop s) best = Some x) as Hx1
    by (unfold fitness_of in *; by rewrite <- Hobj).
  assert (∀ r q, (r, q) ∈ l → (q <= x)%Q) as Hnew.
  { intros r q Hrq.
    destruct (sc_stored _ _ _ Hsc _ _ Hrq) as (Hnone & Hsome & _).
    eapply (_getBestModel_fittest _ best s2 r); try done.
    rewrite (sc_population _ _ _ Hsc0).
    assert (l = l0) as ->.
    { pose proof (sc_calls _ _ _ Hsc) as E1.
      pose proof (sc_calls _ _ _ Hsc0) as E2.
      rewrite E1 in E2. by apply app_inv_head in E2. }
    apply Hmem. by apply (list_elem_of_fmap_2 fst _ (r, q)). }
  unfold champion in *. destruct (bestModel s) as [b|] eqn:Hb.
  - destruct Hch as (y0 & Hy0 & Hold).
    destruct Hcase as (y & Hy & Hy' & Hup & Hkeep).
    assert (y0 = y) as -> by congruence.
    destruct (Qlt_le_dec y x) as [Hlt'|Hle].
    + destruct (Hup Hlt') as [-> _]. split; [|by eexists].
      exists x. split; [done|]. rewrite Hcalls.
      intros r q [Hrq|Hrq]%elem_of_app; [|by eapply Hnew].
      eapply Qle_trans; [by eapply Hold|by apply Qlt_le_weak].
    + destruct (Hkeep Hle) as [-> _]. split; [|by eexists].
      exists y. split; [done|]. rewrite Hcalls.
      intros r q [Hrq|Hrq]%elem_of_app; [by eapply Hold|].
      eapply Qle_trans; [by eapply Hnew|done].
  - destruct Hcase as [-> _]. split; [|by eexists].
    exists x. split; [done|]. rewrite Hcalls, Hch. simpl.
    intros r q Hrq. by eapply Hnew.
Qed.

Lemma champion_generations k s i n s' i' n' :
  wf s → champion s → generations k s i n = Ok (s', i', n') →
  champion s' ∧ (k ≠ 0 → is_Some (bestModel s')).
Proof.
  revert s i n. induction k as [|k IH]; intros s i n Hwf Hch; simpl.
  - by intros [= <- <- <-].
  - intros H. inv_bind H. destruct a as [[s1 i1] n1].
    destruct (champion_generation _ _ _ _ _ _ Hwf Hch Hstep) as [Hch1 Hb1].
    apply generation_facts in Hstep as (_ & _ & Hwf1).
    specialize (Hwf1 Hwf).
    destruct (IH _ _ _ Hwf1 Hch1 H) as [Hch' Hb']. split; [done|].
    intros _. destruct k as [|k]; [|by apply Hb'].
    simpl in H. by injection H as <- _ _.
Qed.

(** X16.  After one generation or more, a best model is remembered, and
    its fitness is at least every score that the evaluator has
    returned so far, provided this held at the start, as it does before
    anything has been scored. *)
Theorem bestModel_is_the_fittest_ever_scored k s i n s' i' n' :
  wf s → champion s → generations k s i n = Ok (s', i', n') → k ≠ 0 →
  ∃ b x, bestModel s' = Some b ∧ fitness_of s' b = Some x ∧
         ∀ r q, (r, q) ∈ scoreCalls s' → (q <= x)%Q.
Proof.
  intros Hwf Hch Hgen Hk.
  destruct (champion_generations _ _ _ _ _ _ _ Hwf Hch Hgen) as [Hch' Hb].
  destruct (Hb Hk) as [b Hb']. unfold champion in Hch'. rewrite Hb' in Hch'.
  destruct Hch' as (x & Hx & Hall). by exists b, x.
Qed.

(** ** The two counters *)

Lemma generation_counters s i n s' i' n' :
  wf s → generation s i n = Ok (s', i', n') →
  i' = (i + 1)%Z ∧
  (n' = 0%Z ∨ n' = (n + 1)%Z ∧ is_Some (bestModel s)).
Proof.
  intros Hwf Hgen.
  destruct (generation_bestModel _ _ _ _ _ _ Hwf Hgen)
    as (best & s2 & x & _ & _ & Hi & Hcase).
  split; [done|]. destruct (bestModel s) as [b|].
  - destruct Hcase as (y & _ & _ & Hup & Hkeep).
    destruct (Qlt_le_dec y x) as [Hlt|Hle].
    + left. by apply Hup.
    + right. split; [by apply Hkeep|by eexists].
  - left. by destruct Hcase.
Qed.

Lemma generations_counters k s i n s' i' n' :
  wf s → generations k s i n = Ok (s', i', n') → (0 ≤ n)%Z →
  (0 ≤ n' ≤ n + Z.of_nat k)%Z.
Proof.
  revert s i n. induction k as [|k IH]; intros s i n Hwf; simpl.
  - intros [= <- <- <-]. lia.
  - intros H Hn. inv_bind H. destruct a as [[s1 i1] n1].
    destruct (generation_counters _ _ _ _ _ _ Hwf Hstep) as [_ Hn1].
    apply generation_facts in Hstep as (_ & _ & Hwf1).
    specialize (IH _ _ _ (Hwf1 Hwf) H). destruct Hn1 as [->|[-> _]]; lia.
Qed.

(** X17.  The counters that [evolve] reports: [iters] grows by one per
    generation, [itersNoImprov] by one per generation at most and is
    never negative; started with no remembered best, the first
    generation counts as an improvement, so that [itersNoImprov] is
    less than the number of generations. *)
Theorem counters_count_generations k s i n s' i' n' :
  wf s → generations k s i n = Ok (s', i', n') →
  i' = (i + Z.of_nat k)%Z ∧
  ((0 ≤ n)%Z → (0 ≤ n' ≤ n + Z.of_nat k)%Z) ∧
  (bestModel s = None → k ≠ 0 → (0 ≤ n' < Z.of_nat k)%Z).
Proof.
  intros Hwf Hgen.
  split; [by apply generations_facts in Hgen as (_ & _ & _ & ?)|].
  split; [by eapply generations_counters|].
  intros Hnone Hk. destruct k as [|k]; [done|]. simpl in Hgen.
  inv_bind Hgen. destruct a as [[s1 i1] n1].
  destruct (generation_counters _ _ _ _ _ _ Hwf Hstep) as [_ Hn1].
  apply generation_facts in Hstep as (_ & _ & Hwf1).
  assert (n1 = 0%Z) as ->.
  { destruct Hn1 as [->|[_ [b Hb]]]; [done|congruence]. }
  pose proof (generations_counters _ _ _ _ _ _ _ (Hwf1 Hwf) Hgen). lia.
Qed.

(** ** Runs of a newly built controller *)

Lemma init_invariants (mk : ModelMaker hyper) (sc : ModelScorer hyper)
    (size : Z) (top btm child mut : float) (kg : bool) (rs : option Z)
    (pr : Process hyper) s :
  __init__ mk sc size top btm child mut kg rs pr = Ok s →
  wf s ∧ buried s ∧ champion s ∧ population s = [] ∧ bestModel s = None.
Proof.
  intros H. split; [by eapply wf_init|].
  apply init_Ok in H
    as (_ & nTop & nBtm & nChild & nMut & g & _ & _ & _ & _ & _ & ->).
  split; [|done].
  split; simpl; [constructor|by intros r ?%elem_of_nil..].
Qed.

Lemma _initializePop_invariants s s' :
  wf s → buried s → champion s → _initializePop s = Ok s' →
  wf s' ∧ buried s' ∧ champion s'.
Proof.
  intros Hwf Hb Hch H. split; [by eapply wf_initializePop|].
  apply _initializePop_Ok in H as (Hnil & Hp & Ha). split.
  - apply (buried_fresh s s' (Z.to_nat (popSize (conf s)))); [done|..].
    + apply (al_graveyard _ _ _ Ha).
    + apply (al_allocated _ _ _ Ha).
    + by rewrite Hp, Hnil.
  - unfold champion in *. rewrite (al_bestModel _ _ _ Ha).
    rewrite (al_scoreCalls _ _ _ Ha).
    destruct (bestModel s) as [b|] eqn:Hbest; [|done].
    destruct Hch as (x & Hx & Hall). exists x. split; [|done].
    destruct (wf_bestModel _ Hwf b Hbest) as [Hlt _].
    unfold fitness_of in *. by rewrite (al_old _ _ _ Ha).
Qed.

(** X18.  Whatever state [evolve] has reached on a newly built
    controller, having returned or being still in its loop: the state
    is well-formed, the graveyard holds each of its models once and
    none of the population, the remembered best is at least as fit as
    every score returned, the configuration is the one constructed,
    and [0 ≤ itersNoImprov ≤ iters]; after a generation or more a best
    model is remembered and [itersNoImprov < iters]. *)
Theorem evolve_keeps_the_invariants
    (mk : ModelMaker hyper) (sc : ModelScorer hyper) (size : Z)
    (top btm child mut : float) (kg : bool) (rs : option Z)
    (pr : Process hyper) s fuel (maxIters maxItersNoImprov : option Z)
    s' i n :
  __init__ mk sc size top btm child mut kg rs pr = Ok s →
  evolve fuel maxIters maxItersNoImprov s = Returned s' i n ∨
  evolve fuel maxIters maxItersNoImprov s = Running s' i n →
  wf s' ∧ buried s' ∧ champion s' ∧ conf s' = conf s ∧
  (0 ≤ n ≤ i)%Z ∧ (i ≤ Z.of_nat fuel)%Z ∧
  ((0 < i)%Z → (n < i)%Z ∧ is_Some (bestModel s')).
Proof.
  intros Hinit Hrun.
  destruct (init_invariants _ _ _ _ _ _ _ _ _ _ _ Hinit)
    as (Hwf & Hb & Hch & Hnil & Hbest0).
  assert (maxIters ≠ None ∨ maxItersNoImprov ≠ None) as Hsome.
  { unfold evolve in Hrun. case_bool_decide as Hd; [done|].
    by destruct Hrun. }
  destruct (evolve_unfold fuel maxIters maxItersNoImprov s Hsome)
    as (s0 & Hs0 & Hc0 & _ & _ & Heq).
  rewrite bool_decide_eq_true_2 in Hs0 by by rewrite Hnil.
  destruct (_initializePop_invariants _ _ Hwf Hb Hch Hs0)
    as (Hwf0 & Hb0 & Hch0).
  assert (bestModel s0 = None) as Hnone.
  { apply _initializePop_Ok in Hs0 as (_ & _ & Ha).
    by rewrite (al_bestModel _ _ _ Ha). }
  rewrite Heq in Hrun. destruct (bool_decide _).
  - assert (s' = s0 ∧ i = 0%Z ∧ n = 0%Z) as (-> & -> & ->)
      by (destruct Hrun as [[= <- <- <-]|[=]]; done).
    repeat (split; [done || lia|]). lia.
  - destruct (generations fuel s0 0 0) as [[[s1 i1] n1]|e] eqn:Hgen;
      [|by destruct Hrun].
    assert (s1 = s' ∧ i1 = i ∧ n1 = n) as (-> & -> & ->)
      by (destruct Hrun as [[=]|[= <- <- <-]]; done).
    pose proof (generations_facts _ _ _ _ _ _ _ Hgen)
      as (Hc & _ & Hwf' & Hi).
    split; [by apply Hwf'|].
    split; [by eapply buried_generations|].
    destruct (champion_generations _ _ _ _ _ _ _ Hwf0 Hch0 Hgen)
      as [Hch' Hbest].
    split; [done|]. split; [by rewrite Hc|].
    pose proof (generations_counters _ _ _ _ _ _ _ Hwf0 Hgen).
    split; [lia|]. split; [lia|]. intros Hpos.
    assert (fuel ≠ 0) as Hk by lia. split; [|by apply Hbest].
    destruct fuel as [|k]; [done|]. simpl in Hgen.
    inv_bind Hgen. destruct a as [[s2 i2] n2].
    destruct (generation_counters _ _ _ _ _ _ Hwf0 Hstep) as [_ Hn2].
    apply generation_facts in Hstep as (_ & _ & Hwf2).
    assert (n2 = 0%Z) as ->.
    { destruct Hn2 as [->|[_ [b Hb2]]]; [done|congruence]. }
    pose proof (generations_counters _ _ _ _ _ _ _ (Hwf2 Hwf0) Hgen). lia.
Qed.

End Further.

(** ** The counts that [__init__] derives *)

Lemma int_floor_spec (x : float) (n : Z) :
  int_floor x = Ok n →
  finite x ∧
  ((0 ≤ exponent x)%Z → n = (mantissa x * 2 ^ exponent x)%Z) ∧
  ((exponent x < 0)%Z →
   (n * 2 ^ (- exponent x) ≤ mantissa x < (n + 1) * 2 ^ (- exponent x))%Z).
Proof.
  destruct x as [sx|sx| |sx m e]; simpl; try done.
  - intros [= <-]. split; [done|]. split; [done|lia].
  - intros [= <-]. split; [done|]. fold (mantissa (S754_finite sx m e)).
    set (z := mantissa (S754_finite sx m e)). split.
    + intros He. by apply Z.shiftl_mul_pow2.
    + intros He. rewrite <- (Z.opp_involutive e) at 1 3.
      rewrite Z.shiftl_opp_r, Z.shiftr_div_pow2 by lia.
      assert (0 < 2 ^ (- e))%Z as Hpos by (apply Z.pow_pos_nonneg; lia).
      pose proof (Z.div_mod z _ (Z.neq_sym _ _ (Z.lt_neq _ _ Hpos))) as Hdm.
      pose proof (Z.mod_pos_bound z _ Hpos) as Hmod. nia.
Qed.

(** X19.  A count that [__init__] derives is the floor of the float
    product of the fraction and [popSize]: the product is a number,
    [mantissa * 2 ^ exponent], and the count is the greatest integer
    that is not above it. *)
Theorem counts_are_floors (frac : float) (size n : Z) :
  count_of frac size = Ok n →
  ∃ fs : float,
    float_of_int size = Ok fs ∧ finite (fmul frac fs) ∧
    ((0 ≤ exponent (fmul frac fs))%Z →
     n = (mantissa (fmul frac fs) * 2 ^ exponent (fmul frac fs))%Z) ∧
    ((exponent (fmul frac fs) < 0)%Z →
     (n * 2 ^ (- exponent (fmul frac fs)) ≤ mantissa (fmul frac fs)
      < (n + 1) * 2 ^ (- exponent (fmul frac fs)))%Z).
Proof.
  unfold count_of. intros H. inv_bind H. exists a. split; [done|].
  by apply int_floor_spec.
Qed.

(** ** The scenario, once more *)

Lemma wf_culled : wf Demo.culled.
Proof.
  destruct (_killUnfit_Ok Demo.tracked Demo.culled) as (btm & p & H).
  - vm_compute. reflexivity.
  - by apply (wf_culls _ _ _ _ _ wf_tracked H).
Qed.

Lemma invariants_gen0 :
  wf Demo.gen0 ∧ buried Demo.gen0 ∧ champion Demo.gen0.
Proof.
  assert (Demo.ga10 = Ok Demo.start) as Hinit by (vm_compute; reflexivity).
  destruct (init_invariants _ _ _ _ _ _ _ _ _ _ _ Hinit)
    as (Hwf & Hb & Hch & _).
  apply (_initializePop_invariants Demo.start Demo.gen0 Hwf Hb Hch).
  vm_compute. reflexivity.
Qed.

Lemma buried_gen0 : buried Demo.gen0.
Proof. destruct invariants_gen0 as (_ & H & _). exact H. Qed.

Lemma champion_gen0 : champion Demo.gen0.
Proof. destruct invariants_gen0 as (_ & _ & H). exact H. Qed.

Lemma tracked_scored r :
  r ∈ population Demo.tracked → is_Some (fitness_of Demo.tracked r).
Proof.
  destruct (track_best_facts Demo.gen0 0 0 Demo.tracked 1 0)
    as (_ & _ & _ & _ & _ & H & _).
  - vm_compute. reflexivity.
  - apply H.
Qed.

Lemma sortPopByFitness_sorts_stably_witness :
  _sortPopByFitness Demo.scored = Ok Demo.sorted ∧
  population Demo.sorted ≡ₚ population Demo.scored ∧
  _sortPopByFitness Demo.sorted = Ok Demo.sorted.
Proof.
  assert (_sortPopByFitness Demo.scored = Ok Demo.sorted) as Hsort
    by (vm_compute; reflexivity).
  split; [exact Hsort|].
  destruct (sortPopByFitness_sorts_stably Demo.scored Demo.sorted Hsort)
    as (_ & Hperm & _ & _ & Hagain).
  split; [exact Hperm|exact Hagain].
Defined.

Lemma getBestModel_returns_first_fittest_witness :
  _getBestModel Demo.scored = Ok (6, Demo.sorted) ∧
  ∃ i, population Demo.scored !! i = Some 6 ∧
    (∀ r x y, r ∈ population Demo.scored →
       fitness_of Demo.scored 6 = Some x →
       fitness_of Demo.scored r = Some y → (y <= x)%Q) ∧
    (∀ j r x y, j < i → population Demo.scored !! j = Some r →
       fitness_of Demo.scored 6 = Some x →
       fitness_of Demo.scored r = Some y → (y < x)%Q).
Proof.
  assert (_getBestModel Demo.scored = Ok (6, Demo.sorted)) as Hbest
    by (vm_compute; reflexivity).
  split; [exact Hbest|].
  destruct (getBestModel_returns_first_fittest Demo.scored) as [_ H].
  destruct (H 6 Demo.sorted Hbest) as [_ Hfirst]. exact Hfirst.
Defined.

Lemma evolve_never_raises_invalid_stopCond_witness :
  evolve 1 (Some 5%Z) None Demo.barren = Raised ValueError ∧
  ((ValueError = AssertionError ∧
    Some 5%Z = None ∧ @None Z = None) ∨
   ((Some 5%Z ≠ None ∨ @None Z ≠ None) ∧
    (ValueError = TypeError ∨ ValueError = IndexError
     ∨ ValueError = ValueError) ∧
    (wf Demo.barren →
     ValueError = IndexError ∨ ValueError = ValueError))).
Proof.
  assert (evolve 1 (Some 5%Z) None Demo.barren = Raised ValueError) as Hrun
    by (vm_compute; reflexivity).
  split; [exact Hrun|].
  exact (evolve_never_raises_invalid_stopCond 1 (Some 5%Z) None Demo.barren
           ValueError Hrun).
Defined.

Lemma runnable_generation_completes_witness :
  wf Demo.gen0 ∧ runnable (conf Demo.gen0) ∧
  Z.of_nat (length (population Demo.gen0)) = popSize (conf Demo.gen0) ∧
  ∃ s' n',
    generation Demo.gen0 0 0 = Ok (s', (0 + 1)%Z, n') ∧
    wf s' ∧ conf s' = conf Demo.gen0 ∧
    Z.of_nat (length (population s')) = popSize (conf s').
Proof.
  assert (runnable (conf Demo.gen0)) as Hrun
    by (repeat split; vm_compute; discriminate).
  assert (Z.of_nat (length (population Demo.gen0))
          = popSize (conf Demo.gen0)) as Hlen by (vm_compute; reflexivity).
  split; [exact wf_gen0|]. split; [exact Hrun|]. split; [exact Hlen|].
  exact (runnable_generation_completes Demo.gen0 0 0 wf_gen0 Hrun Hlen).
Defined.

Lemma killUnfit_fails_when_counts_do_not_fit_witness :
  (∀ r, r ∈ population Demo.tracked →
        is_Some (fitness_of Demo.tracked r)) ∧
  is_Ok (_killUnfit Demo.tracked).
Proof.
  split; [exact tracked_scored|].
  destruct (killUnfit_fails_when_counts_do_not_fit Demo.tracked
              tracked_scored) as (_ & _ & H).
  apply H; [vm_compute; lia|vm_compute; split; discriminate].
Defined.

Lemma killUnfit_keeps_the_fittest_witness :
  _killUnfit Demo.tracked = Ok Demo.culled ∧
  0 < Z.to_nat (keepTopN (conf Demo.tracked)) ∧
  population Demo.culled !! 0 = Some 6 ∧
  3 ∈ population Demo.tracked ∧ ¬ 3 ∈ population Demo.culled ∧
  fitness_of Demo.tracked 6 = Some (45 # 1)%Q ∧
  fitness_of Demo.tracked 3 = Some (24 # 1)%Q ∧
  (24 # 1 <= 45 # 1)%Q.
Proof.
  assert (_killUnfit Demo.tracked = Ok Demo.culled) as Hkill
    by (vm_compute; reflexivity).
  assert (0 < Z.to_nat (keepTopN (conf Demo.tracked))) as Hi
    by (vm_compute; lia).
  assert (population Demo.culled !! 0 = Some 6) as Ht
    by (vm_compute; reflexivity).
  assert (3 ∈ population Demo.tracked) as Hu
    by (apply (bool_decide_unpack _); vm_compute; exact I).
  assert (3 ∉ population Demo.culled) as Hnot
    by (apply (bool_decide_unpack _); vm_compute; exact I).
  assert (fitness_of Demo.tracked 6 = Some (45 # 1)%Q) as Hx
    by (vm_compute; reflexivity).
  assert (fitness_of Demo.tracked 3 = Some (24 # 1)%Q) as Hy
    by (vm_compute; reflexivity).
  split; [exact Hkill|]. split; [exact Hi|]. split; [exact Ht|].
  split; [exact Hu|]. split; [exact Hnot|]. split; [exact Hx|].
  split; [exact Hy|].
  exact (killUnfit_keeps_the_fittest Demo.tracked Demo.culled Hkill
           0 6 3 (45 # 1)%Q (24 # 1)%Q Hi Ht Hu Hnot Hx Hy).
Defined.

Lemma generation_keeps_its_best_in_front_witness :
  generation Demo.gen0 0 0 = Ok (Demo.gen1, 1%Z, 0%Z) ∧
  (1 ≤ keepTopN (conf Demo.gen0))%Z ∧
  ∃ best s2,
    _getBestModel (_scoreModelsInPop Demo.gen0) = Ok (best, s2) ∧
    population Demo.gen1 !! 0 = Some best.
Proof.
  assert (generation Demo.gen0 0 0 = Ok (Demo.gen1, 1%Z, 0%Z)) as Hgen
    by (vm_compute; reflexivity).
  assert (1 ≤ keepTopN (conf Demo.gen0))%Z as Htop
    by (vm_compute; discriminate).
  split; [exact Hgen|]. split; [exact Htop|].
  destruct (generation_keeps_its_best_in_front Demo.gen0 0 0 Demo.gen1 1 0
              Hgen Htop) as (best & s2 & Hbest & Hfront & _).
  exists best, s2. split; [exact Hbest|exact Hfront].
Defined.

Lemma models_only_gain_a_fitness_witness :
  generations 3 Demo.gen0 0 0 = Ok (Demo.gen3, 3%Z, 0%Z) ∧
  4 < allocated Demo.gen0 ∧
  hyperparams (objects Demo.gen3 4) = hyperparams (objects Demo.gen0 4) ∧
  ∀ q, fitness_of Demo.gen3 4 = Some q →
       fitness_of Demo.gen0 4 = Some q ∨
       fitness_of Demo.gen0 4 = None ∧ (4, q) ∈ scoreCalls Demo.gen3.
Proof.
  assert (generations 3 Demo.gen0 0 0 = Ok (Demo.gen3, 3%Z, 0%Z)) as Hgen
    by (vm_compute; reflexivity).
  assert (4 < allocated Demo.gen0) as Hr by (vm_compute; lia).
  split; [exact Hgen|]. split; [exact Hr|].
  destruct (models_only_gain_a_fitness 3 Demo.gen0 0 0 Demo.gen3 3 0 4
              Hgen Hr) as (Hh & _ & Hq).
  split; [exact Hh|exact Hq].
Defined.

Lemma children_are_bred_from_two_parents_witness :
  _makeChildren Demo.culled = Ok Demo.bred ∧
  (∀ r, r ∈ population Demo.culled → r < allocated Demo.culled) ∧
  ∃ childToMutate,
    mutateCalls Demo.bred = mutateCalls Demo.culled ++ [childToMutate] ∧
    ∀ c, allocated Demo.culled ≤ c < allocated Demo.bred →
      c ∈ population Demo.bred ∧ fitness_of Demo.bred c = None.
Proof.
  assert (_makeChildren Demo.culled = Ok Demo.bred) as Hbred
    by (vm_compute; reflexivity).
  split; [exact Hbred|]. split; [exact (wf_population _ wf_culled)|].
  destruct (children_are_bred_from_two_parents Demo.culled Demo.bred Hbred
              (wf_population _ wf_culled)) as (c & Hcalls & Hall).
  exists c. split; [exact Hcalls|].
  intros c' Hc'. destruct (Hall c' Hc') as (Hin & Hfit & _).
  split; [exact Hin|exact Hfit].
Defined.

Lemma graveyard_holds_each_discard_once_witness :
  wf Demo.gen0 ∧ buried Demo.gen0 ∧
  generations 3 Demo.gen0 0 0 = Ok (Demo.gen3, 3%Z, 0%Z) ∧
  NoDup (graveyard Demo.gen3) ∧
  ∀ r, r ∈ graveyard Demo.gen3 → r ∉ population Demo.gen3.
Proof.
  assert (generations 3 Demo.gen0 0 0 = Ok (Demo.gen3, 3%Z, 0%Z)) as Hgen
    by (vm_compute; reflexivity).
  split; [exact wf_gen0|]. split; [exact buried_gen0|].
  split; [exact Hgen|].
  destruct (graveyard_holds_each_discard_once 3 Demo.gen0 0 0 Demo.gen3 3 0
              wf_gen0 buried_gen0 Hgen) as (Hnd & Hgone & _).
  split; [exact Hnd|exact Hgone].
Defined.

Lemma next_scoring_evaluates_only_newcomers_witness :
  wf Demo.gen0 ∧
  generation Demo.gen0 0 0 = Ok (Demo.gen1, 1%Z, 0%Z) ∧
  ∃ (survivors newcomers : list ref) (calls : list (ref * Q)),
    population Demo.gen1 = survivors ++ newcomers ∧
    scoreCalls (_scoreModelsInPop Demo.gen1)
      = scoreCalls Demo.gen1 ++ calls ∧
    calls.*1 ≡ₚ newcomers.
Proof.
  assert (generation Demo.gen0 0 0 = Ok (Demo.gen1, 1%Z, 0%Z)) as Hgen
    by (vm_compute; reflexivity).
  split; [exact wf_gen0|]. split; [exact Hgen|].
  destruct (next_scoring_evaluates_only_newcomers Demo.gen0 0 0 Demo.gen1
              1 0 wf_gen0 Hgen)
    as (survivors & newcomers & calls & Hp & _ & _ & _ & Hcalls & Hperm).
  exists survivors, newcomers, calls.
  split; [exact Hp|]. split; [exact Hcalls|exact Hperm].
Defined.

Lemma bestModel_is_the_fittest_ever_scored_witness :
  wf Demo.gen0 ∧ champion Demo.gen0 ∧
  generations 3 Demo.gen0 0 0 = Ok (Demo.gen3, 3%Z, 0%Z) ∧
  ∃ b x, bestModel Demo.gen3 = Some b ∧ fitness_of Demo.gen3 b = Some x ∧
         ∀ r q, (r, q) ∈ scoreCalls Demo.gen3 → (q <= x)%Q.
Proof.
  assert (generations 3 Demo.gen0 0 0 = Ok (Demo.gen3, 3%Z, 0%Z)) as Hgen
    by (vm_compute; reflexivity).
  split; [exact wf_gen0|]. split; [exact champion_gen0|].
  split; [exact Hgen|].
  apply (bestModel_is_the_fittest_ever_scored 3 Demo.gen0 0 0 Demo.gen3 3 0
           wf_gen0 champion_gen0 Hgen).
  discriminate.
Defined.

Lemma counters_count_generations_witness :
  wf Demo.gen1 ∧
  generations 2 Demo.gen1 1 0 = Ok (Demo.gen3, 3%Z, 0%Z) ∧
  3%Z = (1 + Z.of_nat 2)%Z ∧
  ((0 ≤ 0)%Z → (0 ≤ 0 ≤ 0 + Z.of_nat 2)%Z).
Proof.
  assert (generations 2 Demo.gen1 1 0 = Ok (Demo.gen3, 3%Z, 0%Z)) as Hgen
    by (vm_compute; reflexivity).
  split; [exact wf_gen1|]. split; [exact Hgen|].
  destruct (counters_count_generations 2 Demo.gen1 1 0 Demo.gen3 3 0
              wf_gen1 Hgen) as (Hi & Hn & _).
  split; [exact Hi|exact Hn].
Defined.

Lemma evolve_keeps_the_invariants_witness :
  Demo.ga10 = Ok Demo.start ∧
  evolve 3 (Some 5%Z) None Demo.start = Running Demo.gen3 3 0 ∧
  wf Demo.gen3 ∧ buried Demo.gen3 ∧ champion Demo.gen3 ∧
  is_Some (bestModel Demo.gen3).
Proof.
  assert (Demo.ga10 = Ok Demo.start) as Hinit by (vm_compute; reflexivity).
  assert (evolve 3 (Some 5%Z) None Demo.start = Running Demo.gen3 3 0)
    as Hrun by (vm_compute; reflexivity).
  split; [exact Hinit|]. split; [exact Hrun|].
  destruct (evolve_keeps_the_invariants _ _ _ _ _ _ _ _ _ _ Demo.start 3
              (Some 5%Z) None Demo.gen3 3 0 Hinit (or_intror Hrun))
    as (Hwf & Hb & Hch & _ & _ & _ & Hpos).
  split; [exact Hwf|]. split; [exact Hb|]. split; [exact Hch|].
  apply Hpos. lia.
Defined.

Lemma counts_are_floors_witness :
  count_of Demo.f058 50 = Ok 28%Z ∧
  ∃ fs : float,
    float_of_int 50 = Ok fs ∧ finite (fmul Demo.f058 fs) ∧
    ((exponent (fmul Demo.f058 fs) < 0)%Z →
     (28 * 2 ^ (- exponent (fmul Demo.f058 fs))
      ≤ mantissa (fmul Demo.f058 fs)
      < (28 + 1) * 2 ^ (- exponent (fmul Demo.f058 fs)))%Z).
Proof.
  assert (count_of Demo.f058 50 = Ok 28%Z) as Hn
    by (vm_compute; reflexivity).
  split; [exact Hn|].
  destruct (counts_are_floors Demo.f058 50 28 Hn)
    as (fs & Hfs & Hfin & _ & Hfloor).
  exists fs. split; [exact Hfs|]. split; [exact Hfin|exact Hfloor].
Defined.
